(** * The relayed UDP connection of the TURN client (package [client], [UDPConn])

    A shallow embedding of [UDPConn] and of the operations the endpoint
    exposes: [NewUDPConn], [ReadFrom], [WriteTo], [Close],
    [SetReadDeadline], [HandleInbound], [FindAddrByChannelNumber] and the
    refresh handlers.  Go pointers to [permission] and [binding] objects are
    modelled by explicit heaps, so that an object removed from its tracker can
    still be mutated through the caller's local pointer, as in the source.
    Calls into the observer are recorded in a trace. *)

From Stdlib Require Import ZArith Lia.
From stdpp Require Import gmap strings list.

Local Open Scope string_scope.
Local Open Scope Z_scope.

(** ** Basic data *)

(** [[]byte] *)
Abbreviation bytes := (list Byte.byte).

#[global] Instance byte_eq_dec : EqDecision Byte.byte := Byte.byte_eq_dec.

#[global] Program Instance byte_countable : Countable Byte.byte :=
  inj_countable Byte.to_N Byte.of_N _.
Next Obligation. intros b. apply Byte.of_to_N. Qed.

(** [math.MaxInt64], also the largest [time.Duration]. *)
Definition MaxInt64 : Z := 9223372036854775807.
Definition MinInt64 : Z := -9223372036854775808.

(** [time.Second], in nanoseconds. *)
Definition Second : Z := 1000000000.

(** [net.Addr]: the interface value is a [*net.UDPAddr], a [*net.TCPAddr] or
    some other implementation.  Addresses are compared by value. *)
Inductive Addr :=
| UDPAddr (ip : bytes) (port : Z)
| TCPAddr (ip : bytes) (port : Z)
| OtherAddr (network : string) (str : string).

#[global] Instance Addr_eq_dec : EqDecision Addr.
Proof. solve_decision. Defined.

Definition Addr_encode (a : Addr) : (bytes * Z) + (bytes * Z) + (string * string) :=
  match a with
  | UDPAddr ip port => inl (inl (ip, port))
  | TCPAddr ip port => inl (inr (ip, port))
  | OtherAddr n s => inr (n, s)
  end.

Definition Addr_decode (x : (bytes * Z) + (bytes * Z) + (string * string)) : Addr :=
  match x with
  | inl (inl (ip, port)) => UDPAddr ip port
  | inl (inr (ip, port)) => TCPAddr ip port
  | inr (n, s) => OtherAddr n s
  end.

#[global] Program Instance Addr_countable : Countable Addr :=
  inj_countable' Addr_encode Addr_decode _.
Next Obligation. intros [ip port|ip port|n s]; reflexivity. Qed.

(** [addr.Network()] *)
Definition Network (a : Addr) : string :=
  match a with
  | UDPAddr _ _ => "udp"
  | TCPAddr _ _ => "tcp"
  | OtherAddr n _ => n
  end.

(** Go [error] values met by the endpoint.  A nil [error] is [None] of
    [option error]. *)
Inductive error :=
| Errorf (msg : string)
| ErrShortBuffer
| OpError (op net : string) (addr : Addr) (err : error)
| timeoutError (msg : string).

#[global] Instance error_eq_dec : EqDecision error.
Proof. solve_decision. Defined.

Definition newTimeoutError (msg : string) : error := timeoutError msg.

(** The [Timeout() bool] method: [timeoutError] has it and answers [true];
    [net.OpError] forwards to the wrapped error when that one has it. *)
Fixpoint Timeout (e : error) : bool :=
  match e with
  | timeoutError _ => true
  | OpError _ _ _ e' => Timeout e'
  | _ => false
  end.

(** [err.Error()] *)
Fixpoint Error (e : error) : string :=
  match e with
  | Errorf m => m
  | ErrShortBuffer => "short buffer"
  | OpError op net _ e' => op ++ " " ++ net ++ ": " ++ Error e'
  | timeoutError m => m
  end.

(** ** The STUN and TURN message libraries ([pion/stun], [gortc/turn])

    Only what the endpoint touches: message types, the list of setters handed
    to [stun.Build], and the attribute getters.  The byte-level encoders are
    parameters ([StunLib]). *)

Inductive Method :=
| MethodSend | MethodCreatePermission | MethodChannelBind | MethodRefresh
| MethodOther (code : Z).

Inductive MessageClass :=
| ClassRequest | ClassIndication | ClassSuccessResponse | ClassErrorResponse.

Record MessageType := NewType { TMethod : Method; TClass : MessageClass }.

#[global] Instance Method_eq_dec : EqDecision Method.
Proof. solve_decision. Defined.
#[global] Instance MessageClass_eq_dec : EqDecision MessageClass.
Proof. solve_decision. Defined.
#[global] Instance MessageType_eq_dec : EqDecision MessageType.
Proof. solve_decision. Defined.

(** [stun.Message]: the decoded type and the raw bytes. *)
Record Message := { Type_ : MessageType; Raw : bytes }.

#[global] Instance Message_eq_dec : EqDecision Message.
Proof. solve_decision. Defined.

(** [turn.PeerAddress] *)
Record PeerAddress := { PeerIP : bytes; PeerPort : Z }.

#[global] Instance PeerAddress_eq_dec : EqDecision PeerAddress.
Proof. solve_decision. Defined.

(** The [stun.Setter] values the endpoint passes to [stun.Build]. *)
Inductive Setter :=
| TransactionID
| SetType (t : MessageType)
| RequestedTransportUDP
| Data (p : bytes)
| SetPeerAddress (a : PeerAddress)
| Lifetime (d : Z)
| ChannelNumber (n : Z)
| SetUsername (u : string)
| SetRealm (r : string)
| SetNonce (n : bytes)
| SetIntegrity (i : bytes)
| Fingerprint.

#[global] Instance Setter_eq_dec : EqDecision Setter.
Proof. solve_decision. Defined.

Record StunLib := {
  (** [MessageType.AddTo]: writes the type into the header bytes. *)
  WriteType : MessageType -> bytes -> bytes;
  (** [AddTo] of every other setter, on the raw bytes; it may fail. *)
  AddAttr : Setter -> bytes -> bytes + error;
  (** [GetFrom] of [stun.ErrorCodeAttribute], the attribute rendered by [%s]. *)
  ErrorCode_GetFrom : Message -> string + error;
  (** [GetFrom] of [turn.Lifetime], the duration in nanoseconds. *)
  Lifetime_GetFrom : Message -> Z + error;
  (** [MessageType.String] *)
  MessageType_String : MessageType -> string;
  (** [Encode] of [turn.ChannelData]: [Raw] from [Data] and [Number]. *)
  ChannelData_Encode : bytes -> Z -> bytes;
}.

(** [Setter.AddTo(m)] *)
Definition AddTo (lib : StunLib) (s : Setter) (m : Message) : Message + error :=
  match s with
  | SetType t => inl {| Type_ := t; Raw := WriteType lib t (Raw m) |}
  | _ => match AddAttr lib s (Raw m) with
         | inl r => inl {| Type_ := Type_ m; Raw := r |}
         | inr e => inr e
         end
  end.

(** [m.Build(setters...)]: apply the setters in order, stop at the first error. *)
Fixpoint Build_from (lib : StunLib) (setters : list Setter) (m : Message)
  : Message + error :=
  match setters with
  | [] => inl m
  | s :: rest =>
      match AddTo lib s m with
      | inl m' => Build_from lib rest m'
      | inr e => inr e
      end
  end.

(** [stun.Build(setters...)], from an empty message. *)
Definition Build (lib : StunLib) (setters : list Setter) : Message + error :=
  Build_from lib setters {| Type_ := NewType (MethodOther 0) ClassRequest; Raw := [] |}.

(** [TransactionResult]: [Msg] is a [*stun.Message] and may be nil. *)
Record TransactionResult := { Msg : option Message }.

(** ** The observer and the trace of calls made to it *)

Inductive LogLevel := LDebug | LWarn | LError.

Inductive Event :=
| EvPerformTransaction (msg : Message) (to : Addr) (dontWait : bool)
| EvWriteTo (data : bytes) (to : Addr)
| EvOnDeallocated (relayedAddr : Addr)
| EvLog (level : LogLevel) (msg : string).

#[global] Instance LogLevel_eq_dec : EqDecision LogLevel.
Proof. solve_decision. Defined.
#[global] Instance Event_eq_dec : EqDecision Event.
Proof. solve_decision. Defined.

(** [UDPConnObserver].  The answers of the owner may depend on everything
    that was asked before, which is the trace so far (oldest event first). *)
Record UDPConnObserver := {
  TURNServerAddr : Addr;
  Username : string;
  Realm : string;
  obs_WriteTo : list Event -> bytes -> Addr -> Z * option error;
  PerformTransaction :
    list Event -> Message -> Addr -> bool -> TransactionResult * option error;
}.

(** ** Trackers, timers and the endpoint state *)

Inductive permState := permStateIdle | permStatePermitted.
Inductive bindingState := bindingStateIdle | bindingStateReady | bindingStateFailed.

#[global] Instance permState_eq_dec : EqDecision permState.
Proof. solve_decision. Defined.
#[global] Instance bindingState_eq_dec : EqDecision bindingState.
Proof. solve_decision. Defined.

(** [permission]: its state and its mutex ([true] when held).  [&permission{}]
    is the zero value: idle, unlocked. *)
Record permission := { p_st : permState; p_mutex : bool }.

(** [binding] *)
Record binding := {
  number : Z;
  addr : Addr;
  b_st : bindingState;
  b_mutex : bool;
}.

(** Pointers into the heaps of [permission] and [binding] objects. *)
Abbreviation ptr := nat.

(** Modelled from the spec: [permissionMap] (section 4.1), whose source file
    is not part of the sources at hand: a map from peer address to the
    permission object, with [find], [insert], [delete] and [addrs]. *)
Record permissionMap := { permMap : gmap Addr ptr }.

Definition newPermissionMap : permissionMap := {| permMap := ∅ |}.
Definition pm_find (m : permissionMap) (a : Addr) : option ptr := permMap m !! a.
Definition pm_insert (m : permissionMap) (a : Addr) (p : ptr) : permissionMap :=
  {| permMap := <[a := p]> (permMap m) |}.
Definition pm_delete (m : permissionMap) (a : Addr) : permissionMap :=
  {| permMap := delete a (permMap m) |}.
Definition pm_addrs (m : permissionMap) : list Addr := (map_to_list (permMap m)).*1.

(** The reserved channel-number space. *)
Definition minChannelNumber : Z := 0x4000.
Definition maxChannelNumber : Z := 0x7FFF.

(** Modelled from the spec: [bindingManager] (section 4.2), whose source file
    is not part of the sources at hand: the forward map from peer address and
    the reverse map from channel number, both to the binding object. *)
Record bindingManager := {
  chanMap : gmap Z ptr;
  addrMap : gmap Addr ptr;
}.

Definition newBindingManager : bindingManager := {| chanMap := ∅; addrMap := ∅ |}.

(** After [deleteByAddr] neither lookup direction resolves: the address is
    forgotten, and so is the channel number of its binding, read from the
    binding object in the heap. *)
Definition bm_deleteByAddr (mgr : bindingManager) (heap : gmap ptr binding) (a : Addr)
  : bindingManager :=
  match addrMap mgr !! a with
  | None => mgr
  | Some b =>
      {| chanMap := match heap !! b with
                    | Some x => delete (number x) (chanMap mgr)
                    | None => chanMap mgr
                    end;
         addrMap := delete a (addrMap mgr) |}
  end.

(** A channel number not currently in use: the least free one of the
    reserved space (the first one when none is free). *)
(** The least number of the [count] numbers from [n] on that is not a key
    of [chans]. *)
Fixpoint firstFree (chans : gmap Z ptr) (n : Z) (count : positive) : option Z :=
  match count with
  | xH => if bool_decide (chans !! n = None) then Some n else None
  | xO c =>
      match firstFree chans n c with
      | Some r => Some r
      | None => firstFree chans (n + Zpos c) c
      end
  | xI c =>
      if bool_decide (chans !! n = None) then Some n
      else match firstFree chans (n + 1) c with
           | Some r => Some r
           | None => firstFree chans (n + 1 + Zpos c) c
           end
  end.

Definition assignChannelNumber (mgr : bindingManager) : Z :=
  match firstFree (chanMap mgr) minChannelNumber
          (Z.to_pos (maxChannelNumber - minChannelNumber + 1)) with
  | Some n => n
  | None => minChannelNumber
  end.
Arguments assignChannelNumber : simpl never.

(** Modelled from the spec: the timer of [time.NewTimer] as the Go runtime
    of the source's time implements it: an expiry instant and a channel [C]
    of capacity one.  [Reset] re-arms the timer and leaves [C] as it is. *)
Record Timer := {
  t_when : Z;      (* the instant of expiry, in nanoseconds *)
  t_armed : bool;  (* not yet expired or stopped *)
  t_C : bool;      (* a tick is waiting in the channel *)
}.

(** Modelled from the spec: [PeriodicTimer] (section 4.3), whose source file
    is not part of the sources at hand: an identity, the period it was
    constructed with, whether it is running, and the instant at which it
    fires next. *)
Record PeriodicTimer := {
  pt_id : Z;
  pt_interval : Z;
  pt_running : bool;
  pt_due : Z;
}.

Definition timerIDRefreshAlloc : Z := 0.
Definition timerIDRefreshPerms : Z := 1.

Definition maxReadQueueSize : nat := 1024.
Definition permRefreshInterval : Z := 120 * Second.

(** [time.Time], as nanoseconds since the zero time. *)
Abbreviation Time := Z.
Definition noDeadline : Time := 0.

Record inboundData := { data : bytes; from : Addr }.

(** [UDPConn].  The observer and the logger are parameters of the
    operations; [closeCh] is [true] once the channel has been closed. *)
Record UDPConn := {
  relayedAddr : Addr;
  permMap_ : permissionMap;
  bindingMgr : bindingManager;
  integrity : bytes;
  nonce : bytes;
  lifetime : Z;
  readCh : list inboundData;
  closeCh : bool;
  closed : bool;
  readTimer : Timer;
  refreshAllocTimer : PeriodicTimer;
  refreshPermsTimer : PeriodicTimer;
}.

(** [UDPConnConfig] *)
Record UDPConnConfig := {
  cfg_RelayedAddr : Addr;
  cfg_Integrity : bytes;
  cfg_Nonce : bytes;
  cfg_Lifetime : Z;
}.

(** The endpoint together with what it points to and what surrounds it: the
    two heaps, the clock and the trace of calls to observer and logger. *)
Record World := {
  conn : UDPConn;
  perms : gmap ptr permission;
  binds : gmap ptr binding;
  now : Z;
  trace : list Event;
}.

(** Field updates. *)
Definition set_conn (w : World) (c : UDPConn) : World :=
  {| conn := c; perms := perms w; binds := binds w; now := now w; trace := trace w |}.
Definition set_perms (w : World) (h : gmap ptr permission) : World :=
  {| conn := conn w; perms := h; binds := binds w; now := now w; trace := trace w |}.
Definition set_binds (w : World) (h : gmap ptr binding) : World :=
  {| conn := conn w; perms := perms w; binds := h; now := now w; trace := trace w |}.
Definition set_now (w : World) (t : Z) : World :=
  {| conn := conn w; perms := perms w; binds := binds w; now := t; trace := trace w |}.
Definition set_trace (w : World) (tr : list Event) : World :=
  {| conn := conn w; perms := perms w; binds := binds w; now := now w; trace := tr |}.
Definition emit (w : World) (e : Event) : World := set_trace w (trace w ++ [e]).

Definition set_permMap (c : UDPConn) (m : permissionMap) : UDPConn :=
  {| relayedAddr := relayedAddr c; permMap_ := m; bindingMgr := bindingMgr c;
     integrity := integrity c; nonce := nonce c; lifetime := lifetime c;
     readCh := readCh c; closeCh := closeCh c; closed := closed c;
     readTimer := readTimer c; refreshAllocTimer := refreshAllocTimer c;
     refreshPermsTimer := refreshPermsTimer c |}.
Definition set_bindingMgr (c : UDPConn) (m : bindingManager) : UDPConn :=
  {| relayedAddr := relayedAddr c; permMap_ := permMap_ c; bindingMgr := m;
     integrity := integrity c; nonce := nonce c; lifetime := lifetime c;
     readCh := readCh c; closeCh := closeCh c; closed := closed c;
     readTimer := readTimer c; refreshAllocTimer := refreshAllocTimer c;
     refreshPermsTimer := refreshPermsTimer c |}.
Definition set_lifetime (c : UDPConn) (l : Z) : UDPConn :=
  {| relayedAddr := relayedAddr c; permMap_ := permMap_ c; bindingMgr := bindingMgr c;
     integrity := integrity c; nonce := nonce c; lifetime := l;
     readCh := readCh c; closeCh := closeCh c; closed := closed c;
     readTimer := readTimer c; refreshAllocTimer := refreshAllocTimer c;
     refreshPermsTimer := refreshPermsTimer c |}.
Definition set_readCh (c : UDPConn) (q : list inboundData) : UDPConn :=
  {| relayedAddr := relayedAddr c; permMap_ := permMap_ c; bindingMgr := bindingMgr c;
     integrity := integrity c; nonce := nonce c; lifetime := lifetime c;
     readCh := q; closeCh := closeCh c; closed := closed c;
     readTimer := readTimer c; refreshAllocTimer := refreshAllocTimer c;
     refreshPermsTimer := refreshPermsTimer c |}.
Definition set_closeCh (c : UDPConn) (b : bool) : UDPConn :=
  {| relayedAddr := relayedAddr c; permMap_ := permMap_ c; bindingMgr := bindingMgr c;
     integrity := integrity c; nonce := nonce c; lifetime := lifetime c;
     readCh := readCh c; closeCh := b; closed := closed c;
     readTimer := readTimer c; refreshAllocTimer := refreshAllocTimer c;
     refreshPermsTimer := refreshPermsTimer c |}.
Definition set_closed (c : UDPConn) (b : bool) : UDPConn :=
  {| relayedAddr := relayedAddr c; permMap_ := permMap_ c; bindingMgr := bindingMgr c;
     integrity := integrity c; nonce := nonce c; lifetime := lifetime c;
     readCh := readCh c; closeCh := closeCh c; closed := b;
     readTimer := readTimer c; refreshAllocTimer := refreshAllocTimer c;
     refreshPermsTimer := refreshPermsTimer c |}.
Definition set_readTimer (c : UDPConn) (t : Timer) : UDPConn :=
  {| relayedAddr := relayedAddr c; permMap_ := permMap_ c; bindingMgr := bindingMgr c;
     integrity := integrity c; nonce := nonce c; lifetime := lifetime c;
     readCh := readCh c; closeCh := closeCh c; closed := closed c;
     readTimer := t; refreshAllocTimer := refreshAllocTimer c;
     refreshPermsTimer := refreshPermsTimer c |}.
Definition set_refreshTimers (c : UDPConn) (ta tp : PeriodicTimer) : UDPConn :=
  {| relayedAddr := relayedAddr c; permMap_ := permMap_ c; bindingMgr := bindingMgr c;
     integrity := integrity c; nonce := nonce c; lifetime := lifetime c;
     readCh := readCh c; closeCh := closeCh c; closed := closed c;
     readTimer := readTimer c; refreshAllocTimer := ta;
     refreshPermsTimer := tp |}.

(** ** The monad of endpoint operations

    An operation runs on a [World] and either returns, panics (a Go run-time
    panic, such as a nil pointer dereference) or blocks. *)

Inductive Outcome (A : Type) :=
| Done (a : A) (w : World)
| Panic (msg : string) (w : World)
| Blocked (w : World).
Arguments Done {A} a w.
Arguments Panic {A} msg w.
Arguments Blocked {A} w.

Definition M (A : Type) : Type := World -> Outcome A.

(** The outcome with its world changed by [f]. *)
Definition graft {A} (o : Outcome A) (f : World -> World) : Outcome A :=
  match o with
  | Done a w => Done a (f w)
  | Panic msg w => Panic msg (f w)
  | Blocked w => Blocked (f w)
  end.

(** The world an operation ends in. *)
Definition world_after {A} (o : Outcome A) : World :=
  match o with
  | Done _ w => w
  | Panic _ w => w
  | Blocked w => w
  end.

Definition ret {A} (a : A) : M A := fun w => Done a w.

Definition bindM {A B} (m : M A) (k : A -> M B) : M B := fun w =>
  match m w with
  | Done a w' => k a w'
  | Panic msg w' => Panic msg w'
  | Blocked w' => Blocked w'
  end.

Declare Scope go_scope.
Delimit Scope go_scope with go.
Notation "x <- c ;; k" := (bindM c (fun x => k))
  (at level 100, c at next level, right associativity) : go_scope.
Notation "c ;;; k" := (bindM c (fun _ => k))
  (at level 100, right associativity) : go_scope.
Local Open Scope go_scope.

Definition panic {A} (msg : string) : M A := fun w => Panic msg w.
Definition get : M World := fun w => Done w w.
Definition modify (f : World -> World) : M unit := fun w => Done tt (f w).
Definition getConn : M UDPConn := fun w => Done (conn w) w.
Definition modifyConn (f : UDPConn -> UDPConn) : M unit :=
  modify (fun w => set_conn w (f (conn w))).

(** [defer cleanup] around a function body: the deferred call runs when the
    body returns and also when it panics. *)
Definition defer {A} (cleanup : M unit) (body : M A) : M A := fun w =>
  match body w with
  | Done a w' =>
      match cleanup w' with
      | Done _ w'' => Done a w''
      | Panic msg w'' => Panic msg w''
      | Blocked w'' => Blocked w''
      end
  | Panic msg w' =>
      match cleanup w' with
      | Done _ w'' => Panic msg w''
      | Panic msg' w'' => Panic msg' w''
      | Blocked w'' => Blocked w''
      end
  | Blocked w' => Blocked w'
  end.

Definition nilDeref : string := "invalid memory address or nil pointer dereference".

(** A line handed to the leveled logger, already formatted. *)
Definition logf (level : LogLevel) (msg : string) : M unit :=
  modify (fun w => emit w (EvLog level msg)).

(** *** Permission and binding objects *)

Definition newPermission : M ptr := fun w =>
  let p := fresh (dom (perms w)) in
  Done p (set_perms w (<[p := {| p_st := permStateIdle; p_mutex := false |}]> (perms w))).

Definition withPerm {A} (p : ptr) (k : permission -> M A) : M A := fun w =>
  match perms w !! p with
  | Some x => k x w
  | None => Panic nilDeref w
  end.

Definition perm_state (p : ptr) : M permState := withPerm p (fun x => ret (p_st x)).
Definition perm_setState (p : ptr) (s : permState) : M unit :=
  withPerm p (fun x => modify (fun w =>
    set_perms w (<[p := {| p_st := s; p_mutex := p_mutex x |}]> (perms w)))).
Definition perm_Lock (p : ptr) : M unit :=
  withPerm p (fun x w =>
    if p_mutex x then Blocked w
    else Done tt (set_perms w (<[p := {| p_st := p_st x; p_mutex := true |}]> (perms w)))).
Definition perm_Unlock (p : ptr) : M unit :=
  withPerm p (fun x => modify (fun w =>
    set_perms w (<[p := {| p_st := p_st x; p_mutex := false |}]> (perms w)))).

Definition withBinding {A} (b : ptr) (k : binding -> M A) : M A := fun w =>
  match binds w !! b with
  | Some x => k x w
  | None => Panic nilDeref w
  end.

Definition set_b_st (x : binding) (s : bindingState) : binding :=
  {| number := number x; addr := addr x; b_st := s; b_mutex := b_mutex x |}.
Definition set_b_mutex (x : binding) (l : bool) : binding :=
  {| number := number x; addr := addr x; b_st := b_st x; b_mutex := l |}.

Definition binding_state (b : ptr) : M bindingState :=
  withBinding b (fun x => ret (b_st x)).
Definition binding_setState (b : ptr) (s : bindingState) : M unit :=
  withBinding b (fun x => modify (fun w => set_binds w (<[b := set_b_st x s]> (binds w)))).
Definition binding_Lock (b : ptr) : M unit :=
  withBinding b (fun x w =>
    if b_mutex x then Blocked w
    else Done tt (set_binds w (<[b := set_b_mutex x true]> (binds w)))).
Definition binding_Unlock (b : ptr) : M unit :=
  withBinding b (fun x => modify (fun w => set_binds w (<[b := set_b_mutex x false]> (binds w)))).

(** [c.permMap.find], [insert], [delete] *)
Definition permMap_find (a : Addr) : M (option ptr) :=
  c <- getConn ;; ret (pm_find (permMap_ c) a).
Definition permMap_insert (a : Addr) (p : ptr) : M unit :=
  modifyConn (fun c => set_permMap c (pm_insert (permMap_ c) a p)).
Definition permMap_delete (a : Addr) : M unit :=
  modifyConn (fun c => set_permMap c (pm_delete (permMap_ c) a)).

(** [c.bindingMgr.findByAddr], [findByNumber], [create], [deleteByAddr] *)
Definition findByAddr (a : Addr) : M (option ptr) :=
  c <- getConn ;; ret (addrMap (bindingMgr c) !! a).
Definition findByNumber (n : Z) : M (option ptr) :=
  c <- getConn ;; ret (chanMap (bindingMgr c) !! n).
Definition create (a : Addr) : M ptr := fun w =>
  let mgr := bindingMgr (conn w) in
  let b := fresh (dom (binds w)) in
  let n := assignChannelNumber mgr in
  let x := {| number := n; addr := a; b_st := bindingStateIdle; b_mutex := false |} in
  Done b (set_conn (set_binds w (<[b := x]> (binds w)))
            (set_bindingMgr (conn w)
               {| chanMap := <[n := b]> (chanMap mgr); addrMap := <[a := b]> (addrMap mgr) |})).
Definition deleteByAddr (a : Addr) : M unit :=
  modify (fun w =>
    set_conn w (set_bindingMgr (conn w) (bm_deleteByAddr (bindingMgr (conn w)) (binds w) a))).

(** ** The operations of [UDPConn] *)

Section Endpoint.

Variable lib : StunLib.
Variable obs : UDPConnObserver.

(** [c.obs.PerformTransaction(msg, to, dontWait)] *)
Definition performTransaction (msg : Message) (to : Addr) (dontWait : bool)
  : M (TransactionResult * option error) := fun w =>
  Done (PerformTransaction obs (trace w) msg to dontWait)
       (emit w (EvPerformTransaction msg to dontWait)).

(** [c.obs.WriteTo(data, to)] *)
Definition transportWriteTo (raw : bytes) (to : Addr) : M (Z * option error) := fun w =>
  Done (obs_WriteTo obs (trace w) raw to) (emit w (EvWriteTo raw to)).

(** [c.obs.OnDeallocated(relayedAddr)] *)
Definition onDeallocated (a : Addr) : M unit :=
  modify (fun w => emit w (EvOnDeallocated a)).

Definition addr2PeerAddress (a : Addr) : PeerAddress :=
  match a with
  | UDPAddr ip port => {| PeerIP := ip; PeerPort := port |}
  | TCPAddr ip port => {| PeerIP := ip; PeerPort := port |}
  | OtherAddr _ _ => {| PeerIP := []; PeerPort := 0 |}
  end.

Definition createPermissionSetters (c : UDPConn) (addrs : list Addr) : list Setter :=
  [TransactionID;
   SetType (NewType MethodCreatePermission ClassRequest);
   RequestedTransportUDP]
  ++ map (fun a => SetPeerAddress (addr2PeerAddress a)) addrs
  ++ [SetUsername (Username obs); SetRealm (Realm obs);
      SetNonce (nonce c); SetIntegrity (integrity c); Fingerprint].

Definition createPermissions (addrs : list Addr) : M (option error) :=
  c <- getConn ;;
  match Build lib (createPermissionSetters c addrs) with
  | inr e => ret (Some e)
  | inl msg =>
      r <- performTransaction msg (TURNServerAddr obs) false ;;
      match r.2 with
      | Some e => ret (Some e)
      | None =>
          match Msg r.1 with
          | None => panic nilDeref
          | Some res =>
              if decide (TClass (Type_ res) = ClassErrorResponse) then
                match ErrorCode_GetFrom lib res with
                | inl code =>
                    ret (Some (Errorf (MessageType_String lib (Type_ res)
                                       ++ " (error " ++ code ++ ")")))
                | inr _ => ret (Some (Errorf (MessageType_String lib (Type_ res))))
                end
              else ret None
          end
      end
  end.

Definition bindSetters (c : UDPConn) (x : binding) : list Setter :=
  [TransactionID;
   SetType (NewType MethodChannelBind ClassRequest);
   RequestedTransportUDP;
   SetPeerAddress (addr2PeerAddress (addr x));
   ChannelNumber (number x);
   SetUsername (Username obs); SetRealm (Realm obs);
   SetNonce (nonce c); SetIntegrity (integrity c); Fingerprint].

(** [bind]: after a transaction error the binding is removed from the
    manager and the function goes on to read [trRes.Msg]. *)
Definition bind (b : ptr) : M (option error) :=
  c <- getConn ;;
  withBinding b (fun x =>
  match Build lib (bindSetters c x) with
  | inr e => ret (Some e)
  | inl msg =>
      r <- performTransaction msg (TURNServerAddr obs) false ;;
      (match r.2 with
       | Some _ => deleteByAddr (addr x)
       | None => ret tt
       end) ;;;
      match Msg r.1 with
      | None => panic nilDeref
      | Some res =>
          if decide (Type_ res = NewType MethodChannelBind ClassSuccessResponse) then
            logf LDebug "channel binding successful" ;;;
            ret None
          else
            ret (Some (Errorf ("unexpected response type "
                               ++ MessageType_String lib (Type_ res))))
      end
  end).

Definition sendChannelData (p : bytes) (chNum : Z) : M (Z * option error) :=
  transportWriteTo (ChannelData_Encode lib p chNum) (TURNServerAddr obs).

Definition sendIndicationSetters (p : bytes) (a : Addr) : list Setter :=
  [TransactionID;
   SetType (NewType MethodSend ClassIndication);
   RequestedTransportUDP;
   Data p;
   SetPeerAddress (addr2PeerAddress a);
   Fingerprint].

(** The first function literal of [WriteTo]: under the permission's lock,
    create the permission when the entry is idle. *)
Definition ensurePermission (a : Addr) (perm : ptr) : M (option error) :=
  perm_Lock perm ;;;
  defer (perm_Unlock perm)
    (st <- perm_state perm ;;
     if decide (st = permStateIdle) then
       err <- createPermissions [a] ;;
       match err with
       | Some e => permMap_delete a ;;; ret (Some e)
       | None => perm_setState perm permStatePermitted ;;; ret None
       end
     else ret None).

(** The second function literal of [WriteTo]: under the binding's lock, bind
    the channel when the binding is still idle. *)
Definition ensureBinding (b : ptr) : M unit :=
  binding_Lock b ;;;
  defer (binding_Unlock b)
    (st <- binding_state b ;;
     if decide (st = bindingStateIdle) then
       err <- bind b ;;
       match err with
       | Some e =>
           logf LWarn ("bind() failed: " ++ Error e) ;;;
           binding_setState b bindingStateFailed
       | None => binding_setState b bindingStateReady
       end
     else ret tt).

(** The lookup of the permission at the head of [WriteTo]: a new idle
    permission is inserted when none is found. *)
Definition lookupPermission (a : Addr) : M ptr :=
  found <- permMap_find a ;;
  match found with
  | Some q => ret q
  | None => q <- newPermission ;; permMap_insert a q ;;; ret q
  end.

(** The lookup of the binding in [WriteTo]. *)
Definition lookupBinding (a : Addr) : M ptr :=
  found <- findByAddr a ;;
  match found with
  | Some b => ret b
  | None => create a
  end.

(** The send-indication path of [WriteTo]. *)
Definition sendIndication (p : bytes) (a : Addr) : M (Z * option error) :=
  match Build lib (sendIndicationSetters p a) with
  | inr e => ret (0, Some e)
  | inl msg => transportWriteTo (Raw msg) (TURNServerAddr obs)
  end.

(** The first half of [WriteTo]: check that there is a permission for the
    destination, creating it when needed. *)
Definition permissionStage (a : Addr) : M (option error) :=
  perm <- lookupPermission a ;;
  ensurePermission a perm.

(** The second half of [WriteTo]: bind the channel when needed, then send
    over the channel when the binding is ready and by indication otherwise. *)
Definition bindingStage (p : bytes) (a : Addr) : M (Z * option error) :=
  b <- lookupBinding a ;;
  st <- binding_state b ;;
  if decide (st <> bindingStateReady) then
    st' <- binding_state b ;;
    (if decide (st' = bindingStateIdle) then ensureBinding b else ret tt) ;;;
    sendIndication p a
  else
    withBinding b (fun x => sendChannelData p (number x)).

Definition WriteTo (p : bytes) (a : Addr) : M (Z * option error) :=
  match a with
  | UDPAddr _ _ =>
      err <- permissionStage a ;;
      match err with
      | Some e => ret (0, Some e)
      | None => bindingStage p a
      end
  | _ => ret (0, Some (Errorf "addr is not a net.UDPAddr"))
  end.

Definition refreshSetters (l : Z) : list Setter :=
  [TransactionID;
   SetType (NewType MethodRefresh ClassRequest);
   RequestedTransportUDP;
   Lifetime l;
   Fingerprint].

Definition refreshAllocation (l : Z) (dontWait : bool) : M unit :=
  match Build lib (refreshSetters l) with
  | inr e => logf LError ("failed to build refresh request: " ++ Error e)
  | inl msg =>
      r <- performTransaction msg (TURNServerAddr obs) dontWait ;;
      match r.2 with
      | Some e => logf LError ("failed to refresh refresh: " ++ Error e)
      | None =>
          if dontWait then ret tt
          else
            match Msg r.1 with
            | None => panic nilDeref
            | Some res =>
                match Lifetime_GetFrom lib res with
                | inr e =>
                    logf LError ("failed to get lifetime from refresh response: "
                                 ++ Error e)
                | inl updatedLifetime =>
                    modifyConn (fun c => set_lifetime c updatedLifetime) ;;;
                    logf LDebug "updated lifetime"
                end
            end
      end
  end.

Definition refreshPermissions : M unit :=
  c <- getConn ;;
  let addrs := pm_addrs (permMap_ c) in
  if decide (length addrs = 0%nat) then logf LDebug "no permission to refresh"
  else
    err <- createPermissions addrs ;;
    match err with
    | Some e => logf LError ("fail to refresh permissions: " ++ Error e)
    | None => logf LDebug "refresh permissions successful"
    end.

Definition onRefreshTimers (id : Z) : M unit :=
  logf LDebug "refresh timer expired" ;;;
  c <- getConn ;;
  let l := lifetime c in
  if decide (id = timerIDRefreshAlloc) then refreshAllocation l false
  else if decide (id = timerIDRefreshPerms) then refreshPermissions
  else ret tt.

(** *** Timers *)

(** The instant at which a timer of duration [d] started at [t] expires: at
    once when [d <= 0], and no later than the largest instant. *)
Definition timer_when (d t : Z) : Z :=
  if d <=? 0 then t
  else if MaxInt64 <? t + d then MaxInt64 else t + d.

Definition NewTimer (d t : Z) : Timer :=
  {| t_when := timer_when d t; t_armed := true; t_C := false |}.

Definition Timer_Reset (tm : Timer) (d t : Z) : Timer :=
  {| t_when := timer_when d t; t_armed := true; t_C := t_C tm |}.

(** The run time puts a tick into [C] once the instant of expiry is reached. *)
Definition Timer_expire (tm : Timer) (t : Z) : Timer :=
  if t_armed tm && (t_when tm <=? t)
  then {| t_when := t_when tm; t_armed := false; t_C := true |}
  else tm.

Definition Timer_drain (tm : Timer) : Timer :=
  {| t_when := t_when tm; t_armed := t_armed tm; t_C := false |}.

(** [time.Until(t)]: a duration, saturated at both ends. *)
Definition Until (t : Time) (t0 : Z) : Z :=
  Z.max MinInt64 (Z.min MaxInt64 (t - t0)).

Definition NewPeriodicTimer (id interval : Z) : PeriodicTimer :=
  {| pt_id := id; pt_interval := interval; pt_running := false; pt_due := 0 |}.

(** [Start] at instant [t0] answers whether the timer was started by this
    call; a started timer fires one period later. *)
Definition PeriodicTimer_Start (t : PeriodicTimer) (t0 : Z) : bool * PeriodicTimer :=
  if pt_running t then (false, t)
  else (true, {| pt_id := pt_id t; pt_interval := pt_interval t; pt_running := true;
                 pt_due := t0 + pt_interval t |}).

Definition PeriodicTimer_Stop (t : PeriodicTimer) : PeriodicTimer :=
  {| pt_id := pt_id t; pt_interval := pt_interval t; pt_running := false;
     pt_due := pt_due t |}.

(** After the handler has returned the timer waits for one more period. *)
Definition PeriodicTimer_rearm (t : PeriodicTimer) (t0 : Z) : PeriodicTimer :=
  {| pt_id := pt_id t; pt_interval := pt_interval t; pt_running := pt_running t;
     pt_due := t0 + pt_interval t |}.

(** *** Construction, reading, closing *)

Definition NewUDPConn (config : UDPConnConfig) (t0 : Z) : World :=
  let l := cfg_Lifetime config in
  let ta := PeriodicTimer_Start (NewPeriodicTimer timerIDRefreshAlloc (Z.quot l 2)) t0 in
  let tp := PeriodicTimer_Start (NewPeriodicTimer timerIDRefreshPerms permRefreshInterval) t0 in
  {| conn := {| relayedAddr := cfg_RelayedAddr config;
                permMap_ := newPermissionMap;
                bindingMgr := newBindingManager;
                integrity := cfg_Integrity config;
                nonce := cfg_Nonce config;
                lifetime := l;
                readCh := [];
                closeCh := false;
                closed := false;
                readTimer := NewTimer MaxInt64 t0;
                refreshAllocTimer := ta.2;
                refreshPermsTimer := tp.2 |};
     perms := ∅;
     binds := ∅;
     now := t0;
     trace := [EvLog LDebug "initial lifetime"]
              ++ (if ta.1 then [EvLog LDebug "refreshAllocTimer started"] else [])
              ++ (if tp.1 then [EvLog LDebug "refreshPermsTimer started"] else []) |}.

Definition LocalAddr (c : UDPConn) : Addr := relayedAddr c.

(** The cases of the [select] in [ReadFrom]. *)
Inductive SelectCase := CaseReadCh | CaseReadTimer | CaseCloseCh.

Definition ready (c : UDPConn) (s : SelectCase) : bool :=
  match s with
  | CaseReadCh => match readCh c with [] => false | _ => true end
  | CaseReadTimer => t_C (readTimer c)
  | CaseCloseCh => closeCh c
  end.

(** [select] takes any one of the cases that can proceed: the one the
    scheduler prefers ([pick]) when it can, else another one; [None] when none
    can and the call blocks. *)
Definition select (pick : SelectCase) (c : UDPConn) : option SelectCase :=
  if ready c pick then Some pick
  else List.find (ready c) [CaseReadCh; CaseReadTimer; CaseCloseCh].

(** [copy(dst, src)]: the number of bytes copied and the new content of [dst]. *)
Definition copy (dst src : bytes) : nat * bytes :=
  let n := Nat.min (length dst) (length src) in
  (n, (firstn n src ++ skipn n dst)%list).

(** What [ReadFrom] hands back: its three results and the caller's buffer as
    the call left it. *)
Record ReadResult := {
  rr_n : Z;
  rr_addr : option Addr;
  rr_err : option error;
  rr_buf : bytes;
}.

Definition closedError (c : UDPConn) : error :=
  OpError "read" (Network (LocalAddr c)) (LocalAddr c)
    (Errorf "use of closed network connection").

Definition readTimeoutError (c : UDPConn) : error :=
  OpError "read" (Network (LocalAddr c)) (LocalAddr c) (newTimeoutError "i/o timeout").

Definition ReadFrom (pick : SelectCase) (p : bytes) : M ReadResult :=
  c0 <- getConn ;;
  if closed c0 then
    ret {| rr_n := 0; rr_addr := None; rr_err := Some (closedError c0); rr_buf := p |}
  else
    w <- get ;;
    modifyConn (fun c => set_readTimer c (Timer_expire (readTimer c) (now w))) ;;;
    c <- getConn ;;
    match select pick c with
    | None => fun w' => Blocked w'
    | Some CaseReadCh =>
        match readCh c with
        | [] => fun w' => Blocked w'
        | ibData :: rest =>
            modifyConn (fun c => set_readCh c rest) ;;;
            let r := copy p (data ibData) in
            if (r.1 <? length (data ibData))%nat then
              ret {| rr_n := 0; rr_addr := None; rr_err := Some ErrShortBuffer;
                     rr_buf := r.2 |}
            else
              ret {| rr_n := Z.of_nat r.1; rr_addr := Some (from ibData);
                     rr_err := None; rr_buf := r.2 |}
        end
    | Some CaseReadTimer =>
        modifyConn (fun c => set_readTimer c (Timer_drain (readTimer c))) ;;;
        ret {| rr_n := 0; rr_addr := None; rr_err := Some (readTimeoutError c);
               rr_buf := p |}
    | Some CaseCloseCh =>
        modifyConn (fun c => set_closed c true) ;;;
        ret {| rr_n := 0; rr_addr := None; rr_err := Some (closedError c); rr_buf := p |}
    end.

(** By the time of the call the run time has delivered the tick of a read
    timer that had expired; [Reset] does not take it back. *)
Definition SetReadDeadline (t : Time) : M (option error) :=
  w <- get ;;
  let d := if decide (t = noDeadline) then MaxInt64 else Until t (now w) in
  modifyConn (fun c =>
    set_readTimer c (Timer_Reset (Timer_expire (readTimer c) (now w)) d (now w))) ;;;
  ret None.

Definition SetDeadline (t : Time) : M (option error) := SetReadDeadline t.

Definition SetWriteDeadline (t : Time) : M (option error) := ret None.

Definition HandleInbound (d : bytes) (a : Addr) : M unit :=
  c <- getConn ;;
  if (length (readCh c) <? maxReadQueueSize)%nat then
    modifyConn (fun c => set_readCh c (readCh c ++ [{| data := d; from := a |}]))
  else logf LWarn "receive buffer full".

Definition FindAddrByChannelNumber (chNum : Z) : M (option Addr) :=
  found <- findByNumber chNum ;;
  match found with
  | None => ret None
  | Some b => withBinding b (fun x => ret (Some (addr x)))
  end.

Definition Close : M (option error) :=
  modifyConn (fun c => set_refreshTimers c (PeriodicTimer_Stop (refreshAllocTimer c))
                                           (PeriodicTimer_Stop (refreshPermsTimer c))) ;;;
  c <- getConn ;;
  if closeCh c then ret (Some (Errorf "already closed"))
  else
    modifyConn (fun c => set_closeCh c true) ;;;
    refreshAllocation 0 true ;;;
    onDeallocated (relayedAddr c) ;;;
    ret None.

(** The goroutine of the allocation-refresh timer: once the timer is due and
    still running, it calls the handler with the timer's identity and waits
    for one more period. *)
Definition fireRefreshAlloc : M unit :=
  w <- get ;;
  let t := refreshAllocTimer (conn w) in
  if pt_running t && (pt_due t <=? now w) then
    onRefreshTimers (pt_id t) ;;;
    modify (fun w' => set_conn w' (set_refreshTimers (conn w')
              (PeriodicTimer_rearm (refreshAllocTimer (conn w')) (now w'))
              (refreshPermsTimer (conn w'))))
  else ret tt.

(** The goroutine of the permission-refresh timer. *)
Definition fireRefreshPerms : M unit :=
  w <- get ;;
  let t := refreshPermsTimer (conn w) in
  if pt_running t && (pt_due t <=? now w) then
    onRefreshTimers (pt_id t) ;;;
    modify (fun w' => set_conn w' (set_refreshTimers (conn w')
              (refreshAllocTimer (conn w'))
              (PeriodicTimer_rearm (refreshPermsTimer (conn w')) (now w'))))
  else ret tt.

(** ** The endpoint as a state machine

    What can happen to an endpoint: a call of one of its operations, a timer
    firing, time passing. *)
Inductive Op :=
| OpWriteTo (p : bytes) (a : Addr)
| OpReadFrom (pick : SelectCase) (p : bytes)
| OpClose
| OpSetReadDeadline (t : Time)
| OpHandleInbound (d : bytes) (a : Addr)
| OpFireRefreshAlloc
| OpFireRefreshPerms
| OpAdvance (dt : Z).

#[global] Instance SelectCase_eq_dec : EqDecision SelectCase.
Proof. solve_decision. Defined.
#[global] Instance Op_eq_dec : EqDecision Op.
Proof. solve_decision. Defined.

Definition exec (op : Op) : M unit :=
  match op with
  | OpWriteTo p a => WriteTo p a ;;; ret tt
  | OpReadFrom pick p => ReadFrom pick p ;;; ret tt
  | OpClose => Close ;;; ret tt
  | OpSetReadDeadline t => SetReadDeadline t ;;; ret tt
  | OpHandleInbound d a => HandleInbound d a
  | OpFireRefreshAlloc => fireRefreshAlloc
  | OpFireRefreshPerms => fireRefreshPerms
  | OpAdvance dt => modify (fun w => set_now w (now w + Z.max 0 dt))
  end.

(** One step: the operation returns, or it blocks and leaves the caller
    waiting.  An operation that panics ends the program. *)
Definition step (op : Op) (w w' : World) : Prop :=
  match exec op w with
  | Done _ w1 => w' = w1
  | Blocked w1 => w' = w1
  | Panic _ _ => False
  end.

Inductive steps : World -> list Op -> World -> Prop :=
| steps_nil w : steps w [] w
| steps_cons w op w1 ops w2 : step op w w1 -> steps w1 ops w2 -> steps w (op :: ops) w2.

(** The worlds an endpoint constructed from [config] at instant [t0] can be in. *)
Definition reachable (config : UDPConnConfig) (w : World) : Prop :=
  exists t0 ops, steps (NewUDPConn config t0) ops w.

End Endpoint.

(** ** Concurrent callers

    A goroutine running an operation is a sequence of atomic steps, each an
    action of the monad above; between two steps other goroutines may run.
    The calls on the thread-safe trackers, the mutex operations and a whole
    exchange with the server are single steps. *)

Inductive Thread (A : Type) : Type :=
| TDone (a : A)
| TStep {X : Type} (act : M X) (k : X -> Thread A).
Arguments TDone {A} a.
Arguments TStep {A X} act k.

(** Running a goroutine alone, to its end. *)
Fixpoint run_thread {A} (t : Thread A) : M A :=
  match t with
  | TDone a => ret a
  | TStep act k => fun w =>
      match act w with
      | Done x w' => run_thread (k x) w'
      | Panic msg w' => Panic msg w'
      | Blocked w' => Blocked w'
      end
  end.

Inductive StepResult (A : Type) :=
| Stepped (t : Thread A) (w : World)
| Finished
| Waiting
| Crashed (msg : string) (w : World).
Arguments Stepped {A} t w.
Arguments Finished {A}.
Arguments Waiting {A}.
Arguments Crashed {A} msg w.

Definition step_thread {A} (t : Thread A) (w : World) : StepResult A :=
  match t with
  | TDone _ => Finished
  | TStep act k =>
      match act w with
      | Done x w' => Stepped (k x) w'
      | Panic msg w' => Crashed msg w'
      | Blocked _ => Waiting
      end
  end.

(** A schedule names, step after step, the goroutine that moves.  It is
    accepted only when every goroutine it names can move at that point. *)
Fixpoint run_schedule {A} (sched : list nat) (ts : list (Thread A)) (w : World)
  : option (list (Thread A) * World) :=
  match sched with
  | [] => Some (ts, w)
  | i :: rest =>
      match ts !! i with
      | None => None
      | Some t =>
          match step_thread t w with
          | Stepped t' w' => run_schedule rest (<[i := t']> ts) w'
          | _ => None
          end
      end
  end.

Definition result_of {A} (t : Thread A) : option A :=
  match t with
  | TDone a => Some a
  | TStep _ _ => None
  end.

Section EndpointThreads.

Variable lib : StunLib.
Variable obs : UDPConnObserver.

(** The send at the end of [WriteTo], from the lookup of the binding on. *)
Definition WriteTo_binding_thread (p : bytes) (a : Addr) : Thread (Z * option error) :=
  TStep (findByAddr a) (fun foundb =>
  let continue_ (b : ptr) : Thread (Z * option error) :=
    TStep (binding_state b) (fun st =>
    if decide (st <> bindingStateReady) then
      let send_ : Thread (Z * option error) :=
        match Build lib (sendIndicationSetters p a) with
        | inr e => TDone (0, Some e)
        | inl msg => TStep (transportWriteTo obs (Raw msg) (TURNServerAddr obs)) TDone
        end in
      TStep (binding_state b) (fun st' =>
      if decide (st' = bindingStateIdle) then
        TStep (binding_Lock b) (fun _ =>
        TStep (binding_state b) (fun st'' =>
        if decide (st'' = bindingStateIdle) then
          TStep (bind lib obs b) (fun err =>
          match err with
          | Some e =>
              TStep (logf LWarn ("bind() failed: " ++ Error e)) (fun _ =>
              TStep (binding_setState b bindingStateFailed) (fun _ =>
              TStep (binding_Unlock b) (fun _ => send_)))
          | None =>
              TStep (binding_setState b bindingStateReady) (fun _ =>
              TStep (binding_Unlock b) (fun _ => send_))
          end)
        else TStep (binding_Unlock b) (fun _ => send_)))
      else send_)
    else
      TStep (withBinding b (fun x => sendChannelData lib obs p (number x))) TDone) in
  match foundb with
  | Some b => continue_ b
  | None => TStep (create a) continue_
  end).

(** [WriteTo], step by step. *)
Definition WriteTo_thread (p : bytes) (a : Addr) : Thread (Z * option error) :=
  match a with
  | UDPAddr _ _ =>
      TStep (permMap_find a) (fun found =>
      let locked_ (perm : ptr) : Thread (Z * option error) :=
        TStep (perm_Lock perm) (fun _ =>
        TStep (perm_state perm) (fun st =>
        if decide (st = permStateIdle) then
          TStep (createPermissions lib obs [a]) (fun err =>
          match err with
          | Some e =>
              TStep (permMap_delete a) (fun _ =>
              TStep (perm_Unlock perm) (fun _ => TDone (0, Some e)))
          | None =>
              TStep (perm_setState perm permStatePermitted) (fun _ =>
              TStep (perm_Unlock perm) (fun _ => WriteTo_binding_thread p a))
          end)
        else TStep (perm_Unlock perm) (fun _ => WriteTo_binding_thread p a))) in
      match found with
      | Some q => locked_ q
      | None =>
          TStep newPermission (fun q =>
          TStep (permMap_insert a q) (fun _ => locked_ q))
      end)
  | _ => TDone (0, Some (Errorf "addr is not a net.UDPAddr"))
  end.

End EndpointThreads.

(** ** Reading the trace *)

(** A request of method [m] handed to the transaction runner. *)
Definition isRequest (m : Method) (e : Event) : bool :=
  match e with
  | EvPerformTransaction msg _ _ => bool_decide (Type_ msg = NewType m ClassRequest)
  | _ => false
  end.

Definition countRequests (m : Method) (tr : list Event) : nat :=
  length (List.filter (isRequest m) tr).

Definition countEvents (f : Event -> bool) (tr : list Event) : nat :=
  length (List.filter f tr).

Definition isOnDeallocated (e : Event) : bool :=
  match e with
  | EvOnDeallocated _ => true
  | _ => false
  end.

Definition isTransportWrite (e : Event) : bool :=
  match e with
  | EvWriteTo _ _ => true
  | _ => false
  end.

Definition isLog (level : LogLevel) (e : Event) : bool :=
  match e with
  | EvLog l _ => bool_decide (l = level)
  | _ => false
  end.

(** The state of the binding the manager holds for a peer address. *)
Definition bindingOf (w : World) (a : Addr) : option binding :=
  match addrMap (bindingMgr (conn w)) !! a with
  | Some b => binds w !! b
  | None => None
  end.

(** The state of the permission the map holds for a peer address. *)
Definition permissionOf (w : World) (a : Addr) : option permission :=
  match pm_find (permMap_ (conn w)) a with
  | Some q => perms w !! q
  | None => None
  end.

(** ** A concrete library and concrete observers, for the examples

    A plain framing: a STUN message is a header of twenty bytes followed by
    attributes with four bytes of header each; channel data is the channel
    number and the length on two bytes each, followed by the payload. *)

Module Sample.

Definition byte_of_Z (z : Z) : Byte.byte :=
  match Byte.of_N (Z.to_N (z mod 256)) with
  | Some b => b
  | None => Byte.x00
  end.

Definition be16 (z : Z) : bytes := [byte_of_Z (z / 256); byte_of_Z z].

Definition method_code (m : Method) : Z :=
  match m with
  | MethodRefresh => 0x004
  | MethodSend => 0x006
  | MethodCreatePermission => 0x008
  | MethodChannelBind => 0x009
  | MethodOther c => c
  end.

Definition class_code (c : MessageClass) : Z :=
  match c with
  | ClassRequest => 0x000
  | ClassIndication => 0x010
  | ClassSuccessResponse => 0x100
  | ClassErrorResponse => 0x110
  end.

Definition header (raw : bytes) : bytes :=
  (firstn 20 raw ++ repeat Byte.x00 (20 - length raw))%list.

Definition attr_code (s : Setter) : Z :=
  match s with
  | TransactionID => 0
  | SetType _ => 0
  | RequestedTransportUDP => 0x0019
  | Data _ => 0x0013
  | SetPeerAddress _ => 0x0012
  | Lifetime _ => 0x000D
  | ChannelNumber _ => 0x000C
  | SetUsername _ => 0x0006
  | SetRealm _ => 0x0014
  | SetNonce _ => 0x0015
  | SetIntegrity _ => 0x0008
  | Fingerprint => 0x8028
  end.

Definition attr_value (s : Setter) : bytes :=
  match s with
  | Data p => p
  | SetPeerAddress a => (be16 (PeerPort a) ++ PeerIP a)%list
  | Lifetime d => be16 (d / Second)
  | ChannelNumber n => be16 n
  | SetNonce n => n
  | SetIntegrity i => i
  | _ => []
  end.

Definition addAttr (s : Setter) (raw : bytes) : bytes + error :=
  match s with
  | TransactionID => inl (header raw ++ skipn 20 raw)%list
  | SetPeerAddress a =>
      if decide (length (PeerIP a) = 4%nat \/ length (PeerIP a) = 16%nat) then
        inl (header raw ++ skipn 20 raw ++ be16 (attr_code s)
               ++ be16 (Z.of_nat (length (attr_value s))) ++ attr_value s)%list
      else inr (Errorf "bad IP length")
  | _ =>
      inl (header raw ++ skipn 20 raw ++ be16 (attr_code s)
             ++ be16 (Z.of_nat (length (attr_value s))) ++ attr_value s)%list
  end.

Definition lib : StunLib := {|
  WriteType := fun t raw =>
    (be16 (method_code (TMethod t) + class_code (TClass t)) ++ skipn 2 (header raw)
       ++ skipn 20 raw)%list;
  AddAttr := addAttr;
  ErrorCode_GetFrom := fun m =>
    match Raw m with
    | [] => inr (Errorf "attribute not found")
    | _ => inl "403"
    end;
  Lifetime_GetFrom := fun m =>
    match Raw m with
    | [hi; lo] => inl ((Z.of_N (Byte.to_N hi) * 256 + Z.of_N (Byte.to_N lo)) * Second)
    | _ => inr (Errorf "attribute not found")
    end;
  MessageType_String := fun t =>
    match TClass t with
    | ClassRequest => "request"
    | ClassIndication => "indication"
    | ClassSuccessResponse => "success response"
    | ClassErrorResponse => "error response"
    end;
  ChannelData_Encode := fun p n => (be16 n ++ be16 (Z.of_nat (length p)) ++ p)%list;
|}.

Definition server : Addr := UDPAddr [Byte.x0a; Byte.x00; Byte.x00; Byte.x01] 3478.
Definition relayed : Addr := UDPAddr [Byte.x0a; Byte.x00; Byte.x00; Byte.x01] 50000.
Definition peerA : Addr := UDPAddr [Byte.xc0; Byte.xa8; Byte.x00; Byte.x02] 4000.
Definition peerB : Addr := UDPAddr [Byte.xc0; Byte.xa8; Byte.x00; Byte.x03] 4001.

Definition payload : bytes := [Byte.x68; Byte.x65; Byte.x6c; Byte.x6c; Byte.x6f].

(** A response of the given class to a request of the given method. *)
Definition response (m : Method) (c : MessageClass) (raw : bytes)
  : TransactionResult * option error :=
  ({| Msg := Some {| Type_ := NewType m c; Raw := raw |} |}, None).

(** The transaction layer gave up: no message, an error. *)
Definition transactionError : TransactionResult * option error :=
  ({| Msg := None |}, Some (Errorf "all retransmissions failed")).

(** An observer whose transport reports every byte it is handed as written
    and whose transaction runner answers by the method of the request. *)
Definition observer
  (onPerm onBind onRefresh : list Event -> TransactionResult * option error)
  : UDPConnObserver := {|
  TURNServerAddr := server;
  Username := "user";
  Realm := "pion.ly";
  obs_WriteTo := fun _ raw _ => (Z.of_nat (length raw), None);
  PerformTransaction := fun tr msg _ _ =>
    match TMethod (Type_ msg) with
    | MethodCreatePermission => onPerm tr
    | MethodChannelBind => onBind tr
    | MethodRefresh => onRefresh tr
    | _ => transactionError
    end;
|}.

Definition permOk (_ : list Event) := response MethodCreatePermission ClassSuccessResponse [].
Definition permRefused (_ : list Event) :=
  response MethodCreatePermission ClassErrorResponse [Byte.x04; Byte.x03].
Definition bindOk (_ : list Event) := response MethodChannelBind ClassSuccessResponse [].
Definition bindRefused (_ : list Event) :=
  response MethodChannelBind ClassErrorResponse [Byte.x04; Byte.x03].
Definition bindLost (_ : list Event) := transactionError.
Definition refreshOk (seconds : Z) (_ : list Event) :=
  response MethodRefresh ClassSuccessResponse (be16 seconds).

(** Every exchange succeeds; refreshes grant [seconds]. *)
Definition friendly (seconds : Z) : UDPConnObserver :=
  observer permOk bindOk (refreshOk seconds).

Definition config (seconds : Z) : UDPConnConfig := {|
  cfg_RelayedAddr := relayed;
  cfg_Integrity := [Byte.x01];
  cfg_Nonce := [Byte.x02];
  cfg_Lifetime := seconds * Second;
|}.

(** A fresh endpoint with a lifetime of 600 seconds. *)
Definition fresh_world : World := NewUDPConn (config 600) 1000.

(** The fresh endpoint with one datagram of five bytes from [peerA] queued. *)
Definition queued_world : World :=
  world_after (HandleInbound payload peerA fresh_world).

Definition datagram : inboundData := {| data := payload; from := peerA |}.

(** A buffer of two bytes. *)
Definition small_buffer : bytes := [Byte.x00; Byte.x00].

(** An observer whose channel binds are lost by the transaction layer. *)
Definition lossy : UDPConnObserver := observer permOk bindLost (refreshOk 600).

(** An observer whose server refuses every permission. *)
Definition refusing : UDPConnObserver := observer permRefused bindOk (refreshOk 600).

(** An observer whose server refuses every channel bind. *)
Definition unbinding : UDPConnObserver := observer permOk bindRefused (refreshOk 600).

(** An observer whose runner reports an error together with a success
    response to a channel bind. *)
Definition confused : UDPConnObserver :=
  observer permOk
    (fun _ => ({| Msg := Some {| Type_ := NewType MethodChannelBind ClassSuccessResponse;
                                 Raw := [] |} |},
               Some (Errorf "late response")))
    (refreshOk 600).

(** The fresh endpoint after a first write to [peerA], every exchange having
    succeeded: the binding of [peerA] is ready. *)
Definition bound_world : World :=
  world_after (WriteTo lib (friendly 600) payload peerA fresh_world).

Definition bound_binding : binding :=
  {| number := minChannelNumber; addr := peerA; b_st := bindingStateReady;
     b_mutex := false |}.

(** What happens to the bound endpoint next: a datagram comes in, the
    permission timer fires, the endpoint is closed. *)
Definition later_ops : list Op :=
  [OpHandleInbound payload peerB; OpAdvance (120 * Second); OpFireRefreshPerms; OpClose].

Fixpoint exec_all (l : StunLib) (o : UDPConnObserver) (ops : list Op) (w : World) : World :=
  match ops with
  | [] => w
  | op :: rest => exec_all l o rest (world_after (exec l o op w))
  end.

(** No operation of the list panics when they are run in turn from [w]. *)
Fixpoint runs_ok (l : StunLib) (o : UDPConnObserver) (ops : list Op) (w : World) : bool :=
  match ops with
  | [] => true
  | op :: rest =>
      match exec l o op w with
      | Panic _ _ => false
      | Done _ w' => runs_ok l o rest w'
      | Blocked w' => runs_ok l o rest w'
      end
  end.

Definition later_world : World := exec_all lib (friendly 600) later_ops bound_world.

(** The fresh endpoint after a close. *)
Definition closed_world : World := exec_all lib (friendly 600) [OpClose] fresh_world.

(** The teardown request: a refresh with lifetime zero. *)
Definition teardown : Message :=
  match Build lib (refreshSetters 0) with
  | inl m => m
  | inr _ => {| Type_ := NewType MethodRefresh ClassRequest; Raw := [] |}
  end.

(** The fresh endpoint 300 seconds later, when its allocation-refresh timer
    is due; the server will grant 300 seconds. *)
Definition due_world : World :=
  exec_all lib (friendly 300) [OpAdvance (300 * Second)] fresh_world.

Definition refresh_request : Message :=
  match Build lib (refreshSetters (600 * Second)) with
  | inl m => m
  | inr _ => {| Type_ := NewType MethodRefresh ClassRequest; Raw := [] |}
  end.

Definition refresh_response : Message :=
  {| Type_ := NewType MethodRefresh ClassSuccessResponse; Raw := be16 300 |}.

(** Two goroutines write to [peerA] on the fresh endpoint.  Each looks up the
    permission before the other has inserted one, and later each looks up the
    binding before the other has created one. *)
Definition racing_schedule : list nat :=
  ([0; 1] ++ repeat 0 7 ++ repeat 1 7 ++ [0; 1] ++ repeat 0 9 ++ repeat 1 9)%nat%list.

(** The same two goroutines, one after the other. *)
Definition serial_schedule : list nat := (repeat 0 18 ++ repeat 1 7)%nat%list.

Definition two_writers : list (Thread (Z * option error)) :=
  [WriteTo_thread lib (friendly 600) payload peerA;
   WriteTo_thread lib (friendly 600) payload peerA].

Definition results_of (r : option (list (Thread (Z * option error)) * World))
  : list (option (Z * option error)) :=
  match r with
  | Some (ts, _) => map result_of ts
  | None => []
  end.

Definition world_of (r : option (list (Thread (Z * option error)) * World)) : World :=
  match r with
  | Some (_, w) => w
  | None => fresh_world
  end.

Definition racing_run := run_schedule racing_schedule two_writers fresh_world.
Definition serial_run := run_schedule serial_schedule two_writers fresh_world.

End Sample.

(** ** Vocabulary of the statements *)

(** The endpoint as the [select] of [ReadFrom] sees it: the tick of an
    expired read timer has been delivered. *)
Definition at_select (w : World) : UDPConn :=
  set_readTimer (conn w) (Timer_expire (readTimer (conn w)) (now w)).

(** A call of [ReadFrom] on [w] in which the [select] takes a datagram from
    the read queue. *)
Definition dequeues (pick : SelectCase) (w : World) (ib : inboundData) : Prop :=
  closed (conn w) = false /\
  select pick (at_select w) = Some CaseReadCh /\
  head (readCh (conn w)) = Some ib.

(** The read timer has not expired, and no tick of it waits in its channel. *)
Definition no_tick_pending (w : World) : Prop :=
  t_C (readTimer (at_select w)) = false.

(** What holds of the trackers whenever no operation is under way: every
    permission in the map is permitted and unlocked; every binding the
    manager knows by address exists, is unlocked, carries that address, which
    is a UDP address, and has a permission. *)
Record Inv (w : World) : Prop := {
  inv_perm : forall a q,
    permMap (permMap_ (conn w)) !! a = Some q ->
    perms w !! q = Some {| p_st := permStatePermitted; p_mutex := false |};
  inv_bind : forall a b,
    addrMap (bindingMgr (conn w)) !! a = Some b ->
    exists x, binds w !! b = Some x /\ addr x = a /\ b_mutex x = false;
  inv_bind_perm : forall a b,
    addrMap (bindingMgr (conn w)) !! a = Some b ->
    is_Some (permMap (permMap_ (conn w)) !! a) /\ exists ip port, a = UDPAddr ip port;
}.

(** The bindings that are ready in [w] are the same, and ready, in [w']. *)
Definition ready_kept (w w' : World) : Prop :=
  forall a x, bindingOf w a = Some x -> b_st x = bindingStateReady ->
              bindingOf w' a = Some x.

(** The teardown of the allocation as seen in the trace: the notification of
    the owner, and an exchange for which no response is awaited. *)
Definition isTeardownExchange (e : Event) : bool :=
  match e with
  | EvPerformTransaction _ _ dontWait => dontWait
  | _ => false
  end.

Definition calm (e : Event) : Prop :=
  isOnDeallocated e = false /\ isTeardownExchange e = false.

(** Nothing of a teardown has happened between [w] and [w']: the close
    channel and the relayed address are as they were, and the trace has grown
    by events that are no part of a teardown. *)
Definition no_teardown (w w' : World) : Prop :=
  closeCh (conn w') = closeCh (conn w) /\
  relayedAddr (conn w') = relayedAddr (conn w) /\
  exists evs, trace w' = (trace w ++ evs)%list /\ Forall calm evs.

(** The trackers and the heaps are the same in [w] and [w']. *)
Definition trackers_same (w w' : World) : Prop :=
  permMap_ (conn w') = permMap_ (conn w) /\
  bindingMgr (conn w') = bindingMgr (conn w) /\
  perms w' = perms w /\ binds w' = binds w.

(** The period and the identity of the allocation-refresh timer are the
    same in [w] and [w']. *)
Definition period_kept (w w' : World) : Prop :=
  pt_interval (refreshAllocTimer (conn w')) = pt_interval (refreshAllocTimer (conn w)) /\
  pt_id (refreshAllocTimer (conn w')) = pt_id (refreshAllocTimer (conn w)).

(** Whatever its outcome, the operation leaves a world related to the one it
    started in. *)
Definition respects {A} (R : World -> World -> Prop) (m : M A) : Prop :=
  forall w, R w (world_after (m w)).

(** A setter other than the one of the message type. *)
Definition keepsType (s : Setter) : Prop := forall t, s <> SetType t.

Definition idlePermission : permission := {| p_st := permStateIdle; p_mutex := false |}.
Definition grantedPermission : permission :=
  {| p_st := permStatePermitted; p_mutex := false |}.

(** Read back what was just written to a heap or a map. *)
Ltac heap_simpl := repeat (progress (simpl; rewrite ?lookup_insert_eq)).

(** The binding [create] registers for [a], and the world it leaves. *)
Definition newBinding (w : World) (a : Addr) : binding :=
  {| number := assignChannelNumber (bindingMgr (conn w)); addr := a;
     b_st := bindingStateIdle; b_mutex := false |}.

(** The trace of [w'] continues the trace of [w]. *)
Definition trace_extends (w w' : World) : Prop :=
  exists evs, trace w' = (trace w ++ evs)%list.

(** The record of the teardown in a world: nothing before the close channel
    is closed, one exchange and one notification after. *)
Definition teardown_recorded (config : UDPConnConfig) (w : World) : Prop :=
  relayedAddr (conn w) = cfg_RelayedAddr config /\
  countEvents isTeardownExchange (trace w) = (if closeCh (conn w) then 1%nat else 0%nat) /\
  countEvents isOnDeallocated (trace w) = (if closeCh (conn w) then 1%nat else 0%nat).

(** Two outcomes agree: the same result in the same world, a panic on both
    sides, or both blocked.  What a panic leaves behind is not compared: the
    panic ends the program. *)
Definition same_outcome {A} (o1 o2 : Outcome A) : Prop :=
  match o1, o2 with
  | Done a w, Done a' w' => a = a' /\ w = w'
  | Panic _ _, Panic _ _ => True
  | Blocked _, Blocked _ => True
  | _, _ => False
  end.

(** The operation returns [a]; the operation panics with [msg]. *)
Definition returns {A} (o : Outcome A) (a : A) : Prop :=
  match o with
  | Done a' _ => a' = a
  | _ => False
  end.

Definition panics {A} (o : Outcome A) (msg : string) : Prop :=
  match o with
  | Panic msg' _ => msg' = msg
  | _ => False
  end.

(** ** The server example of the same file

    [package main]: a TURN server whose listening socket is wrapped in
    [stunLogger], which prints the STUN messages that pass. *)

Module TurnServer.

(** What the wrapper needs of the STUN library: [stun.IsMessage], the
    decoding of a message from its raw bytes, and [Message.String]. *)
Record StunCodec := {
  IsMessage : bytes -> bool;
  Decode : bytes -> Message + error;
  Message_String : Message -> string;
}.

Definition newline : string := String (Ascii.ascii_of_nat 10) EmptyString.

(** The embedded [net.PacketConn], as far as one call sees it: the results of
    its [WriteTo], and the results of its [ReadFrom] with the buffer as the
    call left it. *)
Record PacketConn := {
  pc_WriteTo : bytes -> Addr -> Z * option error;
  pc_ReadFrom : bytes -> ReadResult;
}.

(** What a call of the wrapper does: the results it returns and the lines it
    prints on the standard output. *)
Record Logged (A : Type) := { results : A; printed : list string }.
Arguments results {A} l.
Arguments printed {A} l.

Definition stunLogger_WriteTo (codec : StunCodec) (s : PacketConn) (p : bytes) (a : Addr)
  : Logged (Z * option error) :=
  let r := pc_WriteTo s p a in
  match r.2 with
  | None =>
      if IsMessage codec p then
        match Decode codec p with
        | inr e => {| results := (r.1, Some e); printed := [] |}
        | inl msg =>
            {| results := (r.1, None);
               printed := ["Outbound STUN: " ++ Message_String codec msg ++ " " ++ newline] |}
        end
      else {| results := r; printed := [] |}
  | Some _ => {| results := r; printed := [] |}
  end.

(** The message is decoded from the whole of the caller's buffer, as the
    embedded [ReadFrom] left it. *)
Definition stunLogger_ReadFrom (codec : StunCodec) (s : PacketConn) (p : bytes)
  : Logged ReadResult :=
  let r := pc_ReadFrom s p in
  match rr_err r with
  | None =>
      if IsMessage codec (rr_buf r) then
        match Decode codec (rr_buf r) with
        | inr e =>
            {| results := {| rr_n := rr_n r; rr_addr := rr_addr r; rr_err := Some e;
                             rr_buf := rr_buf r |};
               printed := [] |}
        | inl msg =>
            {| results := r;
               printed := ["Inbound STUN: " ++ Message_String codec msg ++ " " ++ newline] |}
        end
      else {| results := r; printed := [] |}
  | Some _ => {| results := r; printed := [] |}
  end.

(** The flags of [main]. *)
Record Flags := {
  publicIP : string;
  users : string;
  authSecret : string;
  realm : string;
  port : Z;
  minPort : Z;
  maxPort : Z;
}.

(** The checks [main] makes after [flag.Parse]: the message of the
    [log.Fatalf] that ends the program, if any. *)
Definition checkFlags (f : Flags) : option string :=
  if (minPort f <=? 0) || (maxPort f <=? 0) || (maxPort f <? minPort f)
  then Some "UDP range: bad range"
  else if (String.length (publicIP f) =? 0)%nat then Some "'public-ip' is required"
  else if (String.length (users f) =? 0)%nat && (String.length (authSecret f) =? 0)%nat
  then Some "'users' or 'authSecret' is required"
  else None.

(** The conversion [uint16(x)] of an [int]. *)
Definition uint16 (x : Z) : Z := x mod 65536.

(** [MinPort] and [MaxPort] of the relay address generator. *)
Definition MinPort (f : Flags) : Z := uint16 (minPort f).
Definition MaxPort (f : Flags) : Z := uint16 (maxPort f).

End TurnServer.

(** ** More vocabulary *)

(** [HandleInbound] for each datagram of [ds] in turn. *)
Fixpoint HandleInbound_all (ds : list inboundData) : M unit :=
  match ds with
  | [] => ret tt
  | d :: rest => HandleInbound (data d) (from d) ;;; HandleInbound_all rest
  end.

(** One [ReadFrom] for each choice of the scheduler in [picks], each into the
    buffer as the call before left it. *)
Fixpoint ReadFrom_all (picks : list SelectCase) (p : bytes) : M (list ReadResult) :=
  match picks with
  | [] => ret []
  | pick :: rest =>
      r <- ReadFrom pick p ;;
      rs <- ReadFrom_all rest (rr_buf r) ;;
      ret (r :: rs)
  end.

(** What a read hands back for a datagram that fits the buffer. *)
Definition delivery (p : bytes) (d : inboundData) : ReadResult :=
  {| rr_n := Z.of_nat (length (data d)); rr_addr := Some (from d); rr_err := None;
     rr_buf := (data d ++ skipn (length (data d)) p)%list |}.

Fixpoint deliveries (p : bytes) (ds : list inboundData) : list ReadResult :=
  match ds with
  | [] => []
  | d :: rest => delivery p d :: deliveries (rr_buf (delivery p d)) rest
  end.

(** The read queue of [w'] is the one of [w]. *)
Definition queue_kept (w w' : World) : Prop := readCh (conn w') = readCh (conn w).

(** Closing is for good: the relayed address stays, and the close channel and
    the closed flag stay set once they are. *)
Definition close_kept (w w' : World) : Prop :=
  relayedAddr (conn w') = relayedAddr (conn w) /\
  (closeCh (conn w) = true -> closeCh (conn w') = true) /\
  (closed (conn w) = true -> closed (conn w') = true).

Definition lifetime_kept (w w' : World) : Prop :=
  lifetime (conn w') = lifetime (conn w).

(** The close channel and the running state of both refresh timers are the
    same in [w] and [w']. *)
Definition running_kept (w w' : World) : Prop :=
  closeCh (conn w') = closeCh (conn w) /\
  pt_running (refreshAllocTimer (conn w')) = pt_running (refreshAllocTimer (conn w)) /\
  pt_running (refreshPermsTimer (conn w')) = pt_running (refreshPermsTimer (conn w)).

(** Both refresh timers have in [w'] the identity they have in [w]. *)
Definition ids_kept (w w' : World) : Prop :=
  pt_id (refreshAllocTimer (conn w')) = pt_id (refreshAllocTimer (conn w)) /\
  pt_id (refreshPermsTimer (conn w')) = pt_id (refreshPermsTimer (conn w)).

(** The period of the permission-refresh timer is the same in [w] and [w']. *)
Definition perms_period_kept (w w' : World) : Prop :=
  pt_interval (refreshPermsTimer (conn w')) = pt_interval (refreshPermsTimer (conn w)).

(** The clock and both refresh timers are the same in [w] and [w']. *)
Definition timers_same (w w' : World) : Prop :=
  now w' = now w /\
  refreshAllocTimer (conn w') = refreshAllocTimer (conn w) /\
  refreshPermsTimer (conn w') = refreshPermsTimer (conn w).

(** Once the close channel is closed both refresh timers are stopped. *)
Definition stopped (w : World) : Prop :=
  closeCh (conn w) = true ->
  pt_running (refreshAllocTimer (conn w)) = false /\
  pt_running (refreshPermsTimer (conn w)) = false.

(** The permission map and the permissions are the same in [w] and [w']. *)
Definition permissions_same (w w' : World) : Prop :=
  permMap_ (conn w') = permMap_ (conn w) /\ perms w' = perms w.


(** The bindings that have failed in [w] are the same, and failed, in [w']. *)
Definition failed_kept (w w' : World) : Prop :=
  forall a x, bindingOf w a = Some x -> b_st x = bindingStateFailed ->
              bindingOf w' a = Some x.

(** Nothing has been handed to the transport between [w] and [w']. *)
Definition nothing_sent (w w' : World) : Prop :=
  countEvents isTransportWrite (trace w') = countEvents isTransportWrite (trace w).

(** No binding the manager knows is left idle. *)
Definition settled (w : World) : Prop :=
  forall a x, bindingOf w a = Some x -> b_st x <> bindingStateIdle.

(** The two tables of the binding manager agree: the binding a channel
    number leads to carries that number, and its address leads back to it. *)
Definition tables_agree (w : World) : Prop :=
  forall n b, chanMap (bindingMgr (conn w)) !! n = Some b ->
    exists x, binds w !! b = Some x /\ number x = n /\
              addrMap (bindingMgr (conn w)) !! addr x = Some b.

(** The part of the endpoint that serves reading and closing. *)
Record ReadSide := {
  rs_readCh : list inboundData;
  rs_closeCh : bool;
  rs_closed : bool;
  rs_readTimer : Timer;
}.

Definition read_side (c : UDPConn) : ReadSide :=
  {| rs_readCh := readCh c; rs_closeCh := closeCh c; rs_closed := closed c;
     rs_readTimer := readTimer c |}.

Definition set_read_side (c : UDPConn) (s : ReadSide) : UDPConn :=
  {| relayedAddr := relayedAddr c; permMap_ := permMap_ c; bindingMgr := bindingMgr c;
     integrity := integrity c; nonce := nonce c; lifetime := lifetime c;
     readCh := rs_readCh s; closeCh := rs_closeCh s; closed := rs_closed s;
     readTimer := rs_readTimer s; refreshAllocTimer := refreshAllocTimer c;
     refreshPermsTimer := refreshPermsTimer c |}.

(** A change [g] of the read side, which may look at the clock. *)
Definition on_read_side (g : Z -> ReadSide -> ReadSide) (w : World) : World :=
  set_conn w (set_read_side (conn w) (g (now w) (read_side (conn w)))).

(** The operation neither reads nor writes what [f] changes: run after [f] it
    has the outcome it has before, in the world changed by [f]. *)
Definition commutes {A} (f : World -> World) (m : M A) : Prop :=
  forall w, m (f w) = graft (m w) f.

(** The read side as [SetReadDeadline t] leaves it. *)
Definition deadline_set (t : Time) (t0 : Z) (s : ReadSide) : ReadSide :=
  {| rs_readCh := rs_readCh s; rs_closeCh := rs_closeCh s; rs_closed := rs_closed s;
     rs_readTimer :=
       Timer_Reset (Timer_expire (rs_readTimer s) t0)
         (if decide (t = noDeadline) then MaxInt64 else Until t t0) t0 |}.

(** The read side of an endpoint that has been closed and has told a reader. *)
Definition shut (t0 : Z) (s : ReadSide) : ReadSide :=
  {| rs_readCh := rs_readCh s; rs_closeCh := true; rs_closed := true;
     rs_readTimer := rs_readTimer s |}.

(** ** More concrete scenes, for the examples *)

Module Scenes.

(** An observer whose server answers a create-permission request with the
    success response of a channel bind. *)
Definition misanswering : UDPConnObserver :=
  Sample.observer (fun _ => Sample.response MethodChannelBind ClassSuccessResponse [])
    Sample.bindOk (Sample.refreshOk 600).

(** An observer whose refreshes are lost by the transaction layer. *)
Definition deaf : UDPConnObserver :=
  Sample.observer Sample.permOk Sample.bindOk (fun _ => Sample.transactionError).

(** The fresh endpoint 300 seconds later, served by [deaf]. *)
Definition due_world : World :=
  Sample.exec_all Sample.lib deaf [OpAdvance (300 * Second)] Sample.fresh_world.

(** The create-permission request for [peerA] alone. *)
Definition permission_request : Message :=
  match Build Sample.lib
          (createPermissionSetters (Sample.friendly 600) (conn Sample.fresh_world)
             [Sample.peerA]) with
  | inl m => m
  | inr _ => {| Type_ := NewType MethodCreatePermission ClassRequest; Raw := [] |}
  end.



(** The closed endpoint after a reader has been told so. *)
Definition told_world : World :=
  world_after (ReadFrom CaseReadCh [] Sample.closed_world).

(** The closed endpoint ten minutes later, when both refresh timers would
    be due. *)
Definition closed_later_world : World :=
  Sample.exec_all Sample.lib (Sample.friendly 600) [OpClose; OpAdvance (600 * Second)]
    Sample.fresh_world.

(** The fresh endpoint with its read queue full. *)
Definition full_world : World :=
  Sample.exec_all Sample.lib (Sample.friendly 600)
    (repeat (OpHandleInbound [] Sample.peerB) maxReadQueueSize) Sample.fresh_world.

Definition two_datagrams : list inboundData :=
  [Sample.datagram; {| data := [Byte.x01]; from := Sample.peerB |}].

(** A decoder that takes twenty bytes or more for a STUN message and
    decodes none. *)
Definition strict_codec : TurnServer.StunCodec := {|
  TurnServer.IsMessage := fun p => (20 <=? length p)%nat;
  TurnServer.Decode := fun _ => inr (Errorf "unexpected EOF");
  TurnServer.Message_String := fun _ => "";
|}.

(** A socket that sends every byte and receives twenty zero bytes from
    [peerA]. *)
Definition socket : TurnServer.PacketConn := {|
  TurnServer.pc_WriteTo := fun p _ => (Z.of_nat (length p), None);
  TurnServer.pc_ReadFrom := fun _ =>
    {| rr_n := 20; rr_addr := Some Sample.peerA; rr_err := None;
       rr_buf := repeat Byte.x00 20 |};
|}.

(** The flags of the example with their default ports. *)
Definition flags : TurnServer.Flags := {|
  TurnServer.publicIP := "192.0.2.1";
  TurnServer.users := "user=pass";
  TurnServer.authSecret := "";
  TurnServer.realm := "pion.ly";
  TurnServer.port := 3478;
  TurnServer.minPort := 50000;
  TurnServer.maxPort := 55000;
|}.

End Scenes.

(* END OF DEFINITIONS *)

(** * Properties *)

Lemma returns_world_after {A} (o : Outcome A) a :
  returns o a -> o = Done a (world_after o).
Proof. destruct o; simpl; [intros <-; reflexivity | contradiction | contradiction]. Qed.

Lemma panics_world_after {A} (o : Outcome A) msg :
  panics o msg -> o = Panic msg (world_after o).
Proof. destruct o; simpl; [contradiction | intros <-; reflexivity | contradiction]. Qed.

(** Settle a concrete run by evaluation: of the result for the equation of
    the outcome, of both sides for the rest. *)
Ltac run_compute :=
  repeat match goal with |- _ /\ _ => split end;
  first [ apply returns_world_after; vm_compute; reflexivity
        | apply panics_world_after; vm_compute; reflexivity
        | vm_compute; reflexivity ].

(** ** Reading *)

Lemma copy_short (p d : bytes) :
  (length p < length d)%nat ->
  copy p d = (length p, firstn (length p) d).
Proof.
  intros Hlt. unfold copy.
  replace (Nat.min (length p) (length d)) with (length p) by lia.
  rewrite skipn_all, app_nil_r. reflexivity.
Qed.

Lemma ReadFrom_dequeue pick p w ib :
  dequeues pick w ib ->
  ReadFrom pick p w =
    let r := copy p (data ib) in
    let w' := set_conn w (set_readCh (at_select w) (tail (readCh (conn w)))) in
    if (r.1 <? length (data ib))%nat then
      Done {| rr_n := 0; rr_addr := None; rr_err := Some ErrShortBuffer; rr_buf := r.2 |} w'
    else
      Done {| rr_n := Z.of_nat r.1; rr_addr := Some (from ib); rr_err := None;
              rr_buf := r.2 |} w'.
Proof.
  intros (Hopen & Hsel & Hhd).
  unfold ReadFrom, bindM, getConn, get, modifyConn, modify, ret. simpl.
  rewrite Hopen. fold (at_select w). rewrite Hsel.
  destruct (readCh (conn w)) as [|x rest] eqn:Hq; [discriminate|].
  simpl in Hhd. injection Hhd as ->. simpl.
  destruct (_ <? _)%nat; reflexivity.
Qed.

(** C4. A call of [ReadFrom(p)] that takes from the read queue a datagram
    longer than [p] returns [(0, nil, io.ErrShortBuffer)]: an error, with no
    byte count and no sender address, so the truncated datagram is not
    reported as a successful read. *)
Theorem ReadFrom_short_buffer pick p w ib :
  dequeues pick w ib ->
  (length p < length (data ib))%nat ->
  exists r w',
    ReadFrom pick p w = Done r w' /\
    rr_n r = 0 /\ rr_addr r = None /\ rr_err r = Some ErrShortBuffer.
Proof.
  intros Hdq Hlt. rewrite (ReadFrom_dequeue _ _ _ _ Hdq).
  rewrite (copy_short _ _ Hlt). simpl.
  apply Nat.ltb_lt in Hlt. rewrite Hlt.
  eexists _, _. repeat split; reflexivity.
Qed.

(** C5. When [ReadFrom(p)] fails with the short-buffer error, the datagram
    has already left the read queue (the queue is its tail afterwards, the
    datagram is not put back), and the caller's buffer already holds the
    first [len(p)] bytes of the datagram, although the count returned is 0. *)
Theorem ReadFrom_short_buffer_not_atomic pick p w ib :
  dequeues pick w ib ->
  (length p < length (data ib))%nat ->
  exists r w',
    ReadFrom pick p w = Done r w' /\
    rr_err r = Some ErrShortBuffer /\
    rr_n r = 0 /\
    rr_buf r = firstn (length p) (data ib) /\
    readCh (conn w') = tail (readCh (conn w)) /\
    (length (readCh (conn w')) < length (readCh (conn w)))%nat.
Proof.
  intros Hdq Hlt. rewrite (ReadFrom_dequeue _ _ _ _ Hdq).
  rewrite (copy_short _ _ Hlt). simpl.
  apply Nat.ltb_lt in Hlt. rewrite Hlt.
  eexists _, _. repeat split; try reflexivity.
  destruct Hdq as (_ & _ & Hhd). simpl.
  destruct (readCh (conn w)); [discriminate | simpl; lia].
Qed.

Lemma ReadFrom_short_buffer_witness :
  exists r w',
    ReadFrom CaseReadCh Sample.small_buffer Sample.queued_world = Done r w' /\
    rr_n r = 0 /\ rr_addr r = None /\ rr_err r = Some ErrShortBuffer.
Proof.
  apply (ReadFrom_short_buffer CaseReadCh Sample.small_buffer Sample.queued_world
           Sample.datagram).
  - repeat split; reflexivity.
  - simpl. lia.
Defined.

Lemma ReadFrom_short_buffer_not_atomic_witness :
  exists r w',
    ReadFrom CaseReadCh Sample.small_buffer Sample.queued_world = Done r w' /\
    rr_err r = Some ErrShortBuffer /\
    rr_n r = 0 /\
    rr_buf r = [Byte.x68; Byte.x65] /\
    readCh (conn w') = [] /\
    (length (readCh (conn w')) < 1)%nat.
Proof.
  apply (ReadFrom_short_buffer_not_atomic CaseReadCh Sample.small_buffer
           Sample.queued_world Sample.datagram).
  - repeat split; reflexivity.
  - simpl. lia.
Defined.

(** ** Read deadlines *)

Lemma Timeout_readTimeoutError c : Timeout (readTimeoutError c) = true.
Proof. reflexivity. Qed.

Lemma Timeout_closedError c : Timeout (closedError c) = false.
Proof. reflexivity. Qed.

Lemma timer_when_past d t : d <= 0 -> timer_when d t = t.
Proof. intros H. unfold timer_when. destruct (Z.leb_spec d 0); [reflexivity | lia]. Qed.

Lemma timer_when_max t : 0 <= t -> timer_when MaxInt64 t = MaxInt64.
Proof.
  intros H. unfold timer_when. simpl.
  destruct (Z.ltb_spec MaxInt64 (t + MaxInt64)); lia.
Qed.

Lemma Until_past t t0 : t <= t0 -> Until t t0 <= 0.
Proof. intros H. unfold Until, MinInt64, MaxInt64. lia. Qed.

(** With nothing queued and the endpoint open, the only case of the [select]
    that can proceed once the timer has ticked is the timer case. *)
Lemma select_only_timer pick c :
  readCh c = [] -> closeCh c = false -> t_C (readTimer c) = true ->
  select pick c = Some CaseReadTimer.
Proof.
  intros Hq Hc Ht. unfold select.
  destruct pick; simpl; rewrite ?Hq, ?Hc, ?Ht; reflexivity.
Qed.

Lemma select_not_timer pick c s :
  t_C (readTimer c) = false -> select pick c = Some s -> s <> CaseReadTimer.
Proof.
  intros Ht Hs ->. unfold select in Hs.
  destruct (ready c pick) eqn:Hr.
  - injection Hs as ->. simpl in Hr. congruence.
  - simpl in Hs. rewrite Ht in Hs.
    destruct (readCh c); [|discriminate].
    destruct (closeCh c); discriminate.
Qed.

Lemma ReadFrom_unfold pick p w :
  ReadFrom pick p w =
    if closed (conn w) then
      Done {| rr_n := 0; rr_addr := None; rr_err := Some (closedError (conn w));
              rr_buf := p |} w
    else
      let c := at_select w in
      match select pick c with
      | None => Blocked (set_conn w c)
      | Some CaseReadCh =>
          match readCh c with
          | [] => Blocked (set_conn w c)
          | ibData :: rest =>
              let r := copy p (data ibData) in
              if (r.1 <? length (data ibData))%nat then
                Done {| rr_n := 0; rr_addr := None; rr_err := Some ErrShortBuffer;
                        rr_buf := r.2 |} (set_conn w (set_readCh c rest))
              else
                Done {| rr_n := Z.of_nat r.1; rr_addr := Some (from ibData);
                        rr_err := None; rr_buf := r.2 |} (set_conn w (set_readCh c rest))
          end
      | Some CaseReadTimer =>
          Done {| rr_n := 0; rr_addr := None; rr_err := Some (readTimeoutError c);
                  rr_buf := p |}
               (set_conn w (set_readTimer c (Timer_drain (readTimer c))))
      | Some CaseCloseCh =>
          Done {| rr_n := 0; rr_addr := None; rr_err := Some (closedError c);
                  rr_buf := p |} (set_conn w (set_closed c true))
      end.
Proof.
  unfold ReadFrom, bindM, getConn, get, modifyConn, modify, ret. simpl.
  destruct (closed (conn w)); [reflexivity|].
  fold (at_select w).
  destruct (select pick (at_select w)) as [[]|]; try reflexivity.
  simpl. destruct (readCh (conn w)); [reflexivity|].
  simpl. destruct (_ <? _)%nat; reflexivity.
Qed.

Lemma SetReadDeadline_unfold t w :
  SetReadDeadline t w =
    Done None
      (set_conn w (set_readTimer (conn w)
         (Timer_Reset (readTimer (at_select w))
            (if decide (t = noDeadline) then MaxInt64 else Until t (now w)) (now w)))).
Proof. reflexivity. Qed.

(** The claim C8 fails as stated: with a datagram queued, a read that follows
    a deadline set in the past may take the datagram and succeed. *)
Lemma past_deadline_read_may_deliver :
  exists w1 r w2,
    (500 < now Sample.queued_world /\ 500 <> noDeadline) /\
    SetReadDeadline 500 Sample.queued_world = Done None w1 /\
    ReadFrom CaseReadCh (repeat Byte.x00 8) w1 = Done r w2 /\
    rr_err r = None /\ rr_n r = 5 /\ rr_addr r = Some Sample.peerA.
Proof.
  exists (world_after (SetReadDeadline 500 Sample.queued_world)).
  exists {| rr_n := 5; rr_addr := Some Sample.peerA; rr_err := None;
            rr_buf := Sample.payload ++ repeat Byte.x00 3 |}.
  eexists. split; [split; [vm_compute; reflexivity | discriminate]|].
  run_compute.
Qed.

(** C8, amended.  On an endpoint that is open and has no datagram queued, a
    read deadline in the past (other than the zero time) makes the next
    [ReadFrom] return at once with an error whose [Timeout()] is true, which
    tells it from the closed and the short-buffer errors.  After the zero
    deadline has been set while no expiry of the read timer was pending,
    [ReadFrom] does not time out, at whatever later instant it runs. *)
Theorem read_deadline_amended :
  (forall w t pick p,
      t <> noDeadline -> t <= now w ->
      closed (conn w) = false -> closeCh (conn w) = false -> readCh (conn w) = [] ->
      exists w1 w2 e,
        SetReadDeadline t w = Done None w1 /\
        ReadFrom pick p w1 =
          Done {| rr_n := 0; rr_addr := None; rr_err := Some e; rr_buf := p |} w2 /\
        Timeout e = true /\
        Timeout ErrShortBuffer = false /\ Timeout (closedError (conn w)) = false) /\
  (forall w pick p t',
      no_tick_pending w -> 0 <= now w -> now w <= t' -> t' < MaxInt64 ->
      exists w1,
        SetReadDeadline noDeadline w = Done None w1 /\
        forall r w2 e,
          ReadFrom pick p (set_now w1 t') = Done r w2 ->
          rr_err r = Some e -> Timeout e = false).
Proof.
  split.
  - intros w t pick p Hnz Hpast Hopen Hch Hq.
    rewrite SetReadDeadline_unfold.
    destruct (decide (t = noDeadline)) as [|_]; [contradiction|].
    eexists _, _, _. split; [reflexivity|].
    rewrite ReadFrom_unfold. simpl. rewrite Hopen.
    rewrite select_only_timer; [repeat split | assumption | assumption |].
    unfold at_select. simpl. unfold Timer_Reset, Timer_expire at 1. simpl.
    rewrite (timer_when_past _ _ (Until_past _ _ Hpast)), Z.leb_refl. reflexivity.
  - intros w pick p t' Hno H0 Hle Hlt.
    rewrite SetReadDeadline_unfold.
    eexists. split; [reflexivity|].
    intros r w2 e. rewrite ReadFrom_unfold. simpl.
    destruct (closed (conn w)) eqn:Hcl.
    + intros [= <- <-] [= <-]. reflexivity.
    + destruct (decide (noDeadline = noDeadline)) as [_|]; [|contradiction].
      match goal with |- context [select pick ?c] =>
        assert (Ht : t_C (readTimer c) = false);
        [| destruct (select pick c) as [s|] eqn:Hsel;
           [pose proof (select_not_timer pick c s Ht Hsel) as Hs|] ] end.
      * unfold at_select at 1. simpl. unfold Timer_Reset, Timer_expire at 1. simpl.
        rewrite (timer_when_max _ H0).
        destruct (Z.leb_spec MaxInt64 t') as [Hbad|_]; [lia|]. exact Hno.
      * destruct s; [|contradiction|].
        -- match goal with |- context [readCh ?c] => destruct (readCh c) end;
             [discriminate|].
           simpl. destruct (_ <? _)%nat; intros [= <- <-] [= <-]; reflexivity.
        -- intros [= <- <-] [= <-]. reflexivity.
      * discriminate.
Qed.

(** ** The write path *)

Local Open Scope list_scope.

Lemma set_trace_id w : set_trace w (trace w) = w.
Proof. destruct w; reflexivity. Qed.

Lemma set_perms_id w : set_perms w (perms w) = w.
Proof. destruct w; reflexivity. Qed.

Lemma set_permMap_id c : set_permMap c (permMap_ c) = c.
Proof. destruct c; reflexivity. Qed.

Lemma set_conn_id w : set_conn w (conn w) = w.
Proof. destruct w; reflexivity. Qed.

Lemma permissionMap_eta m : {| permMap := permMap m |} = m.
Proof. destruct m; reflexivity. Qed.

Section WritePath.

Variable lib : StunLib.
Variable obs : UDPConnObserver.

(** *** Messages built by the endpoint carry the type they were given *)

Lemma Build_from_keeps_type setters : forall m m',
  Forall keepsType setters ->
  Build_from lib setters m = inl m' -> Type_ m' = Type_ m.
Proof.
  induction setters as [|s rest IH]; intros m m' Hall Hb; simpl in Hb.
  - congruence.
  - inversion Hall as [|? ? Hs Hrest]; subst.
    destruct (AddTo lib s m) as [m1|e] eqn:Hadd; [|discriminate].
    rewrite (IH _ _ Hrest Hb).
    unfold AddTo in Hadd.
    destruct s; try (destruct (AddAttr lib _ (Raw m)); [injection Hadd as <-; reflexivity | discriminate]).
    exfalso. eapply Hs. reflexivity.
Qed.

Lemma Build_type t rest msg :
  Forall keepsType rest ->
  Build lib (TransactionID :: SetType t :: rest) = inl msg ->
  Type_ msg = t.
Proof.
  intros Hall Hb. unfold Build in Hb. simpl in Hb.
  destruct (AddAttr lib TransactionID []) as [r|e]; [|discriminate].
  simpl in Hb. rewrite (Build_from_keeps_type _ _ _ Hall Hb). reflexivity.
Qed.

Lemma createPermissions_msg_type c addrs msg :
  Build lib (createPermissionSetters obs c addrs) = inl msg ->
  Type_ msg = NewType MethodCreatePermission ClassRequest.
Proof.
  apply Build_type. constructor; [intros t; discriminate|].
  apply Forall_app. split.
  - apply Forall_forall. intros s Hs. apply list_elem_of_In, in_map_iff in Hs.
    destruct Hs as (a & <- & _). intros t; discriminate.
  - repeat constructor; intros t; discriminate.
Qed.

Lemma bind_msg_type c x msg :
  Build lib (bindSetters obs c x) = inl msg ->
  Type_ msg = NewType MethodChannelBind ClassRequest.
Proof. apply Build_type. repeat constructor; intros t; discriminate. Qed.

Lemma refresh_msg_type l msg :
  Build lib (refreshSetters l) = inl msg ->
  Type_ msg = NewType MethodRefresh ClassRequest.
Proof. apply Build_type. repeat constructor; intros t; discriminate. Qed.

Lemma indication_msg_type p a msg :
  Build lib (sendIndicationSetters p a) = inl msg ->
  Type_ msg = NewType MethodSend ClassIndication.
Proof. apply Build_type. repeat constructor; intros t; discriminate. Qed.


(** *** The create-permission exchange *)

(** [createPermissions] reads the credentials and the trace, and writes the
    trace only. *)
Lemma createPermissions_graft addrs w w' :
  nonce (conn w') = nonce (conn w) ->
  integrity (conn w') = integrity (conn w) ->
  trace w' = trace w ->
  createPermissions lib obs addrs w' =
    graft (createPermissions lib obs addrs w) (fun w1 => set_trace w' (trace w1)).
Proof.
  intros Hn Hi Ht.
  unfold createPermissions, createPermissionSetters, bindM, getConn,
    performTransaction, ret, panic.
  simpl. rewrite Hn, Hi.
  destruct (Build lib _) as [msg|e]; simpl; rewrite ?Ht.
  - repeat case_match; simpl; unfold emit, set_trace; simpl; rewrite ?Ht; reflexivity.
  - rewrite <- Ht. rewrite set_trace_id. reflexivity.
Qed.

Lemma createPermissions_world addrs w :
  world_after (createPermissions lib obs addrs w) =
    set_trace w (trace (world_after (createPermissions lib obs addrs w))).
Proof.
  rewrite (createPermissions_graft addrs w w) at 1 by reflexivity.
  destruct (createPermissions lib obs addrs w); reflexivity.
Qed.

Lemma createPermissions_not_blocked addrs w w1 :
  createPermissions lib obs addrs w <> Blocked w1.
Proof.
  unfold createPermissions, bindM, getConn, performTransaction, ret, panic. simpl.
  repeat case_match; discriminate.
Qed.

(** The events of a create-permission exchange: none when the request could
    not be built, else the one request. *)
Lemma createPermissions_trace addrs w :
  trace (world_after (createPermissions lib obs addrs w)) = trace w \/
  exists msg,
    Build lib (createPermissionSetters obs (conn w) addrs) = inl msg /\
    trace (world_after (createPermissions lib obs addrs w)) =
      trace w ++ [EvPerformTransaction msg (TURNServerAddr obs) false].
Proof.
  unfold createPermissions, bindM, getConn, performTransaction, ret, panic. simpl.
  destruct (Build lib _) as [msg|e] eqn:Hb; [right; exists msg; split; [reflexivity|] | left; reflexivity].
  repeat case_match; reflexivity.
Qed.

(** *** The permission stage of [WriteTo] *)

Lemma permissionStage_found a q w :
  permMap (permMap_ (conn w)) !! a = Some q ->
  perms w !! q = Some {| p_st := permStatePermitted; p_mutex := false |} ->
  permissionStage lib obs a w = Done None w.
Proof.
  intros Hfind Hq.
  unfold permissionStage, lookupPermission, ensurePermission, permMap_find, pm_find,
    perm_Lock, perm_Unlock, perm_state, withPerm, defer, bindM, getConn, modify, ret.
  simpl. rewrite Hfind, Hq. heap_simpl.
  f_equal. rewrite insert_insert_eq, (insert_id (perms w) q _ Hq).
  destruct w; reflexivity.
Qed.

Lemma permissionStage_absent a w :
  permMap (permMap_ (conn w)) !! a = None ->
  permissionStage lib obs a w =
    let q := fresh (dom (perms w)) in
    let inserted := set_permMap (conn w) (pm_insert (permMap_ (conn w)) a q) in
    match createPermissions lib obs [a] w with
    | Done (Some e) w1 =>
        Done (Some e) (set_perms w1 (<[q := idlePermission]> (perms w)))
    | Done None w1 =>
        Done None (set_conn (set_perms w1 (<[q := grantedPermission]> (perms w))) inserted)
    | Panic msg w1 =>
        Panic msg (set_conn (set_perms w1 (<[q := idlePermission]> (perms w))) inserted)
    | Blocked w1 => Blocked w1
    end.
Proof.
  intros Hfind.
  unfold permissionStage, lookupPermission, ensurePermission, permMap_find, pm_find,
    newPermission, permMap_insert, permMap_delete, modifyConn,
    perm_Lock, perm_Unlock, perm_state, perm_setState, withPerm, defer, bindM,
    getConn, modify, ret.
  simpl. rewrite Hfind. heap_simpl.
  match goal with |- context [createPermissions lib obs [a] ?w'] =>
    rewrite (createPermissions_graft [a] w w') by reflexivity end.
  pose proof (createPermissions_world [a] w) as Hw.
  pose proof (createPermissions_not_blocked [a] w) as Hnb.
  destruct (createPermissions lib obs [a] w) as [[e|] w1|msg w1|w1]; simpl in *.
  - heap_simpl. f_equal. rewrite Hw.
    unfold set_perms, set_conn, set_trace, set_permMap, pm_delete, pm_insert. simpl.
    rewrite delete_insert_id by assumption. rewrite !insert_insert_eq.
    rewrite permissionMap_eta. destruct (conn w); reflexivity.
  - heap_simpl. f_equal. rewrite Hw.
    unfold set_perms, set_conn, set_trace, set_permMap, pm_delete, pm_insert. simpl.
    rewrite !insert_insert_eq. reflexivity.
  - heap_simpl. f_equal. rewrite Hw.
    unfold set_perms, set_conn, set_trace, set_permMap, pm_delete, pm_insert. simpl.
    rewrite !insert_insert_eq. reflexivity.
  - exfalso. eapply Hnb. reflexivity.
Qed.

(** *** The channel-bind exchange *)

Lemma bm_deleteByAddr_addrMap mgr heap a :
  addrMap (bm_deleteByAddr mgr heap a) = delete a (addrMap mgr).
Proof.
  unfold bm_deleteByAddr. destruct (addrMap mgr !! a) eqn:H; [reflexivity|].
  symmetry. apply delete_id. assumption.
Qed.

(** What [bind] returns and the world it leaves, case by case. *)
Lemma bind_unfold b x w :
  binds w !! b = Some x ->
  bind lib obs b w =
    match Build lib (bindSetters obs (conn w) x) with
    | inr e => Done (Some e) w
    | inl msg =>
        let r := PerformTransaction obs (trace w) msg (TURNServerAddr obs) false in
        let w1 := emit w (EvPerformTransaction msg (TURNServerAddr obs) false) in
        let w2 := match r.2 with
                  | Some _ => world_after (deleteByAddr (addr x) w1)
                  | None => w1
                  end in
        match Msg r.1 with
        | None => Panic nilDeref w2
        | Some res =>
            if decide (Type_ res = NewType MethodChannelBind ClassSuccessResponse) then
              Done None (emit w2 (EvLog LDebug "channel binding successful"))
            else
              Done (Some (Errorf ("unexpected response type "
                                  +:+ MessageType_String lib (Type_ res)))) w2
        end
    end.
Proof.
  intros Hb.
  unfold bind, withBinding, bindM, getConn, performTransaction, logf, deleteByAddr,
    modify, ret, panic.
  simpl. rewrite Hb.
  destruct (Build lib _) as [msg|e]; [|reflexivity].
  simpl.
  destruct (PerformTransaction obs (trace w) msg (TURNServerAddr obs) false)
    as [[[res|]] [e|]]; simpl; try reflexivity;
    destruct (decide _); reflexivity.
Qed.

Lemma bind_binds b x w :
  binds w !! b = Some x ->
  binds (world_after (bind lib obs b w)) = binds w.
Proof.
  intros Hb. rewrite (bind_unfold _ _ _ Hb).
  destruct (Build lib _) as [msg|e]; [|reflexivity].
  cbv zeta.
  destruct (PerformTransaction obs (trace w) msg (TURNServerAddr obs) false)
    as [[[res|]] [e|]]; simpl; try reflexivity;
    destruct (decide _); reflexivity.
Qed.

Lemma bind_not_blocked b x w w1 :
  binds w !! b = Some x -> bind lib obs b w <> Blocked w1.
Proof.
  intros Hb. rewrite (bind_unfold _ _ _ Hb).
  destruct (Build lib _) as [msg|e]; [|discriminate].
  cbv zeta.
  destruct (Msg _); [destruct (decide _)|]; discriminate.
Qed.
(** *** The binding stage of [WriteTo] *)

Lemma set_b_mutex_unlock x :
  b_mutex x = false -> set_b_mutex (set_b_mutex x true) false = x.
Proof. intros H. destruct x; simpl in *; subst; reflexivity. Qed.

Lemma set_b_st_unlock x s :
  b_mutex x = false ->
  set_b_mutex (set_b_st (set_b_mutex x true) s) false = set_b_st x s.
Proof. intros H. destruct x; simpl in *; subst; reflexivity. Qed.

(** [ensureBinding] on an idle, unlocked binding: the exchange runs under the
    lock and decides the state the binding is left in. *)
Lemma ensureBinding_idle b x w :
  binds w !! b = Some x -> b_st x = bindingStateIdle -> b_mutex x = false ->
  ensureBinding lib obs b w =
    match bind lib obs b (set_binds w (<[b := set_b_mutex x true]> (binds w))) with
    | Done (Some e) w1 =>
        Done tt (set_binds (emit w1 (EvLog LWarn ("bind() failed: " +:+ Error e)))
                   (<[b := set_b_st x bindingStateFailed]> (binds w)))
    | Done None w1 =>
        Done tt (set_binds w1 (<[b := set_b_st x bindingStateReady]> (binds w)))
    | Panic msg w1 => Panic msg (set_binds w1 (<[b := x]> (binds w)))
    | Blocked w1 => Blocked w1
    end.
Proof.
  intros Hb Hst Hmx.
  unfold ensureBinding, binding_Lock, binding_Unlock, binding_state, binding_setState,
    withBinding, defer, bindM, logf, modify, ret.
  rewrite Hb, Hmx. heap_simpl. rewrite Hst.
  destruct (decide (bindingStateIdle = bindingStateIdle)) as [_|]; [|contradiction].
  match goal with |- context [bind lib obs b ?wl] =>
    pose proof (bind_binds b (set_b_mutex x true) wl (lookup_insert_eq _ _ _)) as Hbinds;
    destruct (bind lib obs b wl) as [[e|] w1|msg w1|w1]; simpl in Hbinds end.
  - heap_simpl. rewrite Hbinds. heap_simpl.
    rewrite !insert_insert_eq, set_b_st_unlock by assumption. reflexivity.
  - heap_simpl. rewrite Hbinds. heap_simpl.
    rewrite !insert_insert_eq, set_b_st_unlock by assumption. reflexivity.
  - heap_simpl. rewrite Hbinds. heap_simpl.
    rewrite !insert_insert_eq, set_b_mutex_unlock by assumption. reflexivity.
  - reflexivity.
Qed.

Lemma bindingStage_ready p a b x w :
  addrMap (bindingMgr (conn w)) !! a = Some b ->
  binds w !! b = Some x -> b_st x = bindingStateReady ->
  bindingStage lib obs p a w =
    let raw := ChannelData_Encode lib p (number x) in
    Done (obs_WriteTo obs (trace w) raw (TURNServerAddr obs))
         (emit w (EvWriteTo raw (TURNServerAddr obs))).
Proof.
  intros Ha Hb Hst.
  unfold bindingStage, lookupBinding, findByAddr, binding_state, withBinding,
    sendChannelData, transportWriteTo, bindM, getConn, ret.
  simpl. rewrite Ha. simpl. rewrite Hb. simpl. rewrite Hst.
  destruct (decide (bindingStateReady <> bindingStateReady)) as [Hne|_];
    [contradiction|]. rewrite Hb. reflexivity.
Qed.

Lemma bindingStage_failed p a b x w :
  addrMap (bindingMgr (conn w)) !! a = Some b ->
  binds w !! b = Some x -> b_st x = bindingStateFailed ->
  bindingStage lib obs p a w = sendIndication lib obs p a w.
Proof.
  intros Ha Hb Hst.
  unfold bindingStage, lookupBinding, findByAddr, binding_state, withBinding,
    bindM, getConn, ret.
  simpl. rewrite Ha. simpl. rewrite Hb. simpl. rewrite Hst.
  destruct (decide (bindingStateFailed <> bindingStateReady)) as [_|Hne];
    [|exfalso; apply Hne; discriminate].
  rewrite Hb. simpl. rewrite Hst.
  destruct (decide (bindingStateFailed = bindingStateIdle)); [discriminate|].
  reflexivity.
Qed.

Lemma bindingStage_idle p a b x w :
  addrMap (bindingMgr (conn w)) !! a = Some b ->
  binds w !! b = Some x -> b_st x = bindingStateIdle ->
  bindingStage lib obs p a w =
    (ensureBinding lib obs b ;;; sendIndication lib obs p a)%go w.
Proof.
  intros Ha Hb Hst.
  unfold bindingStage, lookupBinding, findByAddr, binding_state, withBinding,
    bindM at 1 2 3 4 5, getConn, ret.
  simpl. rewrite Ha. simpl. rewrite Hb. simpl. rewrite Hst.
  destruct (decide (bindingStateIdle <> bindingStateReady)) as [_|Hne];
    [|exfalso; apply Hne; discriminate].
  unfold bindM at 1. rewrite Hb. simpl. rewrite Hst.
  destruct (decide (bindingStateIdle = bindingStateIdle)) as [_|]; [|contradiction].
  reflexivity.
Qed.

Lemma create_unfold a w :
  create a w = Done (fresh (dom (binds w))) (world_after (create a w)).
Proof. reflexivity. Qed.

Lemma bindingStage_absent p a w :
  addrMap (bindingMgr (conn w)) !! a = None ->
  bindingStage lib obs p a w =
    (ensureBinding lib obs (fresh (dom (binds w))) ;;; sendIndication lib obs p a)%go
      (world_after (create a w)).
Proof.
  intros Ha.
  unfold bindingStage, lookupBinding, findByAddr, binding_state, withBinding,
    bindM at 1 2 3 4 5, getConn, ret.
  simpl. rewrite Ha. simpl. rewrite !lookup_insert_eq. simpl.
  destruct (decide (bindingStateIdle <> bindingStateReady)) as [_|Hne];
    [|exfalso; apply Hne; discriminate].
  unfold bindM at 1. simpl. rewrite !lookup_insert_eq. simpl.
  destruct (decide (bindingStateIdle = bindingStateIdle)) as [_|]; [|contradiction].
  reflexivity.
Qed.

(** *** Relations that every step of an operation respects *)

#[local] Instance no_teardown_preorder : PreOrder no_teardown.
Proof.
  split.
  - intros w. repeat split; try reflexivity. exists []. rewrite app_nil_r. auto.
  - intros w1 w2 w3 (Hc1 & Hr1 & evs1 & Ht1 & Hf1) (Hc2 & Hr2 & evs2 & Ht2 & Hf2).
    repeat split; try congruence.
    exists (evs1 ++ evs2). rewrite Ht2, Ht1, app_assoc. split; [reflexivity|].
    apply Forall_app; auto.
Qed.

#[local] Instance trackers_same_preorder : PreOrder trackers_same.
Proof.
  split.
  - intros w. repeat split.
  - intros w1 w2 w3 (? & ? & ? & ?) (? & ? & ? & ?). repeat split; congruence.
Qed.

#[local] Instance period_kept_preorder : PreOrder period_kept.
Proof.
  split.
  - intros w. split; reflexivity.
  - intros w1 w2 w3 [? ?] [? ?]. split; congruence.
Qed.

Section Respects.

Context {R : World -> World -> Prop} `{!PreOrder R}.

Lemma respects_ret {A} (a : A) : respects R (ret a).
Proof. intros w. reflexivity. Qed.

Lemma respects_panic {A} msg : respects R (@panic A msg).
Proof. intros w. reflexivity. Qed.

Lemma respects_blocked {A} : respects R (fun w => @Blocked A w).
Proof. intros w. reflexivity. Qed.

Lemma respects_get : respects R get.
Proof. intros w. reflexivity. Qed.

Lemma respects_getConn : respects R getConn.
Proof. intros w. reflexivity. Qed.

Lemma respects_bind {A B} (m : M A) (k : A -> M B) :
  respects R m -> (forall a, respects R (k a)) -> respects R (bindM m k).
Proof.
  intros Hm Hk w. specialize (Hm w). unfold bindM.
  destruct (m w) as [a w1|msg w1|w1]; simpl in *; try exact Hm.
  etransitivity; [exact Hm | apply Hk].
Qed.

Lemma respects_defer {A} (cleanup : M unit) (body : M A) :
  respects R cleanup -> respects R body -> respects R (defer cleanup body).
Proof.
  intros Hc Hb w. specialize (Hb w). unfold defer.
  destruct (body w) as [a w1|msg w1|w1]; simpl in *; try exact Hb;
    specialize (Hc w1); destruct (cleanup w1); simpl in *;
    etransitivity; eauto.
Qed.

Lemma respects_modify (f : World -> World) :
  (forall w, R w (f w)) -> respects R (modify f).
Proof. intros Hf w. apply Hf. Qed.

Lemma respects_withPerm {A} p (k : permission -> M A) :
  (forall x, respects R (k x)) -> respects R (withPerm p k).
Proof.
  intros Hk w. unfold withPerm. destruct (perms w !! p); [apply Hk | reflexivity].
Qed.

Lemma respects_withBinding {A} b (k : binding -> M A) :
  (forall x, respects R (k x)) -> respects R (withBinding b k).
Proof.
  intros Hk w. unfold withBinding. destruct (binds w !! b); [apply Hk | reflexivity].
Qed.

End Respects.

(** Walk through the code of an operation, down to the single updates of
    the world, and leave those to [leaf]. *)
Ltac respects_walk leaf :=
  repeat first
    [ apply respects_ret | apply respects_panic | apply respects_blocked
    | apply respects_get | apply respects_getConn
    | apply respects_bind; [|intros ?]
    | apply respects_defer
    | apply respects_withPerm; intros ?
    | apply respects_withBinding; intros ?
    | apply respects_modify; intros ?; leaf
    | match goal with
      | |- respects _ (match ?x with _ => _ end) => destruct x
      | |- respects _ (let _ := _ in _) => cbv zeta
      end
    | progress unfold WriteTo, permissionStage, bindingStage, lookupPermission,
        lookupBinding, ensurePermission, ensureBinding, createPermissions, bind,
        sendIndication, sendChannelData, refreshAllocation, refreshPermissions,
        onRefreshTimers, perm_state, perm_setState, perm_Unlock, binding_state,
        binding_setState, binding_Unlock, permMap_find, permMap_insert,
        permMap_delete, findByAddr, findByNumber, deleteByAddr, modifyConn, logf,
        onDeallocated, HandleInbound, FindAddrByChannelNumber, SetReadDeadline,
        SetDeadline, SetWriteDeadline, fireRefreshAlloc, fireRefreshPerms, ReadFrom
    | (intros ?; simpl; repeat case_match; simpl; leaf) ].

Ltac leaf_period := unfold period_kept; simpl; split; reflexivity.

Ltac leaf_trackers := unfold trackers_same; simpl; repeat split; reflexivity.

Ltac leaf_no_teardown :=
  unfold no_teardown, emit; simpl; repeat split;
  first [ exists []; rewrite app_nil_r; split; [reflexivity | constructor]
        | eexists [_]; split; [reflexivity | repeat constructor] ].

(** No step of the write path touches the period of the allocation-refresh
    timer, the close channel or the relayed address, and none is part of a
    teardown. *)
Lemma WriteTo_period p a : respects period_kept (WriteTo lib obs p a).
Proof. respects_walk leaf_period. Qed.

Lemma WriteTo_no_teardown p a : respects no_teardown (WriteTo lib obs p a).
Proof. respects_walk leaf_no_teardown. Qed.

Lemma exec_period op : respects period_kept (exec lib obs op).
Proof.
  destruct op; unfold exec, Close; respects_walk leaf_period.
Qed.

Lemma exec_no_teardown op : op <> OpClose -> respects no_teardown (exec lib obs op).
Proof.
  intros Hop. destruct op; try contradiction; unfold exec;
    respects_walk leaf_no_teardown.
Qed.

Lemma exec_trackers op :
  (forall p a, op <> OpWriteTo p a) -> respects trackers_same (exec lib obs op).
Proof.
  intros Hop. destruct op; try (exfalso; eapply Hop; reflexivity);
    unfold exec, Close; respects_walk leaf_trackers.
Qed.

(** *** The invariant of the trackers *)

Lemma Inv_trackers_same w w' : trackers_same w w' -> Inv w -> Inv w'.
Proof.
  intros (Hp & Hb & Hhp & Hhb) [H1 H2 H3]. split.
  - intros a q Hq. rewrite Hp in Hq. rewrite Hhp. eauto.
  - intros a b Hab. rewrite Hb in Hab. rewrite Hhb. eauto.
  - intros a b Hab. rewrite Hb in Hab. rewrite Hp. eauto.
Qed.

Lemma ready_kept_trackers_same w w' : trackers_same w w' -> ready_kept w w'.
Proof.
  intros (Hp & Hb & Hhp & Hhb) a x. unfold bindingOf. rewrite Hb, Hhb. auto.
Qed.

Lemma ready_kept_refl w : ready_kept w w.
Proof. intros a x H _. exact H. Qed.

Lemma ready_kept_trans w1 w2 w3 : ready_kept w1 w2 -> ready_kept w2 w3 -> ready_kept w1 w3.
Proof. intros H12 H23 a x H Hr. eauto. Qed.

Lemma trackers_same_set_trace w tr : trackers_same w (set_trace w tr).
Proof. repeat split. Qed.

Lemma fresh_perm_unused (w : World) : perms w !! fresh (dom (perms w)) = None.
Proof. apply not_elem_of_dom, is_fresh. Qed.

Lemma fresh_binding_unused (w : World) : binds w !! fresh (dom (binds w)) = None.
Proof. apply not_elem_of_dom, is_fresh. Qed.

(** The permission stage keeps the invariant, leaves the bindings alone, and
    when it succeeds there is a permission for the address. *)
Lemma permissionStage_Inv a w :
  Inv w ->
  match permissionStage lib obs a w with
  | Done r w' =>
      Inv w' /\ bindingMgr (conn w') = bindingMgr (conn w) /\ binds w' = binds w /\
      (r = None -> is_Some (permMap (permMap_ (conn w')) !! a))
  | Blocked _ => False
  | Panic _ _ => True
  end.
Proof.
  intros HI. destruct (permMap (permMap_ (conn w)) !! a) as [q|] eqn:Hfind.
  - rewrite (permissionStage_found a q w Hfind (inv_perm w HI a q Hfind)).
    split; [assumption|]. split; [reflexivity|]. split; [reflexivity|].
    intros _. rewrite Hfind. eauto.
  - rewrite (permissionStage_absent a w Hfind). cbv zeta.
    pose proof (createPermissions_world [a] w) as Hw.
    pose proof (createPermissions_not_blocked [a] w) as Hnb.
    pose proof (fresh_perm_unused w) as Hfresh.
    destruct (createPermissions lib obs [a] w) as [[e|] w1|msg w1|w1];
      simpl in Hw; [| |exact I|exfalso; eapply Hnb; reflexivity].
    + rewrite Hw. simpl.
      split; [|split; [reflexivity|split; [reflexivity|discriminate]]].
      split; simpl.
      * intros a' q' Hq'.
        rewrite lookup_insert_ne; [exact (inv_perm w HI a' q' Hq')|].
        intros <-. rewrite (inv_perm w HI a' _ Hq') in Hfresh. discriminate.
      * exact (inv_bind w HI).
      * exact (inv_bind_perm w HI).
    + rewrite Hw. simpl.
      split; [|split; [reflexivity|split; [reflexivity|]]].
      * split; simpl.
        -- intros a' q' Hq'.
           destruct (decide (a = a')) as [<-|Hne].
           ++ rewrite lookup_insert_eq in Hq'. injection Hq' as <-.
              rewrite lookup_insert_eq. reflexivity.
           ++ rewrite lookup_insert_ne in Hq' by assumption.
              rewrite lookup_insert_ne; [exact (inv_perm w HI a' q' Hq')|].
              intros <-. rewrite (inv_perm w HI a' _ Hq') in Hfresh. discriminate.
        -- exact (inv_bind w HI).
        -- intros a' b' Hb'. split; [|exact (proj2 (inv_bind_perm w HI a' b' Hb'))].
           destruct (decide (a = a')) as [<-|Hne].
           ++ rewrite lookup_insert_eq. eauto.
           ++ rewrite lookup_insert_ne by assumption.
              exact (proj1 (inv_bind_perm w HI a' b' Hb')).
      * intros _. rewrite lookup_insert_eq. eauto.
Qed.

Lemma sendIndication_world p a w :
  exists r tr, sendIndication lib obs p a w = Done r (set_trace w tr).
Proof.
  unfold sendIndication, transportWriteTo, ret.
  destruct (Build lib _) as [msg|e].
  - eexists _, _. reflexivity.
  - eexists _, _. rewrite set_trace_id. reflexivity.
Qed.

(** Two addresses the manager sends to one binding object are one address. *)
Lemma Inv_binding_owner w a a' b :
  Inv w ->
  addrMap (bindingMgr (conn w)) !! a = Some b ->
  addrMap (bindingMgr (conn w)) !! a' = Some b ->
  a' = a.
Proof.
  intros HI Ha Ha'.
  destruct (inv_bind w HI a b Ha) as (x & Hx & Hax & _).
  destruct (inv_bind w HI a' b Ha') as (x' & Hx' & Hax' & _).
  congruence.
Qed.

(** Settling the state of the binding of [a], which was not ready, and
    possibly forgetting [a] in the manager, keeps the invariant and every
    ready binding. *)
Lemma Inv_settle v v' a b x s (del : bool) :
  Inv v ->
  addrMap (bindingMgr (conn v)) !! a = Some b ->
  binds v !! b = Some x ->
  b_st x <> bindingStateReady ->
  perms v' = perms v ->
  permMap_ (conn v') = permMap_ (conn v) ->
  binds v' = <[b := set_b_st x s]> (binds v) ->
  addrMap (bindingMgr (conn v')) =
    (if del then delete a (addrMap (bindingMgr (conn v)))
     else addrMap (bindingMgr (conn v))) ->
  Inv v' /\ ready_kept v v'.
Proof.
  intros HI Ha Hb Hnr Hperms Hpm Hbinds Hmgr.
  destruct (inv_bind v HI a b Ha) as (x0 & Hx0 & Hax & Hmx).
  rewrite Hb in Hx0. injection Hx0 as <-.
  assert (Hsub : forall a' b', addrMap (bindingMgr (conn v')) !! a' = Some b' ->
                 addrMap (bindingMgr (conn v)) !! a' = Some b' /\ (del = true -> a' <> a)).
  { intros a' b' H. rewrite Hmgr in H. destruct del.
    - apply lookup_delete_Some in H. destruct H as [Hne H]. split; [exact H|].
      intros _ ->. contradiction.
    - split; [exact H | discriminate]. }
  split; [split|].
  - intros a' q Hq. rewrite Hpm in Hq. rewrite Hperms. exact (inv_perm v HI a' q Hq).
  - intros a' b' H. destruct (Hsub a' b' H) as [H' _]. rewrite Hbinds.
    destruct (decide (b' = b)) as [->|Hne].
    + rewrite lookup_insert_eq. eexists. split; [reflexivity|].
      rewrite (Inv_binding_owner v a a' b HI Ha H'). simpl. auto.
    + rewrite lookup_insert_ne by congruence. exact (inv_bind v HI a' b' H').
  - intros a' b' H. destruct (Hsub a' b' H) as [H' _]. rewrite Hpm.
    exact (inv_bind_perm v HI a' b' H').
  - intros a' x' Hbo Hrdy. unfold bindingOf in *.
    destruct (addrMap (bindingMgr (conn v)) !! a') as [b'|] eqn:Hb'; [|discriminate].
    assert (Hne : a' <> a).
    { intros ->. rewrite Ha in Hb'. injection Hb' as <-. congruence. }
    assert (Hbne : b' <> b).
    { intros ->. apply Hne. exact (Inv_binding_owner v a a' b HI Ha Hb'). }
    rewrite Hmgr. destruct del.
    + rewrite lookup_delete_ne by congruence. rewrite Hb', Hbinds.
      rewrite lookup_insert_ne by congruence. exact Hbo.
    + rewrite Hb', Hbinds. rewrite lookup_insert_ne by congruence. exact Hbo.
Qed.

(** The world [ensureBinding] leaves when it returns, for an idle binding. *)
Lemma ensureBinding_shape a b x v :
  binds v !! b = Some x -> addr x = a -> b_st x = bindingStateIdle ->
  b_mutex x = false ->
  match ensureBinding lib obs b v with
  | Done _ v' =>
      exists s del,
        perms v' = perms v /\ permMap_ (conn v') = permMap_ (conn v) /\
        binds v' = <[b := set_b_st x s]> (binds v) /\
        addrMap (bindingMgr (conn v')) =
          (if del : bool then delete a (addrMap (bindingMgr (conn v)))
           else addrMap (bindingMgr (conn v)))
  | Blocked _ => False
  | Panic _ _ => True
  end.
Proof.
  intros Hb Hax Hst Hmx.
  rewrite (ensureBinding_idle b x v Hb Hst Hmx).
  rewrite (bind_unfold b (set_b_mutex x true) _ (lookup_insert_eq _ _ _)).
  simpl. rewrite Hax.
  destruct (Build lib _) as [msg|e].
  - cbv zeta.
    destruct (PerformTransaction obs (trace v) msg (TURNServerAddr obs) false)
      as [[[res|]] [e|]]; simpl; try exact I;
      destruct (decide _); simpl;
      first [ solve [exists bindingStateReady, true; repeat split;
                     apply bm_deleteByAddr_addrMap]
            | solve [exists bindingStateFailed, true; repeat split;
                     apply bm_deleteByAddr_addrMap]
            | solve [exists bindingStateReady, false; repeat split]
            | solve [exists bindingStateFailed, false; repeat split] ].
  - exists bindingStateFailed, false. repeat split.
Qed.

Lemma ensureBinding_Inv a b x v :
  Inv v ->
  addrMap (bindingMgr (conn v)) !! a = Some b ->
  binds v !! b = Some x -> b_st x = bindingStateIdle ->
  match ensureBinding lib obs b v with
  | Done _ v' => Inv v' /\ ready_kept v v'
  | Blocked _ => False
  | Panic _ _ => True
  end.
Proof.
  intros HI Ha Hb Hst.
  destruct (inv_bind v HI a b Ha) as (x0 & Hx0 & Hax & Hmx).
  rewrite Hb in Hx0. injection Hx0 as <-.
  pose proof (ensureBinding_shape a b x v Hb Hax Hst Hmx) as Hshape.
  destruct (ensureBinding lib obs b v) as [r v'|msg v'|v']; try exact Hshape.
  destruct Hshape as (s & del & Hperms & Hpm & Hbinds & Hmgr).
  eapply Inv_settle; eauto. congruence.
Qed.

(** Registering a new binding for an address that has a permission and no
    binding yet. *)
Lemma Inv_create a v :
  Inv v ->
  addrMap (bindingMgr (conn v)) !! a = None ->
  is_Some (permMap (permMap_ (conn v)) !! a) ->
  (exists ip port, a = UDPAddr ip port) ->
  Inv (world_after (create a v)) /\ ready_kept v (world_after (create a v)).
Proof.
  intros HI Ha Hperm Hudp.
  pose proof (fresh_binding_unused v) as Hfresh.
  split; [split|]; simpl.
  - exact (inv_perm v HI).
  - intros a' b' H. destruct (decide (a = a')) as [<-|Hne].
    + rewrite lookup_insert_eq in H. injection H as <-.
      rewrite lookup_insert_eq. eexists. split; [reflexivity|]. split; reflexivity.
    + rewrite lookup_insert_ne in H by assumption.
      destruct (inv_bind v HI a' b' H) as (x' & Hx' & Hrest).
      rewrite lookup_insert_ne; [eauto|].
      intros <-. congruence.
  - intros a' b' H. destruct (decide (a = a')) as [<-|Hne].
    + split; assumption.
    + rewrite lookup_insert_ne in H by assumption.
      exact (inv_bind_perm v HI a' b' H).
  - intros a' x' Hbo Hrdy. unfold bindingOf in *. simpl.
    destruct (addrMap (bindingMgr (conn v)) !! a') as [b'|] eqn:Hb'; [|discriminate].
    assert (Hne : a <> a') by (intros ->; congruence).
    rewrite lookup_insert_ne by assumption. rewrite Hb'.
    rewrite lookup_insert_ne; [exact Hbo|].
    intros <-. congruence.
Qed.

Lemma Inv_set_trace w tr : Inv w -> Inv (set_trace w tr).
Proof. apply Inv_trackers_same, trackers_same_set_trace. Qed.

Lemma ready_kept_set_trace w tr : ready_kept w (set_trace w tr).
Proof. apply ready_kept_trackers_same, trackers_same_set_trace. Qed.

(** The binding stage keeps the invariant and every ready binding. *)
Lemma bindingStage_Inv p a w :
  Inv w ->
  is_Some (permMap (permMap_ (conn w)) !! a) ->
  (exists ip port, a = UDPAddr ip port) ->
  match bindingStage lib obs p a w with
  | Done _ w' => Inv w' /\ ready_kept w w'
  | Blocked _ => False
  | Panic _ _ => True
  end.
Proof.
  intros HI Hperm Hudp.
  assert (Hidle : forall b x v,
    Inv v -> addrMap (bindingMgr (conn v)) !! a = Some b ->
    binds v !! b = Some x -> b_st x = bindingStateIdle ->
    match (ensureBinding lib obs b ;;; sendIndication lib obs p a)%go v with
    | Done _ w' => Inv w' /\ ready_kept v w'
    | Blocked _ => False
    | Panic _ _ => True
    end).
  { intros b x v HIv Ha Hb Hst. unfold bindM.
    pose proof (ensureBinding_Inv a b x v HIv Ha Hb Hst) as He.
    destruct (ensureBinding lib obs b v) as [r v'|msg v'|v']; try exact He.
    destruct He as [HI' Hk].
    destruct (sendIndication_world p a v') as (r' & tr & ->).
    split; [apply Inv_set_trace; assumption|].
    eapply ready_kept_trans; [exact Hk | apply ready_kept_set_trace]. }
  destruct (addrMap (bindingMgr (conn w)) !! a) as [b|] eqn:Ha.
  - destruct (inv_bind w HI a b Ha) as (x & Hx & Hax & Hmx).
    destruct (b_st x) eqn:Hst.
    + rewrite (bindingStage_idle p a b x w Ha Hx Hst). eapply Hidle; eauto.
    + rewrite (bindingStage_ready p a b x w Ha Hx Hst). cbv zeta.
      split; [apply Inv_set_trace; assumption | apply ready_kept_set_trace].
    + rewrite (bindingStage_failed p a b x w Ha Hx Hst).
      destruct (sendIndication_world p a w) as (r' & tr & ->).
      split; [apply Inv_set_trace; assumption | apply ready_kept_set_trace].
  - rewrite (bindingStage_absent p a w Ha).
    destruct (Inv_create a w HI Ha Hperm Hudp) as [HIc Hkc].
    assert (Ha' : addrMap (bindingMgr (conn (world_after (create a w)))) !! a
                  = Some (fresh (dom (binds w)))) by (simpl; apply lookup_insert_eq).
    assert (Hb' : binds (world_after (create a w)) !! fresh (dom (binds w))
                  = Some (newBinding w a)) by (simpl; apply lookup_insert_eq).
    pose proof (Hidle _ _ _ HIc Ha' Hb' eq_refl) as H.
    destruct ((ensureBinding lib obs (fresh (dom (binds w))) ;;; sendIndication lib obs p a)%go
                (world_after (create a w))) as [r v'|msg v'|v']; try exact H.
    destruct H as [HI' Hk]. split; [exact HI'|].
    eapply ready_kept_trans; eassumption.
Qed.

(** [WriteTo] keeps the invariant and every ready binding, and never blocks. *)
Lemma WriteTo_Inv p a w :
  Inv w ->
  match WriteTo lib obs p a w with
  | Done _ w' => Inv w' /\ ready_kept w w'
  | Blocked _ => False
  | Panic _ _ => True
  end.
Proof.
  intros HI. unfold WriteTo.
  destruct a as [ip port|ip port|n s];
    try (split; [assumption | apply ready_kept_refl]).
  unfold bindM.
  pose proof (permissionStage_Inv (UDPAddr ip port) w HI) as HP.
  destruct (permissionStage lib obs (UDPAddr ip port) w) as [[e|] w1|msg w1|w1];
    try exact HP.
  - destruct HP as (HI1 & Hmgr & Hbinds & _). split; [assumption|].
    intros a x. unfold bindingOf. rewrite Hmgr, Hbinds. auto.
  - destruct HP as (HI1 & Hmgr & Hbinds & Hsome).
    pose proof (bindingStage_Inv p (UDPAddr ip port) w1 HI1 (Hsome eq_refl)
                  (ex_intro _ ip (ex_intro _ port eq_refl))) as HB.
    destruct (bindingStage lib obs p (UDPAddr ip port) w1) as [r w2|msg w2|w2];
      try exact HB.
    destruct HB as [HI2 Hk]. split; [assumption|].
    intros a x Hbo Hr. apply Hk; [|exact Hr].
    unfold bindingOf in *. rewrite Hmgr, Hbinds. exact Hbo.
Qed.

(** *** The invariant along the life of an endpoint *)

Lemma NewUDPConn_Inv config t0 : Inv (NewUDPConn config t0).
Proof. split; simpl; intros a b H; rewrite lookup_empty in H; discriminate. Qed.

Lemma step_world op w w' :
  step lib obs op w w' -> w' = world_after (exec lib obs op w).
Proof. unfold step. destruct (exec lib obs op w); simpl; [auto|contradiction|auto]. Qed.

Lemma step_Inv op w w' :
  Inv w -> step lib obs op w w' -> Inv w' /\ ready_kept w w'.
Proof.
  intros HI Hstep. destruct op as [p a| | | | | | |];
    try (pose proof (step_world _ _ _ Hstep) as ->;
         match goal with |- context [exec lib obs ?op w] =>
           assert (Hts : trackers_same w (world_after (exec lib obs op w)))
             by (apply exec_trackers; intros ? ?; discriminate) end;
         split; [eapply Inv_trackers_same; eassumption
                | apply ready_kept_trackers_same; assumption]).
  unfold step, exec, bindM, ret in Hstep.
  pose proof (WriteTo_Inv p a w HI) as HW.
  destruct (WriteTo lib obs p a w) as [r w1|msg w1|w1]; try contradiction.
  subst w'. exact HW.
Qed.

Lemma steps_Inv w ops w' :
  Inv w -> steps lib obs w ops w' -> Inv w' /\ ready_kept w w'.
Proof.
  intros HI Hsteps. induction Hsteps as [w|w op w1 ops w2 Hstep Hsteps IH].
  - split; [assumption | apply ready_kept_refl].
  - destruct (step_Inv op w w1 HI Hstep) as [HI1 Hk1].
    destruct (IH HI1) as [HI2 Hk2].
    split; [assumption | eapply ready_kept_trans; eassumption].
Qed.

Lemma reachable_Inv config w : reachable lib obs config w -> Inv w.
Proof.
  intros (t0 & ops & Hsteps).
  exact (proj1 (steps_Inv _ _ _ (NewUDPConn_Inv config t0) Hsteps)).
Qed.

Lemma steps_app w ops w1 ops' w2 :
  steps lib obs w ops w1 -> steps lib obs w1 ops' w2 -> steps lib obs w (ops ++ ops') w2.
Proof.
  intros H1 H2. induction H1; simpl; [assumption|].
  econstructor; eauto.
Qed.

Lemma reachable_steps config w ops w' :
  reachable lib obs config w -> steps lib obs w ops w' -> reachable lib obs config w'.
Proof.
  intros (t0 & ops0 & H0) H. exists t0, (ops0 ++ ops). eapply steps_app; eassumption.
Qed.

(** *** Writes to a peer whose binding is ready *)

Lemma WriteTo_ready p a x w :
  Inv w -> bindingOf w a = Some x -> b_st x = bindingStateReady ->
  WriteTo lib obs p a w =
    let raw := ChannelData_Encode lib p (number x) in
    Done (obs_WriteTo obs (trace w) raw (TURNServerAddr obs))
         (emit w (EvWriteTo raw (TURNServerAddr obs))).
Proof.
  intros HI Hbo Hrdy. unfold bindingOf in Hbo.
  destruct (addrMap (bindingMgr (conn w)) !! a) as [b|] eqn:Ha; [|discriminate].
  destruct (inv_bind_perm w HI a b Ha) as [[q Hq] (ip & port & ->)].
  unfold WriteTo, bindM.
  rewrite (permissionStage_found _ q w Hq (inv_perm w HI _ q Hq)).
  exact (bindingStage_ready p _ b x w Ha Hbo Hrdy).
Qed.

(** C3. Once the binding of a peer address is ready, every later [WriteTo]
    to that address, whatever happened to the endpoint in between, hands to
    the transport the payload framed as channel data with the number of that
    binding, and nothing else: the trace grows by that one write, so no
    send-indication message is sent. *)
Theorem WriteTo_ready_uses_channel config w a x ops w' p :
  reachable lib obs config w ->
  bindingOf w a = Some x -> b_st x = bindingStateReady ->
  steps lib obs w ops w' ->
  let raw := ChannelData_Encode lib p (number x) in
  WriteTo lib obs p a w' =
    Done (obs_WriteTo obs (trace w') raw (TURNServerAddr obs))
         (emit w' (EvWriteTo raw (TURNServerAddr obs))) /\
  trace (emit w' (EvWriteTo raw (TURNServerAddr obs))) =
    trace w' ++ [EvWriteTo raw (TURNServerAddr obs)].
Proof.
  intros Hreach Hbo Hrdy Hsteps raw.
  pose proof (reachable_Inv config w Hreach) as HI.
  destruct (steps_Inv w ops w' HI Hsteps) as [HI' Hkept].
  split; [|reflexivity].
  apply WriteTo_ready; auto.
Qed.

(** *** What a successful [WriteTo] returns *)

Lemma bindM_Done {A B} (m : M A) (k : A -> M B) w r w' :
  bindM m k w = Done r w' ->
  exists a w1, m w = Done a w1 /\ k a w1 = Done r w'.
Proof.
  unfold bindM. destruct (m w) as [a w1|msg w1|w1]; [eauto | discriminate | discriminate].
Qed.

Lemma sendIndication_Done p a w n w' :
  sendIndication lib obs p a w = Done (n, None) w' ->
  exists msg,
    Build lib (sendIndicationSetters p a) = inl msg /\
    obs_WriteTo obs (trace w) (Raw msg) (TURNServerAddr obs) = (n, None) /\
    w' = emit w (EvWriteTo (Raw msg) (TURNServerAddr obs)).
Proof.
  unfold sendIndication, transportWriteTo, ret.
  destruct (Build lib _) as [msg|e]; [|discriminate].
  intros [= H <-]. exists msg. auto.
Qed.

Lemma bindingStage_Done p a w n w' :
  bindingStage lib obs p a w = Done (n, None) w' ->
  exists v raw,
    w' = emit v (EvWriteTo raw (TURNServerAddr obs)) /\
    obs_WriteTo obs (trace v) raw (TURNServerAddr obs) = (n, None) /\
    ((exists x, bindingOf w' a = Some x /\ b_st x = bindingStateReady /\
                raw = ChannelData_Encode lib p (number x)) \/
     (exists msg, Build lib (sendIndicationSetters p a) = inl msg /\ raw = Raw msg)).
Proof.
  unfold bindingStage. intros H.
  apply bindM_Done in H as (b & w1 & Hlook & H).
  apply bindM_Done in H as (st & w2 & Hst & H).
  destruct (decide (st <> bindingStateReady)) as [Hne|Hrdy].
  - apply bindM_Done in H as (st' & w3 & _ & H).
    apply bindM_Done in H as (u & w4 & _ & H).
    apply sendIndication_Done in H as (msg & Hb & Hw & ->).
    exists w4, (Raw msg). split; [reflexivity|]. split; [assumption|].
    right. exists msg. auto.
  - assert (st = bindingStateReady) as -> by (destruct st; try reflexivity; exfalso; apply Hrdy; discriminate).
    unfold binding_state, withBinding, ret in Hst.
    destruct (binds w1 !! b) as [x|] eqn:Hx; [|discriminate].
    injection Hst as Hst <-.
    unfold withBinding, sendChannelData, transportWriteTo in H. rewrite Hx in H.
    injection H as H <-.
    exists w1, (ChannelData_Encode lib p (number x)).
    split; [reflexivity|]. split; [assumption|]. left. exists x.
    split; [|auto]. unfold bindingOf. simpl.
    unfold lookupBinding, findByAddr, bindM, getConn, ret in Hlook. simpl in Hlook.
    destruct (addrMap (bindingMgr (conn w)) !! a) as [b0|] eqn:Ha.
    + injection Hlook as <- <-. rewrite Ha. assumption.
    + unfold create in Hlook. injection Hlook as <- <-. simpl in *.
      rewrite lookup_insert_eq. assumption.
Qed.

(** C6. When [WriteTo] succeeds, the count it returns is the count the
    transport returned for the encoded message it was handed: the channel
    data frame of a ready binding, or the send-indication message built around
    the payload.  With a transport that reports every byte it was handed,
    that is the length of the wire message, not the length of the payload. *)
Theorem WriteTo_returns_transport_count p a w n w' :
  WriteTo lib obs p a w = Done (n, None) w' ->
  exists tr raw,
    trace w' = tr ++ [EvWriteTo raw (TURNServerAddr obs)] /\
    obs_WriteTo obs tr raw (TURNServerAddr obs) = (n, None) /\
    ((exists x, bindingOf w' a = Some x /\ b_st x = bindingStateReady /\
                raw = ChannelData_Encode lib p (number x)) \/
     (exists msg, Build lib (sendIndicationSetters p a) = inl msg /\ raw = Raw msg)) /\
    ((obs_WriteTo obs tr raw (TURNServerAddr obs)).1 = Z.of_nat (length raw) ->
     n = Z.of_nat (length raw)).
Proof.
  unfold WriteTo. destruct a as [ip port|ip port|nw s]; try discriminate.
  intros H. apply bindM_Done in H as (err & w1 & _ & H).
  destruct err as [e|]; [discriminate|].
  apply bindingStage_Done in H as (v & raw & -> & Hn & Hraw).
  exists (trace v), raw. split; [reflexivity|]. split; [assumption|].
  split; [assumption|]. rewrite Hn. auto.
Qed.

(** *** A failed create-permission exchange *)

#[local] Instance trace_extends_preorder : PreOrder trace_extends.
Proof.
  split.
  - intros w. exists []. rewrite app_nil_r. reflexivity.
  - intros w1 w2 w3 [evs1 H1] [evs2 H2]. exists (evs1 ++ evs2).
    rewrite H2, H1, app_assoc. reflexivity.
Qed.

Ltac leaf_trace_extends :=
  unfold trace_extends, emit; simpl;
  first [ exists []; rewrite app_nil_r; reflexivity | eexists [_]; reflexivity ].

Lemma bindingStage_trace_extends p a : respects trace_extends (bindingStage lib obs p a).
Proof. respects_walk leaf_trace_extends. Qed.

(** The exchange comes first among the events of [createPermissions]. *)
Lemma createPermissions_request addrs w msg :
  Build lib (createPermissionSetters obs (conn w) addrs) = inl msg ->
  trace (world_after (createPermissions lib obs addrs w)) =
    trace w ++ [EvPerformTransaction msg (TURNServerAddr obs) false].
Proof.
  intros Hb.
  unfold createPermissions, bindM, getConn, performTransaction, ret, panic. simpl.
  rewrite Hb. repeat case_match; reflexivity.
Qed.

(** A write to an address without permission entry starts with the
    create-permission exchange. *)
Lemma WriteTo_absent_starts_with_exchange p ip port w msg :
  permMap (permMap_ (conn w)) !! UDPAddr ip port = None ->
  Build lib (createPermissionSetters obs (conn w) [UDPAddr ip port]) = inl msg ->
  exists evs,
    trace (world_after (WriteTo lib obs p (UDPAddr ip port) w)) =
      trace w ++ EvPerformTransaction msg (TURNServerAddr obs) false :: evs.
Proof.
  intros Hnone Hb. unfold WriteTo, bindM.
  rewrite (permissionStage_absent _ w Hnone). cbv zeta.
  pose proof (createPermissions_request _ w msg Hb) as Htr.
  pose proof (createPermissions_not_blocked [UDPAddr ip port] w) as Hnb.
  destruct (createPermissions lib obs [UDPAddr ip port] w) as [[e|] w1|m w1|w1];
    simpl in Htr; simpl.
  - exists []. exact Htr.
  - match goal with |- context [bindingStage lib obs p ?a ?v] =>
      destruct (bindingStage_trace_extends p a v) as [evs Hevs] end.
    exists evs. rewrite Hevs. simpl. rewrite Htr, <- app_assoc. reflexivity.
  - exists []. exact Htr.
  - exfalso. eapply Hnb. reflexivity.
Qed.

(** C2. When the create-permission exchange of a [WriteTo] fails, [WriteTo]
    returns [(0, err)] with the error of the exchange and sends nothing; the
    permission entry of the address is gone from the permission map, so that
    a later [WriteTo] to the address finds no entry and starts with a new
    create-permission exchange. *)
Theorem WriteTo_permission_failure p ip port w e w1 :
  permMap (permMap_ (conn w)) !! UDPAddr ip port = None ->
  createPermissions lib obs [UDPAddr ip port] w = Done (Some e) w1 ->
  exists w',
    WriteTo lib obs p (UDPAddr ip port) w = Done (0, Some e) w' /\
    pm_find (permMap_ (conn w')) (UDPAddr ip port) = None /\
    permissionOf w' (UDPAddr ip port) = None /\
    trace w' = trace w1 /\
    forall p' msg,
      Build lib (createPermissionSetters obs (conn w') [UDPAddr ip port]) = inl msg ->
      exists evs,
        trace (world_after (WriteTo lib obs p' (UDPAddr ip port) w')) =
          trace w' ++ EvPerformTransaction msg (TURNServerAddr obs) false :: evs.
Proof.
  intros Hnone Hfail. unfold WriteTo, bindM.
  rewrite (permissionStage_absent _ w Hnone). cbv zeta.
  pose proof (createPermissions_world [UDPAddr ip port] w) as Hw.
  rewrite Hfail in *. simpl in Hw.
  eexists. split; [reflexivity|].
  assert (Hgone : pm_find
            (permMap_ (conn (set_perms w1
               (<[fresh (dom (perms w)) := idlePermission]> (perms w)))))
            (UDPAddr ip port) = None).
  { rewrite Hw. simpl. exact Hnone. }
  split; [exact Hgone|]. split; [unfold permissionOf; rewrite Hgone; reflexivity|].
  split; [reflexivity|].
  intros p' msg Hb. apply WriteTo_absent_starts_with_exchange; assumption.
Qed.

(** *** A failed channel-bind exchange *)

(** When the transaction runner reports an error and hands back no message,
    [bind] forgets the binding in the manager and then reads the type of the
    missing response: it panics. *)
Lemma bind_transaction_error_nil_msg b x w msg e :
  binds w !! b = Some x ->
  Build lib (bindSetters obs (conn w) x) = inl msg ->
  PerformTransaction obs (trace w) msg (TURNServerAddr obs) false
    = ({| Msg := None |}, Some e) ->
  exists w',
    bind lib obs b w = Panic nilDeref w' /\
    addrMap (bindingMgr (conn w')) !! addr x = None /\
    trace w' = trace w ++ [EvPerformTransaction msg (TURNServerAddr obs) false].
Proof.
  intros Hb Hbuild Hpt. rewrite (bind_unfold b x w Hb), Hbuild. cbv zeta.
  rewrite Hpt. simpl. eexists. split; [reflexivity|]. split; [|reflexivity].
  simpl. rewrite bm_deleteByAddr_addrMap. apply lookup_delete_eq.
Qed.

(** When the runner reports an error together with a success response, [bind]
    forgets the binding in the manager and reports success all the same. *)
Lemma bind_transaction_error_with_msg b x w msg res e :
  binds w !! b = Some x ->
  Build lib (bindSetters obs (conn w) x) = inl msg ->
  PerformTransaction obs (trace w) msg (TURNServerAddr obs) false
    = ({| Msg := Some res |}, Some e) ->
  Type_ res = NewType MethodChannelBind ClassSuccessResponse ->
  exists w',
    bind lib obs b w = Done None w' /\
    addrMap (bindingMgr (conn w')) !! addr x = None.
Proof.
  intros Hb Hbuild Hpt Hty. rewrite (bind_unfold b x w Hb), Hbuild. cbv zeta.
  rewrite Hpt. simpl. destruct (decide _) as [_|]; [|contradiction].
  eexists. split; [reflexivity|].
  simpl. rewrite bm_deleteByAddr_addrMap. apply lookup_delete_eq.
Qed.

(** The part of C1 that the code keeps: a response that is not the success
    response of the channel bind makes [bind] fail without touching the
    manager; [WriteTo] logs the failure, marks the new binding failed and
    sends the payload in a send-indication message, whose result it returns. *)
Lemma bindingStage_bind_refused p a w msg res imsg :
  addrMap (bindingMgr (conn w)) !! a = None ->
  Build lib (bindSetters obs (conn w) (newBinding w a)) = inl msg ->
  PerformTransaction obs (trace w) msg (TURNServerAddr obs) false
    = ({| Msg := Some res |}, None) ->
  Type_ res <> NewType MethodChannelBind ClassSuccessResponse ->
  Build lib (sendIndicationSetters p a) = inl imsg ->
  let failure := Errorf ("unexpected response type " +:+ MessageType_String lib (Type_ res)) in
  let tr := trace w ++ [EvPerformTransaction msg (TURNServerAddr obs) false;
                        EvLog LWarn ("bind() failed: " +:+ Error failure)] in
  exists w',
    bindingStage lib obs p a w
      = Done (obs_WriteTo obs tr (Raw imsg) (TURNServerAddr obs)) w' /\
    bindingOf w' a = Some (set_b_st (newBinding w a) bindingStateFailed) /\
    trace w' = tr ++ [EvWriteTo (Raw imsg) (TURNServerAddr obs)].
Proof.
  intros Ha Hbuild Hpt Hty Hib failure tr.
  rewrite (bindingStage_absent p a w Ha). unfold bindM at 1.
  rewrite (ensureBinding_idle _ (newBinding w a) _ (lookup_insert_eq _ _ _) eq_refl eq_refl).
  rewrite (bind_unfold _ (set_b_mutex (newBinding w a) true) _ (lookup_insert_eq _ _ _)).
  unfold bindSetters, newBinding in *. simpl in *. rewrite Hbuild. cbv zeta.
  rewrite Hpt. simpl.
  destruct (decide _) as [|_]; [contradiction|].
  unfold sendIndication. rewrite Hib. unfold transportWriteTo. simpl.
  eexists. split; [subst tr; rewrite <- ?app_assoc; reflexivity|].
  split.
  - unfold bindingOf. simpl. rewrite !lookup_insert_eq. reflexivity.
  - subst tr. simpl. rewrite <- ?app_assoc. reflexivity.
Qed.

(** *** Closing *)

Lemma countEvents_app f tr evs :
  countEvents f (tr ++ evs) = (countEvents f tr + countEvents f evs)%nat.
Proof. unfold countEvents. rewrite List.filter_app, length_app. reflexivity. Qed.

Lemma countEvents_calm evs :
  Forall calm evs ->
  countEvents isTeardownExchange evs = 0%nat /\ countEvents isOnDeallocated evs = 0%nat.
Proof.
  induction 1 as [|e evs [He1 He2] _ [IH1 IH2]]; [split; reflexivity|].
  unfold countEvents in *. simpl. rewrite He1, He2. auto.
Qed.

(** What [Close] returns and the world it leaves. *)
Lemma Close_unfold w :
  Close lib obs w =
    let stopped := set_conn w (set_refreshTimers (conn w)
                     (PeriodicTimer_Stop (refreshAllocTimer (conn w)))
                     (PeriodicTimer_Stop (refreshPermsTimer (conn w)))) in
    if closeCh (conn w) then Done (Some (Errorf "already closed")) stopped
    else
      let w1 := set_conn stopped (set_closeCh (conn stopped) true) in
      let w2 :=
        match Build lib (refreshSetters 0) with
        | inr e => emit w1 (EvLog LError ("failed to build refresh request: " +:+ Error e))
        | inl msg =>
            let w3 := emit w1 (EvPerformTransaction msg (TURNServerAddr obs) true) in
            match (PerformTransaction obs (trace w) msg (TURNServerAddr obs) true).2 with
            | Some e => emit w3 (EvLog LError ("failed to refresh refresh: " +:+ Error e))
            | None => w3
            end
        end in
      Done None (emit w2 (EvOnDeallocated (relayedAddr (conn w)))).
Proof.
  unfold Close, refreshAllocation, onDeallocated, performTransaction, logf, modifyConn,
    modify, bindM, getConn, ret.
  simpl. destruct (closeCh (conn w)); [reflexivity|].
  destruct (Build lib (refreshSetters 0)) as [msg|e]; [|reflexivity].
  simpl. destruct (PerformTransaction obs (trace w) msg (TURNServerAddr obs) true).2;
    reflexivity.
Qed.

Section Closing.

Variable config : UDPConnConfig.
Variable teardown : Message.
Hypothesis teardown_built : Build lib (refreshSetters 0) = inl teardown.

Lemma Close_teardown_recorded w :
  teardown_recorded config w ->
  teardown_recorded config (world_after (Close lib obs w)) /\
  closeCh (conn (world_after (Close lib obs w))) = true.
Proof.
  intros (Hra & Ht & Hd). rewrite Close_unfold. cbv zeta.
  destruct (closeCh (conn w)) eqn:Hc.
  - simpl. unfold teardown_recorded. simpl. rewrite Hc. auto.
  - rewrite teardown_built.
    destruct (PerformTransaction obs (trace w) teardown (TURNServerAddr obs) true).2;
      simpl; unfold teardown_recorded; simpl;
      rewrite !countEvents_app, Ht, Hd; auto.
Qed.

Lemma step_teardown_recorded op w w' :
  teardown_recorded config w -> step lib obs op w w' ->
  teardown_recorded config w' /\
  closeCh (conn w') = closeCh (conn w) || bool_decide (op = OpClose).
Proof.
  intros HT Hstep. pose proof (step_world _ _ _ Hstep) as ->.
  destruct (decide (op = OpClose)) as [->|Hne].
  - unfold exec, bindM, ret.
    destruct (Close_teardown_recorded w HT) as [HT' Hc].
    rewrite Close_unfold in *. cbv zeta in *.
    destruct (closeCh (conn w)); simpl in *; split; auto.
  - destruct (exec_no_teardown op Hne w) as (Hc & Hra & evs & Htr & Hcalm).
    destruct HT as (Hra0 & Ht & Hd).
    destruct (countEvents_calm evs Hcalm) as [Hz1 Hz2].
    rewrite bool_decide_eq_false_2 by assumption. rewrite orb_false_r.
    split; [|assumption].
    unfold teardown_recorded. rewrite Hc, Hra, Htr, !countEvents_app, Hz1, Hz2, !Nat.add_0_r.
    auto.
Qed.

Lemma steps_teardown_recorded w ops w' :
  teardown_recorded config w -> steps lib obs w ops w' ->
  teardown_recorded config w' /\
  closeCh (conn w') = closeCh (conn w) || bool_decide (OpClose ∈ ops).
Proof.
  intros HT Hsteps. induction Hsteps as [w|w op w1 ops w2 Hstep Hsteps IH].
  - split; [assumption|].
    rewrite bool_decide_eq_false_2 by (apply not_elem_of_nil). rewrite orb_false_r.
    reflexivity.
  - destruct (step_teardown_recorded op w w1 HT Hstep) as [HT1 Hc1].
    destruct (IH HT1) as [HT2 Hc2]. split; [assumption|].
    rewrite Hc2, Hc1, <- orb_assoc. f_equal.
    destruct (decide (op = OpClose)) as [->|Hne].
    + rewrite (bool_decide_eq_true_2 (OpClose = OpClose)) by reflexivity.
      rewrite (bool_decide_eq_true_2 (OpClose ∈ OpClose :: ops))
        by apply list_elem_of_here.
      reflexivity.
    + rewrite (bool_decide_eq_false_2 (op = OpClose)) by assumption. simpl.
      apply bool_decide_ext. rewrite elem_of_cons. split; [auto|].
      intros [H|H]; [congruence | assumption].
Qed.

Lemma NewUDPConn_teardown_recorded t0 : teardown_recorded config (NewUDPConn config t0).
Proof. repeat split. Qed.

(** C7. On an endpoint whose history [ops] holds no [Close], a call of
    [Close] returns nil, hands the teardown refresh to the transaction runner
    without waiting and then notifies the owner with the relayed address; on an
    endpoint that was closed before, it returns the "already closed" error
    and the trace is left as it was.  In both cases the trace then holds
    exactly one teardown exchange and exactly one [OnDeallocated]. *)
Theorem Close_once t0 ops w :
  steps lib obs (NewUDPConn config t0) ops w ->
  exists w',
    Close lib obs w =
      Done (if bool_decide (OpClose ∈ ops) then Some (Errorf "already closed") else None) w' /\
    countEvents isTeardownExchange (trace w') = 1%nat /\
    countEvents isOnDeallocated (trace w') = 1%nat /\
    (OpClose ∈ ops -> trace w' = trace w) /\
    (OpClose ∉ ops ->
     trace w' =
       trace w ++ EvPerformTransaction teardown (TURNServerAddr obs) true
         :: match (PerformTransaction obs (trace w) teardown (TURNServerAddr obs) true).2 with
            | Some e => [EvLog LError ("failed to refresh refresh: " +:+ Error e)]
            | None => []
            end
         ++ [EvOnDeallocated (cfg_RelayedAddr config)]).
Proof.
  intros Hsteps.
  destruct (steps_teardown_recorded _ _ _ (NewUDPConn_teardown_recorded t0) Hsteps)
    as [HT Hc].
  simpl in Hc.
  destruct (Close_teardown_recorded w HT) as [(_ & Ht' & Hd') Hc'].
  rewrite Hc' in Ht', Hd'.
  destruct HT as (Hra & _ & _).
  rewrite Close_unfold in *. cbv zeta in *. rewrite Hc in *.
  destruct (bool_decide (OpClose ∈ ops)) eqn:Hin.
  - apply bool_decide_eq_true_1 in Hin.
    eexists. split; [reflexivity|]. repeat split; try assumption.
    intros Hnot. contradiction.
  - apply bool_decide_eq_false_1 in Hin.
    eexists. split; [reflexivity|]. repeat split; try assumption.
    + intros Hyes. contradiction.
    + intros _. rewrite teardown_built, <- Hra.
      destruct (PerformTransaction obs (trace w) teardown (TURNServerAddr obs) true).2;
        simpl; rewrite <- ?app_assoc; reflexivity.
Qed.

End Closing.

(** *** The allocation-refresh timer *)

Lemma NewUDPConn_period config t0 :
  pt_interval (refreshAllocTimer (conn (NewUDPConn config t0)))
    = Z.quot (cfg_Lifetime config) 2 /\
  pt_id (refreshAllocTimer (conn (NewUDPConn config t0))) = timerIDRefreshAlloc.
Proof. split; reflexivity. Qed.

Lemma steps_period w ops w' : steps lib obs w ops w' -> period_kept w w'.
Proof.
  induction 1 as [w|w op w1 ops w2 Hstep _ IH]; [reflexivity|].
  etransitivity; [|exact IH].
  rewrite (step_world _ _ _ Hstep). apply exec_period.
Qed.

Lemma reachable_period config w :
  reachable lib obs config w ->
  pt_interval (refreshAllocTimer (conn w)) = Z.quot (cfg_Lifetime config) 2 /\
  pt_id (refreshAllocTimer (conn w)) = timerIDRefreshAlloc.
Proof.
  intros (t0 & ops & Hsteps).
  destruct (steps_period _ _ _ Hsteps) as [Hi Hid].
  destruct (NewUDPConn_period config t0) as [Hi0 Hid0].
  split; congruence.
Qed.

(** A refresh exchange that succeeds stores the lifetime the server granted. *)
Lemma refreshAllocation_success l w msg res d :
  Build lib (refreshSetters l) = inl msg ->
  PerformTransaction obs (trace w) msg (TURNServerAddr obs) false
    = ({| Msg := Some res |}, None) ->
  Lifetime_GetFrom lib res = inl d ->
  refreshAllocation lib obs l false w =
    Done tt (emit (set_conn (emit w (EvPerformTransaction msg (TURNServerAddr obs) false))
                     (set_lifetime (conn w) d))
               (EvLog LDebug "updated lifetime")).
Proof.
  intros Hb Hpt Hl.
  unfold refreshAllocation, performTransaction, modifyConn, modify, logf, bindM, ret.
  rewrite Hb. simpl. rewrite Hpt. simpl. rewrite Hl. reflexivity.
Qed.

(** C9, amended.  The period of the allocation-refresh timer is half the
    lifetime the endpoint was constructed with, and stays so: when the timer
    fires and the refresh exchange succeeds, the stored lifetime becomes the
    one the server granted, and the next refresh is due half the
    construction-time lifetime later. *)
Theorem refresh_period_fixed config w msg res d :
  reachable lib obs config w ->
  pt_running (refreshAllocTimer (conn w)) = true ->
  pt_due (refreshAllocTimer (conn w)) <= now w ->
  Build lib (refreshSetters (lifetime (conn w))) = inl msg ->
  PerformTransaction obs (trace w ++ [EvLog LDebug "refresh timer expired"]) msg
    (TURNServerAddr obs) false = ({| Msg := Some res |}, None) ->
  Lifetime_GetFrom lib res = inl d ->
  pt_interval (refreshAllocTimer (conn w)) = Z.quot (cfg_Lifetime config) 2 /\
  exists w',
    fireRefreshAlloc lib obs w = Done tt w' /\
    lifetime (conn w') = d /\
    pt_interval (refreshAllocTimer (conn w')) = Z.quot (cfg_Lifetime config) 2 /\
    pt_due (refreshAllocTimer (conn w')) = now w' + Z.quot (cfg_Lifetime config) 2.
Proof.
  intros Hreach Hrun Hdue Hb Hpt Hl.
  destruct (reachable_period config w Hreach) as [Hi Hid].
  split; [exact Hi|].
  unfold fireRefreshAlloc, bindM at 1, get. rewrite Hrun.
  destruct (Z.leb_spec (pt_due (refreshAllocTimer (conn w))) (now w)) as [_|Hbad]; [|lia].
  simpl. rewrite Hid.
  unfold onRefreshTimers, bindM, logf, modify, getConn. simpl.
  erewrite refreshAllocation_success; [|exact Hb|exact Hpt|exact Hl].
  eexists. split; [reflexivity|]. simpl. rewrite Hi. auto.
Qed.

(** *** The step-by-step [WriteTo] run alone is [WriteTo] *)

Lemma same_outcome_refl {A} (o : Outcome A) : same_outcome o o.
Proof. destruct o; simpl; auto. Qed.

Lemma binding_Unlock_not_blocked b w w' : binding_Unlock b w <> Blocked w'.
Proof.
  unfold binding_Unlock, withBinding, modify. destruct (binds w !! b); discriminate.
Qed.

Lemma perm_Unlock_not_blocked q w w' : perm_Unlock q w <> Blocked w'.
Proof.
  unfold perm_Unlock, withPerm, modify. destruct (perms w !! q); discriminate.
Qed.

(** Take the outcomes apart, the primitive actions kept whole. *)
Ltac outcomes :=
  unfold bindM, defer, ret;
  repeat (cbn [run_thread same_outcome]; cbv beta;
          match goal with
          | H : binding_Unlock _ _ = Blocked _ |- _ =>
              exfalso; exact (binding_Unlock_not_blocked _ _ _ H)
          | H : perm_Unlock _ _ = Blocked _ |- _ =>
              exfalso; exact (perm_Unlock_not_blocked _ _ _ H)
          | |- same_outcome ?o ?o => apply same_outcome_refl
          | |- True => exact I
          | |- _ /\ _ => split; reflexivity
          | |- context [match ?o with Done _ _ => _ | Panic _ _ => _ | Blocked _ => _ end] =>
              lazymatch o with
              | context [match _ with _ => _ end] => fail
              | _ => let H := fresh "H" in destruct o eqn:H
              end
          | |- context [match ?o with Some _ => _ | None => _ end] =>
              lazymatch o with
              | context [match _ with _ => _ end] => fail
              | _ => destruct o
              end
          | |- context [match ?o with inl _ => _ | inr _ => _ end] =>
              lazymatch o with
              | context [match _ with _ => _ end] => fail
              | _ => destruct o
              end
          | |- context [decide ?P] => destruct (decide P)
          end).

Lemma bindingStage_thread p a w :
  same_outcome (run_thread (WriteTo_binding_thread lib obs p a) w)
               (bindingStage lib obs p a w).
Proof.
  unfold WriteTo_binding_thread, bindingStage, lookupBinding, ensureBinding,
    sendIndication.
  outcomes; unfold ret; simpl; auto.
Qed.

Lemma WriteTo_thread_alone p a w :
  same_outcome (run_thread (WriteTo_thread lib obs p a) w) (WriteTo lib obs p a w).
Proof.
  unfold WriteTo_thread, WriteTo, permissionStage, lookupPermission, ensurePermission.
  destruct a as [ip port|ip port|nw s]; try (simpl; auto; fail).
  pose proof (bindingStage_thread p (UDPAddr ip port)) as HB.
  outcomes; try apply HB; unfold ret; simpl; auto.
Qed.

(** *** The exchanges of a first write *)

Lemma countRequests_app m tr evs :
  countRequests m (tr ++ evs) = (countRequests m tr + countRequests m evs)%nat.
Proof. unfold countRequests. rewrite List.filter_app, length_app. reflexivity. Qed.

Lemma isRequest_typed m msg to dw t :
  Type_ msg = t -> isRequest m (EvPerformTransaction msg to dw) = bool_decide (t = NewType m ClassRequest).
Proof. intros <-. reflexivity. Qed.

(** The events of the binding stage for an address without binding: at most
    one exchange, a channel bind. *)
Lemma bindingStage_absent_requests p a w :
  addrMap (bindingMgr (conn w)) !! a = None ->
  exists evs,
    trace (world_after (bindingStage lib obs p a w)) = trace w ++ evs /\
    countRequests MethodCreatePermission evs = 0%nat /\
    (countRequests MethodChannelBind evs <= 1)%nat.
Proof.
  intros Ha. rewrite (bindingStage_absent p a w Ha). unfold bindM at 1.
  rewrite (ensureBinding_idle _ (newBinding w a) _ (lookup_insert_eq _ _ _) eq_refl eq_refl).
  rewrite (bind_unfold _ (set_b_mutex (newBinding w a) true) _ (lookup_insert_eq _ _ _)).
  unfold sendIndication, transportWriteTo, ret.
  destruct (Build lib (bindSetters obs _ _)) as [msg|e] eqn:Hb.
  - pose proof (bind_msg_type _ _ _ Hb) as Hty. cbv zeta.
    assert (Hc : isRequest MethodCreatePermission
                   (EvPerformTransaction msg (TURNServerAddr obs) false) = false)
      by (rewrite (isRequest_typed _ _ _ _ _ Hty); reflexivity).
    assert (Hc' : isRequest MethodChannelBind
                   (EvPerformTransaction msg (TURNServerAddr obs) false) = true)
      by (rewrite (isRequest_typed _ _ _ _ _ Hty); reflexivity).
    destruct (PerformTransaction obs _ msg (TURNServerAddr obs) false)
      as [[[res|]] [e|]]; simpl;
      try destruct (decide _); simpl;
      destruct (Build lib (sendIndicationSetters p a)); simpl;
      rewrite <- ?app_assoc; eexists; (split; [reflexivity|]);
      unfold countRequests; simpl; rewrite ?Hty; simpl; split; lia.
  - destruct (Build lib (sendIndicationSetters p a)); simpl;
      rewrite <- ?app_assoc; eexists; (split; [reflexivity|]);
      unfold countRequests; simpl; split; lia.
Qed.

(** The sequential half of C10: on an endpoint at rest, the first write to
    an address without permission triggers exactly one create-permission
    exchange and at most one channel-bind exchange. *)
Lemma first_WriteTo_exchanges p ip port w msg :
  Inv w ->
  permMap (permMap_ (conn w)) !! UDPAddr ip port = None ->
  Build lib (createPermissionSetters obs (conn w) [UDPAddr ip port]) = inl msg ->
  let w' := world_after (WriteTo lib obs p (UDPAddr ip port) w) in
  countRequests MethodCreatePermission (trace w')
    = S (countRequests MethodCreatePermission (trace w)) /\
  (countRequests MethodChannelBind (trace w')
    <= S (countRequests MethodChannelBind (trace w)))%nat.
Proof.
  intros HI Hnone Hb w'. subst w'.
  assert (Hnob : addrMap (bindingMgr (conn w)) !! UDPAddr ip port = None).
  { destruct (addrMap (bindingMgr (conn w)) !! UDPAddr ip port) as [b|] eqn:Ha;
      [|reflexivity].
    destruct (proj1 (inv_bind_perm w HI _ b Ha)) as [q Hq]. congruence. }
  pose proof (createPermissions_msg_type _ _ _ Hb) as Hty.
  assert (Hc : countRequests MethodCreatePermission
                 [EvPerformTransaction msg (TURNServerAddr obs) false] = 1%nat)
    by (unfold countRequests; simpl; rewrite Hty; reflexivity).
  assert (Hc' : countRequests MethodChannelBind
                 [EvPerformTransaction msg (TURNServerAddr obs) false] = 0%nat)
    by (unfold countRequests; simpl; rewrite Hty; reflexivity).
  unfold WriteTo, bindM.
  rewrite (permissionStage_absent _ w Hnone). cbv zeta.
  pose proof (createPermissions_request _ w msg Hb) as Htr.
  pose proof (createPermissions_world [UDPAddr ip port] w) as Hw.
  destruct (createPermissions lib obs [UDPAddr ip port] w) as [[e|] w1|m w1|w1];
    simpl in Htr, Hw; simpl;
    try (rewrite Htr, !countRequests_app, Hc, Hc'; split; lia).
  match goal with |- context [bindingStage lib obs p ?a ?v] =>
    destruct (bindingStage_absent_requests p a v) as (evs & Hevs & Hz & Hle) end.
  { rewrite Hw. simpl. exact Hnob. }
  rewrite Hevs. simpl. rewrite Htr, !countRequests_app, Hc, Hc', Hz. split; lia.
Qed.

End WritePath.

(** ** Scenarios *)

(** Split the conjunction and settle every part by evaluation. *)
Ltac conj_compute :=
  repeat match goal with |- _ /\ _ => split end; vm_compute; reflexivity.

Lemma steps_exec_all lib obs ops : forall w,
  Sample.runs_ok lib obs ops w = true ->
  steps lib obs w ops (Sample.exec_all lib obs ops w).
Proof.
  induction ops as [|op rest IH]; intros w Hok; simpl in *.
  - constructor.
  - econstructor; [|apply IH].
    + unfold step. destruct (exec lib obs op w); simpl; [reflexivity|discriminate|reflexivity].
    + destruct (exec lib obs op w); simpl; [assumption|discriminate|assumption].
Qed.

Lemma step_WriteTo lib obs p a w r :
  returns (WriteTo lib obs p a w) r ->
  step lib obs (OpWriteTo p a) w (world_after (WriteTo lib obs p a w)).
Proof.
  unfold step, exec, bindM, ret.
  destruct (WriteTo lib obs p a w); simpl; [reflexivity | contradiction | contradiction].
Qed.

Lemma fresh_world_reachable obs ops :
  Sample.runs_ok Sample.lib obs ops Sample.fresh_world = true ->
  reachable Sample.lib obs (Sample.config 600)
    (Sample.exec_all Sample.lib obs ops Sample.fresh_world).
Proof. intros Hok. exists 1000, ops. apply steps_exec_all. exact Hok. Qed.

(** C1 fails on the code.  The transaction layer gives up on the channel
    bind and hands back an error and no message: [WriteTo] panics on the nil
    message, nothing is handed to the transport, and the binding is gone
    from the manager. *)
Theorem WriteTo_bind_transaction_error_panics :
  exists w',
    WriteTo Sample.lib Sample.lossy Sample.payload Sample.peerA Sample.fresh_world
      = Panic nilDeref w' /\
    countEvents isTransportWrite (trace w') = 0%nat /\
    countEvents (isLog LWarn) (trace w') = 0%nat /\
    bindingOf w' Sample.peerA = None.
Proof. eexists. run_compute. Qed.

(** The same slip with a runner that reports an error next to a success
    response: the binding object is marked ready, but the manager has
    forgotten it, and the next write binds a channel again. *)
Lemma WriteTo_bind_error_marks_ready :
  exists w',
    WriteTo Sample.lib Sample.confused Sample.payload Sample.peerA Sample.fresh_world
      = Done (47, None) w' /\
    bindingOf w' Sample.peerA = None /\
    binds w' !! 0%nat = Some Sample.bound_binding /\
    countRequests MethodChannelBind (trace w') = 1%nat /\
    countRequests MethodChannelBind
      (trace (world_after
         (WriteTo Sample.lib Sample.confused Sample.payload Sample.peerA w'))) = 2%nat.
Proof. eexists. run_compute. Qed.

(** Where the server refuses the channel bind, the claim holds: the failure
    is logged, the binding is marked failed, and the payload goes out in a
    send-indication message; so does the payload of the next write. *)
Lemma WriteTo_bind_refused_falls_back :
  exists w' w'',
    WriteTo Sample.lib Sample.unbinding Sample.payload Sample.peerA Sample.fresh_world
      = Done (47, None) w' /\
    bindingOf w' Sample.peerA
      = Some (set_b_st Sample.bound_binding bindingStateFailed) /\
    countEvents (isLog LWarn) (trace w') = 1%nat /\
    WriteTo Sample.lib Sample.unbinding Sample.payload Sample.peerA w'
      = Done (47, None) w'' /\
    countRequests MethodChannelBind (trace w'') = 1%nat /\
    countEvents isTransportWrite (trace w'') = 2%nat.
Proof. eexists. eexists. run_compute. Qed.

(** C10 fails on the code.  Two goroutines write to the same new peer; each
    looks up the permission before the other has inserted one, so each
    inserts and locks a permission of its own, and each performs the
    create-permission exchange; the same happens with the binding.  Two
    create-permission requests and two channel-bind requests reach the
    transaction runner. *)
Theorem concurrent_first_writes_duplicate_exchanges :
  Sample.results_of Sample.racing_run = [Some (47, None); Some (47, None)] /\
  countRequests MethodCreatePermission (trace (Sample.world_of Sample.racing_run)) = 2%nat /\
  countRequests MethodChannelBind (trace (Sample.world_of Sample.racing_run)) = 2%nat /\
  countRequests MethodCreatePermission (trace Sample.fresh_world) = 0%nat /\
  countRequests MethodChannelBind (trace Sample.fresh_world) = 0%nat.
Proof. run_compute. Qed.

(** The same two writes one after the other: one exchange of each kind, and
    the second write goes over the channel. *)
Lemma serial_first_writes_single_exchanges :
  Sample.results_of Sample.serial_run = [Some (47, None); Some (9, None)] /\
  countRequests MethodCreatePermission (trace (Sample.world_of Sample.serial_run)) = 1%nat /\
  countRequests MethodChannelBind (trace (Sample.world_of Sample.serial_run)) = 1%nat.
Proof. run_compute. Qed.

(** The claim C9 fails as stated: the endpoint was constructed with 600
    seconds, the timer fires after 300, the server grants 300; the stored
    lifetime is then 300 seconds, and the timer's period is still 300
    seconds, not 150: the next refresh is due 300 seconds later. *)
Lemma refresh_period_not_rescheduled :
  exists w',
    fireRefreshAlloc Sample.lib (Sample.friendly 300) Sample.due_world = Done tt w' /\
    lifetime (conn w') = 300 * Second /\
    Z.quot (lifetime (conn w')) 2 = 150 * Second /\
    pt_interval (refreshAllocTimer (conn w')) = 300 * Second /\
    pt_due (refreshAllocTimer (conn w')) = now w' + 300 * Second.
Proof. eexists. run_compute. Qed.

(** ** The theorems at concrete inputs *)

Lemma WriteTo_permission_failure_witness :
  exists w',
    WriteTo Sample.lib Sample.refusing Sample.payload Sample.peerA Sample.fresh_world
      = Done (0, Some (Errorf "error response (error 403)")) w' /\
    pm_find (permMap_ (conn w')) Sample.peerA = None /\
    permissionOf w' Sample.peerA = None.
Proof.
  assert (Habsent : permMap (permMap_ (conn Sample.fresh_world)) !! Sample.peerA = None)
    by (vm_compute; reflexivity).
  assert (Hfail : createPermissions Sample.lib Sample.refusing [Sample.peerA]
                    Sample.fresh_world
                  = Done (Some (Errorf "error response (error 403)"))
                      (world_after (createPermissions Sample.lib Sample.refusing
                                      [Sample.peerA] Sample.fresh_world)))
    by (apply returns_world_after; vm_compute; reflexivity).
  destruct (WriteTo_permission_failure Sample.lib Sample.refusing Sample.payload
              _ _ _ _ _ Habsent Hfail) as (w' & Hw & Hgone & Hperm & _).
  exists w'. split; [exact Hw|]. split; assumption.
Defined.

Lemma WriteTo_ready_uses_channel_witness :
  let raw := ChannelData_Encode Sample.lib Sample.payload (number Sample.bound_binding) in
  WriteTo Sample.lib (Sample.friendly 600) Sample.payload Sample.peerA Sample.later_world
    = Done (obs_WriteTo (Sample.friendly 600) (trace Sample.later_world) raw
              (TURNServerAddr (Sample.friendly 600)))
        (emit Sample.later_world (EvWriteTo raw (TURNServerAddr (Sample.friendly 600)))) /\
  trace (emit Sample.later_world (EvWriteTo raw (TURNServerAddr (Sample.friendly 600))))
    = trace Sample.later_world ++ [EvWriteTo raw (TURNServerAddr (Sample.friendly 600))].
Proof.
  assert (Hreach : reachable Sample.lib (Sample.friendly 600) (Sample.config 600)
                     Sample.bound_world).
  { exists 1000, [OpWriteTo Sample.payload Sample.peerA].
    econstructor; [|constructor].
    apply (step_WriteTo _ _ _ _ _ (47, None)). vm_compute. reflexivity. }
  assert (Hbound : bindingOf Sample.bound_world Sample.peerA = Some Sample.bound_binding)
    by (vm_compute; reflexivity).
  assert (Hsteps : steps Sample.lib (Sample.friendly 600) Sample.bound_world
                     Sample.later_ops Sample.later_world).
  { apply steps_exec_all. vm_compute. reflexivity. }
  exact (WriteTo_ready_uses_channel Sample.lib (Sample.friendly 600) (Sample.config 600)
           Sample.bound_world Sample.peerA Sample.bound_binding Sample.later_ops
           Sample.later_world Sample.payload Hreach Hbound eq_refl Hsteps).
Defined.

Lemma WriteTo_returns_transport_count_witness :
  exists tr raw,
    trace Sample.bound_world = tr ++ [EvWriteTo raw Sample.server] /\
    length raw = 47%nat /\ length Sample.payload = 5%nat.
Proof.
  unfold Sample.bound_world.
  assert (Hret : returns (WriteTo Sample.lib (Sample.friendly 600) Sample.payload
                            Sample.peerA Sample.fresh_world) (47, None))
    by (vm_compute; reflexivity).
  destruct (WriteTo_returns_transport_count Sample.lib (Sample.friendly 600)
              Sample.payload Sample.peerA Sample.fresh_world 47 _
              (returns_world_after _ _ Hret))
    as (tr & raw & Htr & Hn & _ & Hlen).
  exists tr, raw. split; [exact Htr|]. split; [|reflexivity].
  apply Nat2Z.inj. symmetry. apply Hlen. reflexivity.
Defined.

Lemma Close_once_witness :
  exists w',
    Close Sample.lib (Sample.friendly 600) Sample.closed_world
      = Done (Some (Errorf "already closed")) w' /\
    countEvents isTeardownExchange (trace w') = 1%nat /\
    countEvents isOnDeallocated (trace w') = 1%nat /\
    trace w' = trace Sample.closed_world.
Proof.
  assert (Hbuilt : Build Sample.lib (refreshSetters 0) = inl Sample.teardown)
    by (vm_compute; reflexivity).
  assert (Hsteps : steps Sample.lib (Sample.friendly 600)
                     (NewUDPConn (Sample.config 600) 1000) [OpClose] Sample.closed_world).
  { apply steps_exec_all. vm_compute. reflexivity. }
  destruct (Close_once Sample.lib (Sample.friendly 600) (Sample.config 600)
              Sample.teardown Hbuilt 1000 [OpClose] Sample.closed_world Hsteps)
    as (w' & Hw & Ht & Hd & Hsame & _).
  exists w'. split; [exact Hw|]. split; [exact Ht|]. split; [exact Hd|].
  apply Hsame. apply list_elem_of_here.
Defined.

Lemma read_deadline_amended_witness :
  (exists w1 w2 e,
     SetReadDeadline 500 Sample.fresh_world = Done None w1 /\
     ReadFrom CaseReadCh Sample.small_buffer w1 =
       Done {| rr_n := 0; rr_addr := None; rr_err := Some e;
               rr_buf := Sample.small_buffer |} w2 /\
     Timeout e = true /\
     Timeout ErrShortBuffer = false /\
     Timeout (closedError (conn Sample.fresh_world)) = false) /\
  (exists w1,
     SetReadDeadline noDeadline Sample.fresh_world = Done None w1 /\
     forall r w2 e,
       ReadFrom CaseReadTimer Sample.small_buffer (set_now w1 (3600 * Second))
         = Done r w2 ->
       rr_err r = Some e -> Timeout e = false).
Proof.
  split.
  - apply (proj1 read_deadline_amended Sample.fresh_world 500 CaseReadCh
             Sample.small_buffer).
    + discriminate.
    + vm_compute. discriminate.
    + reflexivity.
    + reflexivity.
    + reflexivity.
  - apply (proj2 read_deadline_amended Sample.fresh_world CaseReadTimer
             Sample.small_buffer (3600 * Second)).
    + vm_compute. reflexivity.
    + vm_compute. discriminate.
    + vm_compute. discriminate.
    + vm_compute. reflexivity.
Defined.

Lemma refresh_period_fixed_witness :
  pt_interval (refreshAllocTimer (conn Sample.due_world))
    = Z.quot (cfg_Lifetime (Sample.config 600)) 2 /\
  exists w',
    fireRefreshAlloc Sample.lib (Sample.friendly 300) Sample.due_world = Done tt w' /\
    lifetime (conn w') = 300 * Second /\
    pt_interval (refreshAllocTimer (conn w')) = Z.quot (cfg_Lifetime (Sample.config 600)) 2 /\
    pt_due (refreshAllocTimer (conn w')) = now w' + Z.quot (cfg_Lifetime (Sample.config 600)) 2.
Proof.
  assert (Hreach : reachable Sample.lib (Sample.friendly 300) (Sample.config 600)
                     Sample.due_world).
  { apply (fresh_world_reachable (Sample.friendly 300) [OpAdvance (300 * Second)]).
    vm_compute. reflexivity. }
  assert (Hrun : pt_running (refreshAllocTimer (conn Sample.due_world)) = true)
    by (vm_compute; reflexivity).
  assert (Hdue : pt_due (refreshAllocTimer (conn Sample.due_world)) <= now Sample.due_world)
    by (vm_compute; discriminate).
  assert (Hb : Build Sample.lib (refreshSetters (lifetime (conn Sample.due_world)))
               = inl Sample.refresh_request) by (vm_compute; reflexivity).
  assert (Hpt : PerformTransaction (Sample.friendly 300)
                  (trace Sample.due_world ++ [EvLog LDebug "refresh timer expired"])
                  Sample.refresh_request (TURNServerAddr (Sample.friendly 300)) false
                = ({| Msg := Some Sample.refresh_response |}, None))
    by (vm_compute; reflexivity).
  assert (Hl : Lifetime_GetFrom Sample.lib Sample.refresh_response = inl (300 * Second))
    by (vm_compute; reflexivity).
  exact (refresh_period_fixed Sample.lib (Sample.friendly 300) (Sample.config 600)
           Sample.due_world Sample.refresh_request Sample.refresh_response (300 * Second)
           Hreach Hrun Hdue Hb Hpt Hl).
Defined.

(** * More of the endpoint *)

(** ** The read queue *)

Lemma select_ready pick c s : select pick c = Some s -> ready c s = true.
Proof.
  unfold select. destruct (ready c pick) eqn:Hp; [intros H; injection H as <-; exact Hp|].
  unfold List.find.
  destruct (ready c CaseReadCh) eqn:H1; [intros H; injection H as <-; exact H1|].
  destruct (ready c CaseReadTimer) eqn:H2; [intros H; injection H as <-; exact H2|].
  destruct (ready c CaseCloseCh) eqn:H3; [intros H; injection H as <-; exact H3|discriminate].
Qed.

(** With datagrams queued, the endpoint open and no tick waiting, the only
    case of the [select] that can proceed is the one of the read queue. *)
Lemma select_only_queue pick c :
  readCh c <> [] -> closeCh c = false -> t_C (readTimer c) = false ->
  select pick c = Some CaseReadCh.
Proof.
  intros Hq Hc Ht. unfold select.
  destruct pick; simpl; rewrite ?Hc, ?Ht; destruct (readCh c); try reflexivity;
    contradiction.
Qed.

Lemma Timer_expire_twice tm t : Timer_expire (Timer_expire tm t) t = Timer_expire tm t.
Proof.
  unfold Timer_expire.
  destruct (t_armed tm && (t_when tm <=? t)) eqn:E; simpl; [reflexivity|].
  rewrite E. reflexivity.
Qed.

Lemma set_readCh_id w : set_conn w (set_readCh (conn w) (readCh (conn w))) = w.
Proof. destruct w as [[] ? ? ? ?]; reflexivity. Qed.

Lemma HandleInbound_all_queue ds : forall w,
  (length (readCh (conn w)) + length ds <= maxReadQueueSize)%nat ->
  HandleInbound_all ds w =
    Done tt (set_conn w (set_readCh (conn w) (readCh (conn w) ++ ds))).
Proof.
  induction ds as [|d rest IH]; intros w Hlen.
  - simpl. rewrite app_nil_r, set_readCh_id. reflexivity.
  - cbn [HandleInbound_all length] in *.
    unfold bindM at 1, HandleInbound, bindM at 1, getConn, modifyConn, modify.
    assert (Hlt : (length (readCh (conn w)) <? maxReadQueueSize)%nat = true)
      by (apply Nat.ltb_lt; lia).
    rewrite Hlt, IH.
    + cbn [conn set_conn set_readCh readCh]. rewrite <- app_assoc.
      destruct d; reflexivity.
    + cbn [conn set_conn set_readCh readCh]. rewrite length_app. simpl. lia.
Qed.

Lemma delivery_length p d :
  (length (data d) <= length p)%nat -> length (rr_buf (delivery p d)) = length p.
Proof. intros H. simpl. rewrite length_app, length_skipn. lia. Qed.

Lemma ReadFrom_fits pick p w d rest :
  closed (conn w) = false -> closeCh (conn w) = false -> no_tick_pending w ->
  readCh (conn w) = d :: rest ->
  (length (data d) <= length p)%nat ->
  ReadFrom pick p w = Done (delivery p d) (set_conn w (set_readCh (at_select w) rest)).
Proof.
  intros Hcl Hch Htick Hq Hfit.
  rewrite (ReadFrom_dequeue pick p w d).
  - cbv zeta. unfold copy. cbn [fst snd].
    replace (Nat.min (length p) (length (data d))) with (length (data d)) by lia.
    rewrite Nat.ltb_irrefl, firstn_all, Hq. reflexivity.
  - split; [exact Hcl|]. split; [|rewrite Hq; reflexivity].
    apply select_only_queue.
    + unfold at_select. simpl. rewrite Hq. discriminate.
    + exact Hch.
    + exact Htick.
Qed.

Lemma ReadFrom_all_queue q : forall picks p w,
  closed (conn w) = false -> closeCh (conn w) = false -> no_tick_pending w ->
  readCh (conn w) = q ->
  Forall (fun d => (length (data d) <= length p)%nat) q ->
  length picks = length q ->
  exists w',
    ReadFrom_all picks p w = Done (deliveries p q) w' /\ readCh (conn w') = [] /\
    perms w' = perms w /\ binds w' = binds w /\ trace w' = trace w.
Proof.
  induction q as [|d rest IH]; intros picks p w Hcl Hch Htick Hq Hfit Hlen.
  - destruct picks; [|discriminate]. exists w. repeat split; assumption || reflexivity.
  - destruct picks as [|pick picks]; [discriminate|].
    inversion Hfit as [|? ? Hd Hrest]; subst.
    cbn [ReadFrom_all deliveries].
    unfold bindM at 1. rewrite (ReadFrom_fits pick p w d rest) by assumption.
    destruct (IH picks (rr_buf (delivery p d))
                (set_conn w (set_readCh (at_select w) rest))) as (w' & Hrun & Hw' & Hrest');
      try assumption.
    + unfold no_tick_pending, at_select in *. simpl in *.
      rewrite Timer_expire_twice. exact Htick.
    + reflexivity.
    + rewrite delivery_length by assumption. exact Hrest.
    + simpl in Hlen. lia.
    + exists w'. unfold bindM at 1. rewrite Hrun. unfold ret. split; [reflexivity|].
      split; [exact Hw'|exact Hrest'].
Qed.

(** X1.  What [HandleInbound] queues, [ReadFrom] delivers, in order and
    unchanged: on an open endpoint with no tick of the read timer waiting,
    after the datagrams [ds] have been handed in behind those already queued,
    as many calls of [ReadFrom] as there are datagrams return them one by
    one, each with its length and its sender and no error, whatever the
    scheduler prefers, and leave the queue empty; provided the queue does not
    overflow and every datagram fits the buffer. *)
Theorem inbound_delivered_in_order ds picks p w :
  closed (conn w) = false -> closeCh (conn w) = false -> no_tick_pending w ->
  (length (readCh (conn w)) + length ds <= maxReadQueueSize)%nat ->
  Forall (fun d => (length (data d) <= length p)%nat) (readCh (conn w) ++ ds) ->
  length picks = length (readCh (conn w) ++ ds) ->
  exists w',
    (HandleInbound_all ds ;;; ReadFrom_all picks p)%go w =
      Done (deliveries p (readCh (conn w) ++ ds)) w' /\
    readCh (conn w') = [].
Proof.
  intros Hcl Hch Htick Hlen Hfit Hpicks.
  unfold bindM at 1. rewrite HandleInbound_all_queue by exact Hlen.
  destruct (ReadFrom_all_queue (readCh (conn w) ++ ds) picks p
              (set_conn w (set_readCh (conn w) (readCh (conn w) ++ ds))))
    as (w' & Hrun & Hq & _); try assumption; try reflexivity.
  exists w'. split; assumption.
Qed.

Section Beyond.

Variable lib : StunLib.
Variable obs : UDPConnObserver.

#[local] Instance queue_kept_preorder : PreOrder queue_kept.
Proof.
  split; [intros w; reflexivity|].
  intros w1 w2 w3 H1 H2. unfold queue_kept in *. congruence.
Qed.

#[local] Instance close_kept_preorder : PreOrder close_kept.
Proof.
  split.
  - intros w. repeat split; auto.
  - intros w1 w2 w3 (Ha1 & Hc1 & Hd1) (Ha2 & Hc2 & Hd2).
    repeat split; [congruence | auto | auto].
Qed.

#[local] Instance lifetime_kept_preorder : PreOrder lifetime_kept.
Proof.
  split; [intros w; reflexivity|].
  intros w1 w2 w3 H1 H2. unfold lifetime_kept in *. congruence.
Qed.

#[local] Instance running_kept_preorder : PreOrder running_kept.
Proof.
  split.
  - intros w. repeat split.
  - intros w1 w2 w3 (? & ? & ?) (? & ? & ?). repeat split; congruence.
Qed.

#[local] Instance permissions_same_preorder : PreOrder permissions_same.
Proof.
  split.
  - intros w. split; reflexivity.
  - intros w1 w2 w3 [? ?] [? ?]. split; congruence.
Qed.

(** Walk through an operation and check the relation at every change of the
    world. *)
Ltac walk leaf :=
  repeat first
    [ apply respects_ret | apply respects_panic | apply respects_blocked
    | apply respects_get | apply respects_getConn
    | apply respects_bind; [|intros ?]
    | apply respects_defer
    | apply respects_withPerm; intros ?
    | apply respects_withBinding; intros ?
    | apply respects_modify; intros ?; leaf
    | match goal with
      | |- respects _ (match ?x with _ => _ end) => destruct x
      | |- respects _ (let _ := _ in _) => cbv zeta
      end
    | progress unfold WriteTo, permissionStage, bindingStage, lookupPermission,
        lookupBinding, ensurePermission, ensureBinding, createPermissions, bind,
        sendIndication, sendChannelData, refreshAllocation, refreshPermissions,
        onRefreshTimers, perm_state, perm_setState, perm_Unlock, binding_state,
        binding_setState, binding_Unlock, permMap_find, permMap_insert,
        permMap_delete, findByAddr, findByNumber, deleteByAddr, modifyConn, logf,
        onDeallocated, HandleInbound, FindAddrByChannelNumber, SetReadDeadline,
        SetDeadline, SetWriteDeadline, fireRefreshAlloc, fireRefreshPerms, ReadFrom,
        Close
    | (intros ?; simpl; repeat case_match; simpl; leaf) ].

Ltac leaf_queue := solve [unfold queue_kept; simpl; reflexivity].
Ltac leaf_close := solve [unfold close_kept; simpl; repeat split; auto].
Ltac leaf_lifetime := solve [unfold lifetime_kept; simpl; reflexivity].
Ltac leaf_running := solve [unfold running_kept; simpl; repeat split; reflexivity].

(** A property that every step keeps holds after any number of steps. *)
Lemma steps_keep (P : World -> Prop) :
  (forall op w w', P w -> step lib obs op w w' -> P w') ->
  forall w ops w', P w -> steps lib obs w ops w' -> P w'.
Proof.
  intros Hstep w ops w' HP Hsteps.
  induction Hsteps as [w|w op w1 ops w2 H1 Hrest IH]; [assumption|].
  apply IH. eapply Hstep; eassumption.
Qed.

(** The same for a relation between the world before and the world after. *)
Lemma steps_respect (R : World -> World -> Prop) `{!PreOrder R} :
  (forall op, respects R (exec lib obs op)) ->
  forall w ops w', steps lib obs w ops w' -> R w w'.
Proof.
  intros Hexec w ops w' Hsteps.
  induction Hsteps as [w|w op w1 ops w2 H1 Hrest IH]; [reflexivity|].
  etransitivity; [|exact IH].
  rewrite (step_world lib obs _ _ _ H1). apply Hexec.
Qed.

Lemma exec_queue_kept op :
  (forall d a, op <> OpHandleInbound d a) -> (forall pick p, op <> OpReadFrom pick p) ->
  respects queue_kept (exec lib obs op).
Proof.
  intros H1 H2.
  destruct op; try (exfalso; eapply H1; reflexivity); try (exfalso; eapply H2; reflexivity);
    unfold exec; walk leaf_queue.
Qed.

Lemma ReadFrom_queue pick p w :
  (length (readCh (conn (world_after (ReadFrom pick p w)))) <= length (readCh (conn w)))%nat.
Proof.
  rewrite ReadFrom_unfold. destruct (closed (conn w)); [apply Nat.le_refl|].
  cbv zeta. unfold at_select.
  destruct (select pick _) as [[]|];
    cbn [world_after conn set_conn set_readTimer set_closed set_readCh readCh];
    try apply Nat.le_refl.
  destruct (readCh (conn w)) as [|d rest] eqn:Hq;
    [cbn [world_after conn set_conn set_readTimer readCh]; rewrite Hq; apply Nat.le_refl|].
  destruct (_ <? _)%nat;
    cbn [world_after conn set_conn set_readTimer set_closed set_readCh readCh length]; lia.
Qed.

Lemma HandleInbound_queue d a w :
  (length (readCh (conn w)) <= maxReadQueueSize)%nat ->
  (length (readCh (conn (world_after (HandleInbound d a w)))) <= maxReadQueueSize)%nat.
Proof.
  intros Hb. unfold HandleInbound, bindM, getConn, modifyConn, modify, logf.
  destruct (Nat.ltb_spec (length (readCh (conn w))) maxReadQueueSize) as [Hlt|Hge].
  - cbn [world_after conn set_conn set_readCh readCh]. rewrite length_app. simpl. lia.
  - exact Hb.
Qed.

Lemma step_queue_bounded op w w' :
  (length (readCh (conn w)) <= maxReadQueueSize)%nat ->
  step lib obs op w w' ->
  (length (readCh (conn w')) <= maxReadQueueSize)%nat.
Proof.
  intros Hb Hstep. rewrite (step_world lib obs _ _ _ Hstep).
  destruct op as [p a|pick p| |t|d a| | |dt];
    try (match goal with |- context [exec lib obs ?op w] =>
           assert (Hk : queue_kept w (world_after (exec lib obs op w)))
             by (apply exec_queue_kept; intros ? ?; discriminate) end;
         unfold queue_kept in Hk; rewrite Hk; exact Hb).
  - unfold exec, bindM, ret. pose proof (ReadFrom_queue pick p w) as Hq.
    destruct (ReadFrom pick p w); simpl in *; lia.
  - unfold exec. apply HandleInbound_queue. exact Hb.
Qed.

(** X2.  The read queue is bounded: however an endpoint has been used, it
    holds at most [maxReadQueueSize] datagrams; and when it holds that many,
    [HandleInbound] drops the datagram it is given: the queue and everything
    else stay as they are, but for a warning in the log. *)
Theorem read_queue_bounded config w :
  reachable lib obs config w ->
  (length (readCh (conn w)) <= maxReadQueueSize)%nat /\
  (length (readCh (conn w)) = maxReadQueueSize ->
   forall d a, HandleInbound d a w = Done tt (emit w (EvLog LWarn "receive buffer full"))).
Proof.
  intros (t0 & ops & Hsteps). split.
  - refine (steps_keep (fun v => (length (readCh (conn v)) <= maxReadQueueSize)%nat)
              step_queue_bounded _ _ _ _ Hsteps).
    cbn [NewUDPConn conn readCh length]. apply Nat.le_0_l.
  - intros Hfull d a. unfold HandleInbound, bindM, getConn, logf, modify.
    rewrite Hfull, Nat.ltb_irrefl. reflexivity.
Qed.

(** ** Closing and reading *)

Lemma exec_close_kept op : respects close_kept (exec lib obs op).
Proof. destruct op; unfold exec; walk leaf_close. Qed.

Lemma Close_closes w : closeCh (conn (world_after (Close lib obs w))) = true.
Proof.
  rewrite Close_unfold. cbv zeta. destruct (closeCh (conn w)) eqn:Hc; [exact Hc|].
  destruct (Build lib (refreshSetters 0)) as [msg|e]; [|reflexivity].
  destruct (PerformTransaction obs (trace w) msg (TURNServerAddr obs) true).2; reflexivity.
Qed.

(** X3.  [Close] releases the readers: once [Close] has been called, no call
    of [ReadFrom] blocks, whatever has happened since; and with nothing queued
    and no tick of the read timer waiting it returns the error of a closed
    connection, for which [Timeout] is false. *)
Theorem ReadFrom_after_Close_returns w ops w' pick p :
  steps lib obs (world_after (Close lib obs w)) ops w' ->
  exists r w'',
    ReadFrom pick p w' = Done r w'' /\
    (readCh (conn w') = [] -> no_tick_pending w' ->
     r = {| rr_n := 0; rr_addr := None; rr_err := Some (closedError (conn w'));
            rr_buf := p |} /\
     Timeout (closedError (conn w')) = false).
Proof.
  intros Hsteps.
  assert (Hc : closeCh (conn w') = true).
  { apply (steps_respect close_kept exec_close_kept _ _ _ Hsteps). apply Close_closes. }
  rewrite ReadFrom_unfold. destruct (closed (conn w')) eqn:Hcl.
  - eexists _, _. split; [reflexivity|]. intros _ _. split; reflexivity.
  - cbv zeta.
    assert (Hsel : select pick (at_select w') <> None).
    { unfold select. destruct (ready (at_select w') pick); [discriminate|].
      unfold List.find. destruct (ready (at_select w') CaseReadCh); [discriminate|].
      destruct (ready (at_select w') CaseReadTimer); [discriminate|].
      simpl. rewrite Hc. discriminate. }
    destruct (select pick (at_select w')) as [s|] eqn:Hs; [|contradiction].
    pose proof (select_ready _ _ _ Hs) as Hr.
    destruct s; unfold ready in Hr.
    + unfold at_select in Hr. cbn [set_readTimer readCh] in Hr.
      destruct (readCh (conn w')) as [|d rest] eqn:Hq; [discriminate|].
      cbn [at_select set_readTimer readCh]. rewrite Hq.
      destruct (_ <? _)%nat; eexists _, _; (split; [reflexivity|]); intros; discriminate.
    + eexists _, _. split; [reflexivity|]. intros _ Htick.
      unfold no_tick_pending in Htick. rewrite Htick in Hr. discriminate.
    + eexists _, _. split; [reflexivity|]. intros _ _. split; reflexivity.
Qed.

(** X4.  Once a reader has seen the endpoint closed, it stays closed for
    readers: every later [ReadFrom] returns [0], no address and the error of a
    closed connection at once and changes nothing, whatever has happened in
    between; a datagram handed in by [HandleInbound] is never delivered. *)
Theorem closed_is_final w ops w' pick p :
  closed (conn w) = true ->
  steps lib obs w ops w' ->
  ReadFrom pick p w' =
    Done {| rr_n := 0; rr_addr := None; rr_err := Some (closedError (conn w));
            rr_buf := p |} w'.
Proof.
  intros Hcl Hsteps.
  destruct (steps_respect close_kept exec_close_kept _ _ _ Hsteps) as (Ha & _ & Hd).
  rewrite ReadFrom_unfold, (Hd Hcl). unfold closedError, LocalAddr. rewrite Ha.
  reflexivity.
Qed.


(** ** The refresh timers *)

Lemma exec_running_kept op : op <> OpClose -> respects running_kept (exec lib obs op).
Proof.
  intros Hop. destruct op; try contradiction; unfold exec; walk leaf_running.
Qed.

Lemma Close_stops w : stopped (world_after (Close lib obs w)).
Proof.
  intros _. rewrite Close_unfold. cbv zeta. destruct (closeCh (conn w)); [split; reflexivity|].
  destruct (Build lib (refreshSetters 0)) as [msg|e]; [|split; reflexivity].
  destruct (PerformTransaction obs (trace w) msg (TURNServerAddr obs) true).2;
    split; reflexivity.
Qed.

Lemma step_stopped op w w' : stopped w -> step lib obs op w w' -> stopped w'.
Proof.
  intros Hs Hstep. rewrite (step_world lib obs _ _ _ Hstep).
  destruct (decide (op = OpClose)) as [->|Hne].
  - pose proof (Close_stops w) as HC. unfold exec, bindM, ret.
    destruct (Close lib obs w); exact HC.
  - destruct (exec_running_kept op Hne w) as (Hc & Ha & Hp).
    unfold stopped. rewrite Hc, Ha, Hp. exact Hs.
Qed.

(** X6.  No refresh after [Close]: on an endpoint that has been closed both
    refresh timers are stopped, so that when their goroutines come to fire
    they do nothing: no exchange, no log line, no change of the endpoint. *)
Theorem no_refresh_after_Close config w :
  reachable lib obs config w ->
  closeCh (conn w) = true ->
  fireRefreshAlloc lib obs w = Done tt w /\ fireRefreshPerms lib obs w = Done tt w.
Proof.
  intros (t0 & ops & Hsteps) Hc.
  assert (Hs : stopped w).
  { refine (steps_keep stopped step_stopped _ _ _ _ Hsteps). intros H. discriminate H. }
  destruct (Hs Hc) as [Ha Hp].
  unfold fireRefreshAlloc, fireRefreshPerms, bindM, get. rewrite Ha, Hp. split; reflexivity.
Qed.

#[local] Instance ids_kept_preorder : PreOrder ids_kept.
Proof.
  split.
  - intros w. split; reflexivity.
  - intros w1 w2 w3 [? ?] [? ?]. split; congruence.
Qed.

Ltac leaf_ids := solve [unfold ids_kept; simpl; split; reflexivity].

Lemma exec_ids_kept op : respects ids_kept (exec lib obs op).
Proof. destruct op; unfold exec; walk leaf_ids. Qed.

(** The refresh timers keep the identities they were constructed with. *)
Lemma reachable_ids config w :
  reachable lib obs config w ->
  pt_id (refreshAllocTimer (conn w)) = timerIDRefreshAlloc /\
  pt_id (refreshPermsTimer (conn w)) = timerIDRefreshPerms.
Proof.
  intros (t0 & ops & Hsteps).
  destruct (steps_respect ids_kept exec_ids_kept _ _ _ Hsteps) as [-> ->].
  split; reflexivity.
Qed.

Lemma refreshPermissions_lifetime : respects lifetime_kept (refreshPermissions lib obs).
Proof. walk leaf_lifetime. Qed.

(** X7.  The stored lifetime of the allocation changes in the handler of the
    allocation-refresh timer and nowhere else: every other operation leaves
    it as it is, [Close] included, whose teardown refresh asks for a lifetime
    of zero, and the handler of the permission-refresh timer included. *)
Theorem lifetime_changes_only_on_refresh config op w w' :
  reachable lib obs config w ->
  op <> OpFireRefreshAlloc ->
  step lib obs op w w' ->
  lifetime (conn w') = lifetime (conn w).
Proof.
  intros Hreach Hop Hstep. rewrite (step_world lib obs _ _ _ Hstep).
  destruct (reachable_ids _ _ Hreach) as [_ Hid]. clear Hstep Hreach.
  destruct op; try contradiction;
    try (revert w Hid; intros w _; revert w;
         match goal with |- forall w, lifetime (conn (world_after (?m w))) = _ =>
           change (respects lifetime_kept m) end;
         unfold exec; solve [walk leaf_lifetime]).
  unfold exec, fireRefreshPerms, bindM at 1, get. cbv zeta. rewrite Hid.
  destruct (_ && _); [|reflexivity].
  revert w Hid; intros w _; revert w.
  match goal with |- forall w, lifetime (conn (world_after (?m w))) = _ =>
    change (respects lifetime_kept m) end.
  apply respects_bind; [|intros ?; apply respects_modify; intros ?; leaf_lifetime].
  unfold onRefreshTimers.
  apply respects_bind; [walk leaf_lifetime|intros ?].
  apply respects_bind; [apply respects_getConn|intros c]. cbv zeta.
  destruct (decide (timerIDRefreshPerms = timerIDRefreshAlloc)) as [E|_]; [discriminate E|].
  destruct (decide (timerIDRefreshPerms = timerIDRefreshPerms)); [|apply respects_ret].
  apply refreshPermissions_lifetime.
Qed.

(** ** What the write path leaves alone *)

Section ReadSideFrame.

Variable g : Z -> ReadSide -> ReadSide.

Lemma commutes_ret {A} (a : A) : commutes (on_read_side g) (ret a).
Proof. intros w. reflexivity. Qed.

Lemma commutes_panic {A} msg : commutes (on_read_side g) (@panic A msg).
Proof. intros w. reflexivity. Qed.

Lemma commutes_bind {A B} (m : M A) (k : A -> M B) :
  commutes (on_read_side g) m -> (forall a, commutes (on_read_side g) (k a)) ->
  commutes (on_read_side g) (bindM m k).
Proof.
  intros Hm Hk w. unfold bindM. rewrite Hm.
  destruct (m w); simpl; [apply Hk | reflexivity | reflexivity].
Qed.

Lemma commutes_defer {A} (cleanup : M unit) (body : M A) :
  commutes (on_read_side g) cleanup -> commutes (on_read_side g) body ->
  commutes (on_read_side g) (defer cleanup body).
Proof.
  intros Hc Hb w. unfold defer. rewrite Hb.
  destruct (body w) as [a w1|msg w1|w1]; simpl; [| |reflexivity];
    rewrite Hc; destruct (cleanup w1); reflexivity.
Qed.

(** An operation that reads the endpoint sees the same trackers and
    credentials after a change of the read side. *)
Lemma commutes_getConn {A} (k : UDPConn -> M A) :
  (forall c, commutes (on_read_side g) (k c)) ->
  (forall w, k (conn (on_read_side g w)) (on_read_side g w) = k (conn w) (on_read_side g w)) ->
  commutes (on_read_side g) (bindM getConn k).
Proof. intros Hk He w. unfold bindM, getConn. rewrite He. apply Hk. Qed.

Lemma commutes_modify (h : World -> World) :
  (forall w, h (on_read_side g w) = on_read_side g (h w)) ->
  commutes (on_read_side g) (modify h).
Proof. intros Hh w. unfold modify. simpl. rewrite Hh. reflexivity. Qed.

Lemma commutes_withPerm {A} p (k : permission -> M A) :
  (forall x, commutes (on_read_side g) (k x)) -> commutes (on_read_side g) (withPerm p k).
Proof.
  intros Hk w. unfold withPerm. change (perms (on_read_side g w)) with (perms w).
  destruct (perms w !! p); [apply Hk | reflexivity].
Qed.

Lemma commutes_withBinding {A} b (k : binding -> M A) :
  (forall x, commutes (on_read_side g) (k x)) ->
  commutes (on_read_side g) (withBinding b k).
Proof.
  intros Hk w. unfold withBinding. change (binds (on_read_side g w)) with (binds w).
  destruct (binds w !! b); [apply Hk | reflexivity].
Qed.

Ltac commute :=
  repeat first
    [ apply commutes_ret | apply commutes_panic
    | apply commutes_getConn; [intros ? | solve [intros ?; reflexivity]]
    | apply commutes_bind; [|intros ?]
    | apply commutes_defer
    | apply commutes_withPerm; intros ?
    | apply commutes_withBinding; intros ?
    | apply commutes_modify; solve [intros ?; reflexivity]
    | match goal with
      | |- commutes _ (match ?x with _ => _ end) => destruct x
      | |- commutes _ (let _ := _ in _) => cbv zeta
      end
    | progress unfold WriteTo, permissionStage, bindingStage, lookupPermission,
        lookupBinding, ensurePermission, ensureBinding, createPermissions, bind,
        sendIndication, sendChannelData, perm_state, perm_setState, perm_Lock,
        perm_Unlock, binding_state, binding_setState, binding_Lock, binding_Unlock,
        permMap_find, permMap_insert, permMap_delete, findByAddr, deleteByAddr,
        modifyConn, logf
    | solve [intros ?; reflexivity]
    | solve [intros ?; cbv beta; repeat case_match; reflexivity] ].

(** No step of [WriteTo] reads or writes the read queue, the close channel,
    the closed flag or the read timer. *)
Lemma WriteTo_read_side p a : commutes (on_read_side g) (WriteTo lib obs p a).
Proof. commute. Qed.

End ReadSideFrame.

Lemma SetReadDeadline_read_side t w :
  world_after (SetReadDeadline t w) = on_read_side (deadline_set t) w.
Proof. rewrite SetReadDeadline_unfold. reflexivity. Qed.

(** X8.  Deadlines do not reach the write path: [SetWriteDeadline] does
    nothing, and after [SetDeadline t] or [SetReadDeadline t], for whatever
    [t], also one that has passed, [WriteTo] returns what it returns without,
    sends what it sends without and leaves the trackers as it does without;
    it never times out on account of a deadline. *)
Theorem WriteTo_ignores_deadlines t p a w :
  SetWriteDeadline t w = Done None w /\
  SetDeadline t w = SetReadDeadline t w /\
  WriteTo lib obs p a (world_after (SetDeadline t w)) =
    graft (WriteTo lib obs p a w) (fun v => world_after (SetDeadline t v)).
Proof.
  split; [reflexivity|]. split; [reflexivity|].
  unfold SetDeadline. rewrite SetReadDeadline_read_side, WriteTo_read_side.
  destruct (WriteTo lib obs p a w); cbn [graft]; rewrite SetReadDeadline_read_side;
    reflexivity.
Qed.

(** X9.  Closing does not reach the write path either: [WriteTo] looks at
    neither the close channel nor the closed flag, so that on an endpoint
    marked closed a write goes through the same exchanges and hands the same
    datagram to the transport as on the open one. *)
Theorem WriteTo_ignores_closing p a w :
  let shut_down := on_read_side shut in
  closeCh (conn (shut_down w)) = true /\ closed (conn (shut_down w)) = true /\
  WriteTo lib obs p a (shut_down w) = graft (WriteTo lib obs p a w) shut_down.
Proof.
  cbv zeta. split; [reflexivity|]. split; [reflexivity|]. apply WriteTo_read_side.
Qed.

(** ** Permissions and bindings over the life of an endpoint *)

#[local] Existing Instance trackers_same_preorder.
#[local] Existing Instance trace_extends_preorder.

Lemma failed_kept_refl w : failed_kept w w.
Proof. intros a x H _. exact H. Qed.


Lemma bindingOf_same w w' :
  bindingMgr (conn w') = bindingMgr (conn w) -> binds w' = binds w ->
  forall a, bindingOf w' a = bindingOf w a.
Proof. intros Hm Hb a. unfold bindingOf. rewrite Hm, Hb. reflexivity. Qed.

Lemma bindingOf_set_trace w tr a : bindingOf (set_trace w tr) a = bindingOf w a.
Proof. reflexivity. Qed.

(** What [ensureBinding] leaves of an idle binding when it returns: the
    binding is ready or failed, and the manager has forgotten its address or
    is as it was. *)
Lemma ensureBinding_settles a b x v :
  binds v !! b = Some x -> addr x = a -> b_st x = bindingStateIdle ->
  b_mutex x = false ->
  match ensureBinding lib obs b v with
  | Done _ v' =>
      exists s del,
        s <> bindingStateIdle /\
        binds v' = <[b := set_b_st x s]> (binds v) /\
        addrMap (bindingMgr (conn v')) =
          (if del : bool then delete a (addrMap (bindingMgr (conn v)))
           else addrMap (bindingMgr (conn v)))
  | Blocked _ => False
  | Panic _ _ => True
  end.
Proof.
  intros Hb Hax Hst Hmx.
  rewrite (ensureBinding_idle lib obs b x v Hb Hst Hmx).
  rewrite (bind_unfold lib obs b (set_b_mutex x true) _ (lookup_insert_eq _ _ _)).
  simpl. rewrite Hax.
  destruct (Build lib _) as [msg|e].
  - cbv zeta.
    destruct (PerformTransaction obs (trace v) msg (TURNServerAddr obs) false)
      as [[[res|]] [e|]]; simpl; try exact I;
      destruct (decide _); simpl;
      first [ solve [exists bindingStateReady, true; repeat split;
                     [discriminate | apply bm_deleteByAddr_addrMap]]
            | solve [exists bindingStateFailed, true; repeat split;
                     [discriminate | apply bm_deleteByAddr_addrMap]]
            | solve [exists bindingStateReady, false; repeat split; discriminate]
            | solve [exists bindingStateFailed, false; repeat split; discriminate] ].
  - exists bindingStateFailed, false. repeat split. discriminate.
Qed.

(** The binding stage, started with no binding left idle, leaves none idle
    and keeps every failed binding. *)
Lemma bindingStage_settled p a w :
  Inv w -> settled w ->
  match bindingStage lib obs p a w with
  | Done _ w' => settled w' /\ failed_kept w w'
  | Blocked _ => False
  | Panic _ _ => True
  end.
Proof.
  intros HI Hs.
  destruct (addrMap (bindingMgr (conn w)) !! a) as [b|] eqn:Ha.
  - destruct (inv_bind w HI a b Ha) as (x & Hx & Hax & Hmx).
    assert (Hbo : bindingOf w a = Some x) by (unfold bindingOf; rewrite Ha; exact Hx).
    destruct (b_st x) eqn:Hst.
    + exfalso. exact (Hs a x Hbo Hst).
    + rewrite (bindingStage_ready lib obs p a b x w Ha Hx Hst). cbv zeta.
      split; [exact Hs | exact (failed_kept_refl w)].
    + rewrite (bindingStage_failed lib obs p a b x w Ha Hx Hst).
      destruct (sendIndication_world lib obs p a w) as (r' & tr & ->).
      split; [exact Hs | exact (failed_kept_refl w)].
  - rewrite (bindingStage_absent lib obs p a w Ha). unfold bindM.
    pose proof (fresh_binding_unused w) as Hfresh.
    set (b := fresh (dom (binds w))) in *.
    set (vc := world_after (create a w)).
    assert (Hbc : binds vc !! b = Some (newBinding w a)) by (simpl; apply lookup_insert_eq).
    pose proof (ensureBinding_settles a b (newBinding w a) vc Hbc eq_refl eq_refl eq_refl)
      as He.
    destruct (ensureBinding lib obs b vc) as [r v'|msg v'|v']; try exact He.
    destruct He as (s & del & Hs' & Hbinds & Hmgr).
    destruct (sendIndication_world lib obs p a v') as (r' & tr & ->).
    assert (Hother : forall a', a' <> a ->
              bindingOf (set_trace v' tr) a' = bindingOf w a').
    { intros a' Hne. rewrite bindingOf_set_trace. unfold bindingOf.
      rewrite Hmgr, Hbinds.
      assert (Hl : (if del then delete a (addrMap (bindingMgr (conn vc)))
                    else addrMap (bindingMgr (conn vc))) !! a'
                   = addrMap (bindingMgr (conn w)) !! a').
      { destruct del; simpl; rewrite ?lookup_delete_ne by congruence;
          apply lookup_insert_ne; congruence. }
      rewrite Hl.
      destruct (addrMap (bindingMgr (conn w)) !! a') as [b'|] eqn:Hb'; [|reflexivity].
      destruct (inv_bind w HI a' b' Hb') as (x' & Hx' & _).
      assert (Hbb : b <> b') by (intros E; rewrite <- E in Hx'; congruence).
      rewrite lookup_insert_ne by exact Hbb.
      simpl. apply lookup_insert_ne. exact Hbb. }
    split.
    + intros a' x' Hbo.
      destruct (decide (a' = a)) as [->|Hne]; [|rewrite (Hother a' Hne) in Hbo; eauto].
      rewrite bindingOf_set_trace in Hbo. unfold bindingOf in Hbo.
      rewrite Hmgr, Hbinds in Hbo. destruct del.
      * rewrite lookup_delete_eq in Hbo. discriminate.
      * simpl in Hbo. rewrite lookup_insert_eq in Hbo. rewrite lookup_insert_eq in Hbo.
        injection Hbo as <-. exact Hs'.
    + intros a' x' Hbo _.
      assert (Hne : a' <> a).
      { intros ->. unfold bindingOf in Hbo. rewrite Ha in Hbo. discriminate. }
      rewrite (Hother a' Hne). exact Hbo.
Qed.

Lemma WriteTo_settled p a w :
  Inv w -> settled w ->
  match WriteTo lib obs p a w with
  | Done _ w' => settled w' /\ failed_kept w w'
  | Blocked _ => False
  | Panic _ _ => True
  end.
Proof.
  intros HI Hs. unfold WriteTo.
  destruct a as [ip port|ip port|n s];
    try (split; [assumption | apply failed_kept_refl]).
  unfold bindM.
  pose proof (permissionStage_Inv lib obs (UDPAddr ip port) w HI) as HP.
  destruct (permissionStage lib obs (UDPAddr ip port) w) as [[e|] w1|msg w1|w1];
    try exact HP; destruct HP as (HI1 & Hmgr & Hbinds & _);
    pose proof (bindingOf_same w w1 Hmgr Hbinds) as Hsame.
  - split; intros a x; rewrite Hsame; [apply Hs | auto].
  - assert (Hs1 : settled w1) by (intros a x; rewrite Hsame; apply Hs).
    pose proof (bindingStage_settled p (UDPAddr ip port) w1 HI1 Hs1) as HB.
    destruct (bindingStage lib obs p (UDPAddr ip port) w1) as [r w2|msg w2|w2];
      try exact HB.
    destruct HB as [Hs2 Hk]. split; [assumption|].
    intros a x Hbo Hf. apply Hk; [|exact Hf]. rewrite Hsame. exact Hbo.
Qed.

Lemma step_settled op w w' :
  Inv w -> settled w -> step lib obs op w w' -> settled w' /\ failed_kept w w'.
Proof.
  intros HI Hs Hstep. destruct op as [p a| | | | | | |];
    try (pose proof (step_world lib obs _ _ _ Hstep) as ->;
         match goal with |- context [exec lib obs ?op w] =>
           destruct (exec_trackers lib obs op ltac:(intros ? ?; discriminate) w)
             as (_ & Hm & _ & Hb) end;
         split; intros ? ?; rewrite (bindingOf_same _ _ Hm Hb); [apply Hs | auto]).
  unfold step, exec, bindM, ret in Hstep.
  pose proof (WriteTo_settled p a w HI Hs) as HW.
  destruct (WriteTo lib obs p a w) as [r w1|msg w1|w1]; try contradiction.
  subst w'. exact HW.
Qed.





(** The binding stage for an address that has a binding, on an endpoint at
    rest: no exchange, and at most one datagram for the transport. *)
Lemma bindingStage_tracked p a b w :
  Inv w -> settled w -> addrMap (bindingMgr (conn w)) !! a = Some b ->
  exists r evs,
    bindingStage lib obs p a w = Done r (set_trace w (trace w ++ evs)) /\
    (length evs <= 1)%nat /\ Forall (fun e => isTransportWrite e = true) evs.
Proof.
  intros HI Hs Ha.
  destruct (inv_bind w HI a b Ha) as (x & Hx & _).
  assert (Hbo : bindingOf w a = Some x) by (unfold bindingOf; rewrite Ha; exact Hx).
  pose proof (Hs a x Hbo) as Hst.
  destruct (b_st x) eqn:Hsx; [contradiction| |].
  - rewrite (bindingStage_ready lib obs p a b x w Ha Hx Hsx). cbv zeta.
    eexists _, [_]. split; [reflexivity|]. split; [simpl; lia|]. repeat constructor.
  - rewrite (bindingStage_failed lib obs p a b x w Ha Hx Hsx).
    unfold sendIndication, transportWriteTo, ret.
    destruct (Build lib _) as [msg|e].
    + eexists _, [_]. split; [reflexivity|]. split; [simpl; lia|]. repeat constructor.
    + exists (0, Some e), []. rewrite app_nil_r, set_trace_id.
      split; [reflexivity|]. split; [simpl; lia|]. constructor.
Qed.



(** X12.  No write blocks: on an endpoint at rest every mutex [WriteTo] takes
    is free, and it has released them when it returns, so that the next write
    finds them free again. *)
Theorem WriteTo_never_blocks config w p a :
  reachable lib obs config w ->
  (forall v, WriteTo lib obs p a w <> Blocked v) /\
  (forall r w', WriteTo lib obs p a w = Done r w' ->
     forall p' a' v, WriteTo lib obs p' a' w' <> Blocked v).
Proof.
  intros Hreach.
  pose proof (reachable_Inv lib obs _ _ Hreach) as HI.
  pose proof (WriteTo_Inv lib obs p a w HI) as HW.
  split.
  - intros v Hv. rewrite Hv in HW. exact HW.
  - intros r w' Hr p' a' v Hv. rewrite Hr in HW. destruct HW as [HI' _].
    pose proof (WriteTo_Inv lib obs p' a' w' HI') as HW'. rewrite Hv in HW'. exact HW'.
Qed.

(** *** Permissions *)






(** X14.  When [createPermissions] succeeds: exactly when the request could
    be built, the transaction runner reported no error, and the response it
    handed back is not of the error class.  The method of the response is not
    looked at: an indication or the success response of another method counts
    as a grant. *)
Theorem createPermissions_succeeds_iff addrs w :
  returns (createPermissions lib obs addrs w) None <->
  exists msg res,
    Build lib (createPermissionSetters obs (conn w) addrs) = inl msg /\
    PerformTransaction obs (trace w) msg (TURNServerAddr obs) false
      = ({| Msg := Some res |}, None) /\
    TClass (Type_ res) <> ClassErrorResponse.
Proof.
  unfold createPermissions, bindM, getConn, performTransaction, ret, panic.
  destruct (Build lib (createPermissionSetters obs (conn w) addrs)) as [msg|e] eqn:Hb.
  - destruct (PerformTransaction obs (trace w) msg (TURNServerAddr obs) false)
      as [[[res|]] [e|]] eqn:Hr; simpl;
      (split; [intros H | intros (m & r & Hm & Hp & Hn); injection Hm as <-;
                          rewrite Hr in Hp; inversion Hp; subst]);
      try discriminate; try contradiction.
    + destruct (decide (TClass (Type_ res) = ClassErrorResponse)) as [Hc|Hc];
        [destruct (ErrorCode_GetFrom lib res); discriminate|].
      exists msg, res. auto.
    + destruct (decide (TClass (Type_ r) = ClassErrorResponse)); [contradiction|].
      reflexivity.
  - simpl. split; [discriminate|]. intros (m & r & Hm & _). discriminate.
Qed.

Lemma refreshPermissions_trackers : respects trackers_same (refreshPermissions lib obs).
Proof. walk ltac:(solve [unfold trackers_same; simpl; repeat split; reflexivity]). Qed.

(** X15.  The refresh of the permissions: with no permission installed it
    goes through no exchange; otherwise it hands the transaction runner one
    create-permission request, which carries the address of every permission
    in the map; and whatever the answer, it leaves the permission map,
    the permissions and the bindings as they are: a permission the server
    refuses to refresh stays installed. *)
Theorem refreshPermissions_one_request w :
  let addrs := pm_addrs (permMap_ (conn w)) in
  let w' := world_after (refreshPermissions lib obs w) in
  trackers_same w w' /\
  (addrs = [] -> w' = emit w (EvLog LDebug "no permission to refresh")) /\
  (forall a q, permMap (permMap_ (conn w)) !! a = Some q ->
     In (SetPeerAddress (addr2PeerAddress a)) (createPermissionSetters obs (conn w) addrs)) /\
  (forall msg, addrs <> [] ->
     Build lib (createPermissionSetters obs (conn w) addrs) = inl msg ->
     exists evs,
       trace w' = trace w ++ EvPerformTransaction msg (TURNServerAddr obs) false :: evs /\
       Forall (fun e => exists level line, e = EvLog level line) evs).
Proof.
  cbv zeta. split; [apply refreshPermissions_trackers|]. split; [|split].
  - intros He. unfold refreshPermissions, bindM, getConn, logf, modify. cbv zeta.
    rewrite He. reflexivity.
  - intros a q Hq. unfold createPermissionSetters.
    apply in_or_app. right. apply in_or_app. left.
    apply in_map_iff. exists a. split; [reflexivity|].
    unfold pm_addrs. apply list_elem_of_In, list_elem_of_fmap.
    exists (a, q). split; [reflexivity|]. apply elem_of_map_to_list. exact Hq.
  - intros msg Hne Hb.
    unfold refreshPermissions, bindM at 1, getConn. cbv zeta.
    destruct (decide (length (pm_addrs (permMap_ (conn w))) = 0%nat)) as [H0|_].
    { exfalso. apply Hne. apply length_zero_iff_nil. exact H0. }
    unfold bindM.
    pose proof (createPermissions_request lib obs _ w msg Hb) as Htr.
    destruct (createPermissions lib obs (pm_addrs (permMap_ (conn w))) w)
      as [[e|] w1|m w1|w1]; simpl in Htr; unfold logf, modify, emit; simpl; rewrite Htr.
    + rewrite <- app_assoc. eexists. split; [reflexivity|]. repeat constructor. eauto.
    + rewrite <- app_assoc. eexists. split; [reflexivity|]. repeat constructor. eauto.
    + exists []. split; [reflexivity|]. constructor.
    + exists []. split; [reflexivity|]. constructor.
Qed.

(** X16.  The first write to an address: on an endpoint at rest, a write to
    an address without permission goes through exactly one create-permission
    exchange and at most one channel-bind exchange. *)
Theorem first_write_exchanges config w p ip port msg :
  reachable lib obs config w ->
  permMap (permMap_ (conn w)) !! UDPAddr ip port = None ->
  Build lib (createPermissionSetters obs (conn w) [UDPAddr ip port]) = inl msg ->
  let w' := world_after (WriteTo lib obs p (UDPAddr ip port) w) in
  countRequests MethodCreatePermission (trace w')
    = S (countRequests MethodCreatePermission (trace w)) /\
  (countRequests MethodChannelBind (trace w')
    <= S (countRequests MethodChannelBind (trace w)))%nat.
Proof.
  intros Hreach. apply first_WriteTo_exchanges. exact (reachable_Inv lib obs _ _ Hreach).
Qed.

(** *** The write that sets up the channel *)

#[local] Instance nothing_sent_preorder : PreOrder nothing_sent.
Proof.
  split; [intros w; reflexivity|].
  intros w1 w2 w3 H1 H2. unfold nothing_sent in *. congruence.
Qed.

Ltac leaf_nothing_sent :=
  solve [unfold nothing_sent, emit; simpl; unfold countEvents;
         rewrite ?List.filter_app, ?length_app; simpl; lia].

Lemma permissionStage_nothing_sent a : respects nothing_sent (permissionStage lib obs a).
Proof. walk leaf_nothing_sent. Qed.

Lemma ensureBinding_nothing_sent b : respects nothing_sent (ensureBinding lib obs b).
Proof. walk leaf_nothing_sent. Qed.

(** X21.  The write that sets up the channel does not use it: a write to an
    address that has no binding yet, when it returns, has either handed the
    transport a send indication with the payload, also when the channel bind
    it went through has succeeded, or it has failed with a count of zero
    and handed the transport nothing. *)
Theorem first_write_by_indication config w p a r w' :
  reachable lib obs config w ->
  bindingOf w a = None ->
  WriteTo lib obs p a w = Done r w' ->
  (exists msg v,
     Build lib (sendIndicationSetters p a) = inl msg /\
     w' = emit v (EvWriteTo (Raw msg) (TURNServerAddr obs)) /\
     r = obs_WriteTo obs (trace v) (Raw msg) (TURNServerAddr obs)) \/
  (exists e, r = (0, Some e) /\ nothing_sent w w').
Proof.
  intros Hreach Hnone Hrun.
  pose proof (reachable_Inv lib obs _ _ Hreach) as HI.
  unfold WriteTo in Hrun.
  destruct a as [ip port|ip port|n s];
    try (injection Hrun as <- <-; right; eexists; split; reflexivity).
  unfold bindM in Hrun.
  pose proof (permissionStage_Inv lib obs (UDPAddr ip port) w HI) as HP.
  pose proof (permissionStage_nothing_sent (UDPAddr ip port) w) as HS.
  destruct (permissionStage lib obs (UDPAddr ip port) w) as [[e|] w1|msg w1|w1];
    try discriminate Hrun; simpl in HS.
  - injection Hrun as <- <-. right. exists e. split; [reflexivity | exact HS].
  - destruct HP as (HI1 & Hmgr & Hbinds & _).
    assert (Ha : addrMap (bindingMgr (conn w1)) !! UDPAddr ip port = None).
    { rewrite Hmgr. unfold bindingOf in Hnone.
      destruct (addrMap (bindingMgr (conn w)) !! UDPAddr ip port) as [b|] eqn:Hb;
        [|reflexivity].
      destruct (inv_bind w HI _ b Hb) as (x & Hx & _). congruence. }
    rewrite (bindingStage_absent lib obs p _ w1 Ha) in Hrun.
    apply bindM_Done in Hrun. destruct Hrun as (u & v & He & Hsend).
    pose proof (ensureBinding_nothing_sent (fresh (dom (binds w1)))
                  (world_after (create (UDPAddr ip port) w1))) as HE.
    rewrite He in HE. simpl in HE.
    unfold sendIndication, transportWriteTo, ret in Hsend.
    destruct (Build lib (sendIndicationSetters p (UDPAddr ip port))) as [msg|e].
    + injection Hsend as <- <-. left. exists msg, v. auto.
    + injection Hsend as <- <-. right. exists e. split; [reflexivity|].
      unfold nothing_sent in *. simpl in HE. congruence.
Qed.

(** *** Channel numbers *)

(** What [ensureBinding] leaves of the manager when it returns. *)
Lemma ensureBinding_manager b x v :
  binds v !! b = Some x -> b_st x = bindingStateIdle -> b_mutex x = false ->
  match ensureBinding lib obs b v with
  | Done _ v' =>
      exists s del,
        binds v' = <[b := set_b_st x s]> (binds v) /\
        bindingMgr (conn v') =
          (if del : bool
           then bm_deleteByAddr (bindingMgr (conn v))
                  (<[b := set_b_mutex x true]> (binds v)) (addr x)
           else bindingMgr (conn v))
  | Blocked _ => False
  | Panic _ _ => True
  end.
Proof.
  intros Hb Hst Hmx.
  rewrite (ensureBinding_idle lib obs b x v Hb Hst Hmx).
  rewrite (bind_unfold lib obs b (set_b_mutex x true) _ (lookup_insert_eq _ _ _)).
  simpl.
  destruct (Build lib _) as [msg|e].
  - cbv zeta.
    destruct (PerformTransaction obs (trace v) msg (TURNServerAddr obs) false)
      as [[[res|]] [e|]]; simpl; try exact I;
      destruct (decide _); simpl;
      first [ solve [exists bindingStateReady, true; split; reflexivity]
            | solve [exists bindingStateFailed, true; split; reflexivity]
            | solve [exists bindingStateReady, false; split; reflexivity]
            | solve [exists bindingStateFailed, false; split; reflexivity] ].
  - exists bindingStateFailed, false. split; reflexivity.
Qed.

Lemma tables_agree_create a v :
  Inv v -> tables_agree v -> addrMap (bindingMgr (conn v)) !! a = None ->
  tables_agree (world_after (create a v)).
Proof.
  intros HI HT Ha n b Hn. simpl in *.
  pose proof (fresh_binding_unused v) as Hfresh.
  destruct (decide (n = assignChannelNumber (bindingMgr (conn v)))) as [->|Hne].
  - rewrite lookup_insert_eq in Hn. injection Hn as <-.
    rewrite lookup_insert_eq. eexists. split; [reflexivity|]. split; [reflexivity|].
    simpl. apply lookup_insert_eq.
  - rewrite lookup_insert_ne in Hn by congruence.
    destruct (HT n b Hn) as (x & Hx & Hnum & Hback).
    exists x. rewrite lookup_insert_ne by (intros <-; congruence).
    split; [exact Hx|]. split; [exact Hnum|].
    rewrite lookup_insert_ne by (intros E; rewrite <- E in Hback; congruence).
    exact Hback.
Qed.

Lemma tables_agree_settle v v' b x s (del : bool) :
  tables_agree v ->
  addrMap (bindingMgr (conn v)) !! addr x = Some b ->
  binds v !! b = Some x ->
  binds v' = <[b := set_b_st x s]> (binds v) ->
  bindingMgr (conn v') =
    (if del then bm_deleteByAddr (bindingMgr (conn v))
                  (<[b := set_b_mutex x true]> (binds v)) (addr x)
     else bindingMgr (conn v)) ->
  tables_agree v'.
Proof.
  intros HT Ha Hb Hbinds Hmgr n b' Hn. rewrite Hmgr in *. rewrite Hbinds.
  destruct del.
  - unfold bm_deleteByAddr in *. rewrite Ha in *. rewrite lookup_insert_eq in *.
    simpl in *.
    apply lookup_delete_Some in Hn. destruct Hn as [Hne Hn].
    destruct (HT n b' Hn) as (x' & Hx' & Hnum & Hback).
    assert (Hbb : b <> b') by (intros <-; congruence).
    exists x'. rewrite lookup_insert_ne by exact Hbb.
    split; [exact Hx'|]. split; [exact Hnum|].
    rewrite lookup_delete_ne; [exact Hback|]. intros E. rewrite E in Ha. congruence.
  - destruct (HT n b' Hn) as (x' & Hx' & Hnum & Hback).
    destruct (decide (b = b')) as [<-|Hbb].
    + rewrite lookup_insert_eq. eexists. split; [reflexivity|].
      rewrite Hb in Hx'. injection Hx' as <-. simpl. auto.
    + exists x'. rewrite lookup_insert_ne by exact Hbb. auto.
Qed.

Lemma bindingStage_tables p a w :
  Inv w -> settled w -> tables_agree w ->
  match bindingStage lib obs p a w with
  | Done _ w' => tables_agree w'
  | Blocked _ => False
  | Panic _ _ => True
  end.
Proof.
  intros HI Hs HT.
  destruct (addrMap (bindingMgr (conn w)) !! a) as [b|] eqn:Ha.
  - destruct (bindingStage_tracked p a b w HI Hs Ha) as (r & evs & -> & _). exact HT.
  - rewrite (bindingStage_absent lib obs p a w Ha). unfold bindM.
    pose proof (tables_agree_create a w HI HT Ha) as HTc.
    set (b := fresh (dom (binds w))) in *.
    set (vc := world_after (create a w)) in *.
    assert (Hbc : binds vc !! b = Some (newBinding w a)) by (simpl; apply lookup_insert_eq).
    assert (Hac : addrMap (bindingMgr (conn vc)) !! a = Some b)
      by (simpl; apply lookup_insert_eq).
    pose proof (ensureBinding_manager b (newBinding w a) vc Hbc eq_refl eq_refl) as He.
    destruct (ensureBinding lib obs b vc) as [r v'|msg v'|v']; try exact He.
    destruct He as (s & del & Hbinds & Hmgr).
    destruct (sendIndication_world lib obs p a v') as (r' & tr & ->).
    exact (tables_agree_settle vc v' b (newBinding w a) s del HTc Hac Hbc Hbinds Hmgr).
Qed.

Lemma WriteTo_tables p a w :
  Inv w -> settled w -> tables_agree w ->
  match WriteTo lib obs p a w with
  | Done _ w' => tables_agree w'
  | Blocked _ => False
  | Panic _ _ => True
  end.
Proof.
  intros HI Hs HT. unfold WriteTo.
  destruct a as [ip port|ip port|n s]; try exact HT.
  unfold bindM.
  pose proof (permissionStage_Inv lib obs (UDPAddr ip port) w HI) as HP.
  destruct (permissionStage lib obs (UDPAddr ip port) w) as [[e|] w1|msg w1|w1];
    try exact HP; destruct HP as (HI1 & Hmgr & Hbinds & _);
    pose proof (bindingOf_same w w1 Hmgr Hbinds) as Hsame;
    assert (HT1 : tables_agree w1)
      by (intros n b; rewrite Hmgr, Hbinds; apply HT).
  - exact HT1.
  - assert (Hs1 : settled w1) by (intros a x; rewrite Hsame; apply Hs).
    exact (bindingStage_tables p (UDPAddr ip port) w1 HI1 Hs1 HT1).
Qed.

Lemma step_tables op w w' :
  Inv w -> settled w -> tables_agree w -> step lib obs op w w' -> tables_agree w'.
Proof.
  intros HI Hs HT Hstep. destruct op as [p a| | | | | | |];
    try (pose proof (step_world lib obs _ _ _ Hstep) as ->;
         match goal with |- context [exec lib obs ?op w] =>
           destruct (exec_trackers lib obs op ltac:(intros ? ?; discriminate) w)
             as (_ & Hm & _ & Hb) end;
         intros ? ?; rewrite Hm, Hb; apply HT).
  unfold step, exec, bindM, ret in Hstep.
  pose proof (WriteTo_tables p a w HI Hs HT) as HW.
  destruct (WriteTo lib obs p a w) as [r w1|msg w1|w1]; try contradiction.
  subst w'. exact HW.
Qed.

Lemma reachable_tables config w : reachable lib obs config w -> tables_agree w.
Proof.
  intros (t0 & ops & Hsteps).
  assert (H : Inv w /\ settled w /\ tables_agree w).
  { refine (steps_keep (fun v => Inv v /\ settled v /\ tables_agree v) _ _ _ _ _ Hsteps).
    - intros op v v' (HI & Hs & HT) Hstep.
      split; [exact (proj1 (step_Inv lib obs op v v' HI Hstep))|].
      split; [exact (proj1 (step_settled op v v' HI Hs Hstep))|].
      exact (step_tables op v v' HI Hs HT Hstep).
    - split; [apply NewUDPConn_Inv|]. split.
      + intros a x H. unfold bindingOf in H. simpl in H. rewrite lookup_empty in H.
        discriminate.
      + intros n b H. simpl in H. rewrite lookup_empty in H. discriminate. }
  exact (proj2 (proj2 H)).
Qed.

Lemma FindAddrByChannelNumber_unfold (n : Z) w :
  FindAddrByChannelNumber n w =
    match chanMap (bindingMgr (conn w)) !! n with
    | Some b =>
        match binds w !! b with
        | Some x => Done (Some (addr x)) w
        | None => Panic nilDeref w
        end
    | None => Done None w
    end.
Proof.
  unfold FindAddrByChannelNumber, findByNumber, withBinding, bindM, getConn, ret.
  destruct (_ !! _); reflexivity.
Qed.

(** X17.  Channel numbers lead back to addresses: on an endpoint at rest
    [FindAddrByChannelNumber] returns without a panic and changes nothing;
    when it finds an address, the binding the manager holds for that address
    carries the channel number asked for, and when the manager knows no
    binding by that number it finds none. *)
Theorem FindAddrByChannelNumber_agrees config w (n : Z) :
  reachable lib obs config w ->
  exists r,
    FindAddrByChannelNumber n w = Done r w /\
    (forall a, r = Some a ->
       exists x, bindingOf w a = Some x /\ number x = n /\ addr x = a) /\
    (r = None <-> chanMap (bindingMgr (conn w)) !! n = None).
Proof.
  intros Hreach. pose proof (reachable_tables _ _ Hreach n) as HT.
  rewrite FindAddrByChannelNumber_unfold.
  destruct (chanMap (bindingMgr (conn w)) !! n) as [b|] eqn:Hn.
  - destruct (HT b eq_refl) as (x & Hx & Hnum & Hback). rewrite Hx.
    exists (Some (addr x)). split; [reflexivity|]. split; [|split; discriminate].
    intros a [= <-]. exists x. unfold bindingOf. rewrite Hback. auto.
  - exists None. split; [reflexivity|]. split; [discriminate|]. split; reflexivity.
Qed.

(** *** A refresh that fails *)

(** X22.  A refresh of the allocation that fails is logged and nothing more:
    when the transaction runner reports an error, the handler returns, the
    stored lifetime is as it was, the endpoint is not closed, and the timer
    keeps running, due again one period later. *)
Theorem refresh_failure_only_logged config w msg res e :
  reachable lib obs config w ->
  pt_running (refreshAllocTimer (conn w)) = true ->
  pt_due (refreshAllocTimer (conn w)) <= now w ->
  Build lib (refreshSetters (lifetime (conn w))) = inl msg ->
  PerformTransaction obs (trace w ++ [EvLog LDebug "refresh timer expired"]) msg
    (TURNServerAddr obs) false = (res, Some e) ->
  exists w',
    fireRefreshAlloc lib obs w = Done tt w' /\
    lifetime (conn w') = lifetime (conn w) /\
    closeCh (conn w') = closeCh (conn w) /\
    pt_running (refreshAllocTimer (conn w')) = true /\
    pt_due (refreshAllocTimer (conn w')) = now w' + Z.quot (cfg_Lifetime config) 2 /\
    trace w' = trace w ++ [EvLog LDebug "refresh timer expired";
                           EvPerformTransaction msg (TURNServerAddr obs) false;
                           EvLog LError ("failed to refresh refresh: " +:+ Error e)].
Proof.
  intros Hreach Hrun Hdue Hb Hpt.
  destruct (reachable_period lib obs config w Hreach) as [Hi Hid].
  unfold fireRefreshAlloc, bindM at 1, get. rewrite Hrun.
  destruct (Z.leb_spec (pt_due (refreshAllocTimer (conn w))) (now w)) as [_|Hbad]; [|lia].
  simpl. rewrite Hid.
  unfold onRefreshTimers, refreshAllocation, performTransaction, bindM, logf, modify,
    getConn, ret.
  simpl. rewrite Hb. simpl. rewrite Hpt. simpl.
  eexists. split; [reflexivity|]. simpl. rewrite Hi, Hrun, <- !app_assoc. auto.
Qed.

(** *** Closing with datagrams queued *)

(** X23.  [Close] does not empty the read queue, and what becomes of a
    datagram that is queued when the endpoint is closed is up to the
    [select]: a [ReadFrom] that takes the queue delivers it, one that takes
    the close channel returns the error of a closed connection and leaves it
    queued, where no later read will find it. *)
Theorem close_races_with_queue w d rest p :
  closed (conn w) = false -> closeCh (conn w) = true ->
  readCh (conn w) = d :: rest ->
  (length (data d) <= length p)%nat ->
  returns (ReadFrom CaseReadCh p w) (delivery p d) /\
  exists w',
    ReadFrom CaseCloseCh p w =
      Done {| rr_n := 0; rr_addr := None; rr_err := Some (closedError (conn w));
              rr_buf := p |} w' /\
    readCh (conn w') = d :: rest /\
    forall pick p' ops w'', steps lib obs w' ops w'' ->
      exists e, returns (ReadFrom pick p' w'')
                  {| rr_n := 0; rr_addr := None; rr_err := Some e; rr_buf := p' |}.
Proof.
  intros Hcl Hch Hq Hfit. split.
  - rewrite (ReadFrom_dequeue CaseReadCh p w d).
    + cbv zeta. unfold copy. cbn [fst snd].
      replace (Nat.min (length p) (length (data d))) with (length (data d)) by lia.
      rewrite Nat.ltb_irrefl, firstn_all. reflexivity.
    + split; [exact Hcl|]. split; [|rewrite Hq; reflexivity].
      unfold select, ready, at_select. cbn [set_readTimer readCh]. rewrite Hq.
      reflexivity.
  - rewrite ReadFrom_unfold, Hcl. cbv zeta.
    assert (Hsel : select CaseCloseCh (at_select w) = Some CaseCloseCh).
    { unfold select, ready, at_select. cbn [set_readTimer closeCh]. rewrite Hch.
      reflexivity. }
    rewrite Hsel. eexists. split; [reflexivity|]. split; [exact Hq|].
    intros pick p' ops w'' Hsteps.
    destruct (steps_respect close_kept exec_close_kept _ _ _ Hsteps) as (_ & _ & Hd).
    rewrite ReadFrom_unfold, (Hd eq_refl). eexists. reflexivity.
Qed.

(** *** The schedule of the refreshes *)

#[local] Instance perms_period_kept_preorder : PreOrder perms_period_kept.
Proof.
  split; [intros w; reflexivity|].
  intros w1 w2 w3 H1 H2. unfold perms_period_kept in *. congruence.
Qed.

#[local] Instance timers_same_preorder : PreOrder timers_same.
Proof.
  split.
  - intros w. repeat split.
  - intros w1 w2 w3 (? & ? & ?) (? & ? & ?). repeat split; congruence.
Qed.

Ltac leaf_perms_period := solve [unfold perms_period_kept; simpl; reflexivity].
Ltac leaf_timers := solve [unfold timers_same; simpl; repeat split; reflexivity].

Lemma exec_perms_period op : respects perms_period_kept (exec lib obs op).
Proof. destruct op; unfold exec; walk leaf_perms_period. Qed.

Lemma onRefreshTimers_timers id : respects timers_same (onRefreshTimers lib obs id).
Proof. walk leaf_timers. Qed.

(** X24.  Permissions are refreshed every two minutes: the period of the
    permission-refresh timer is [permRefreshInterval] on every endpoint,
    whatever the lifetime of its allocation and whatever has happened on it;
    when the timer fires and its handler returns, whether or not the refresh
    went through, the timer is running and due again one period later. *)
Theorem permission_refresh_schedule config w :
  reachable lib obs config w ->
  pt_interval (refreshPermsTimer (conn w)) = permRefreshInterval /\
  (pt_running (refreshPermsTimer (conn w)) = true ->
   pt_due (refreshPermsTimer (conn w)) <= now w ->
   forall w', fireRefreshPerms lib obs w = Done tt w' ->
     pt_running (refreshPermsTimer (conn w')) = true /\
     pt_due (refreshPermsTimer (conn w')) = now w + permRefreshInterval).
Proof.
  intros (t0 & ops & Hsteps).
  assert (Hi : pt_interval (refreshPermsTimer (conn w)) = permRefreshInterval).
  { rewrite (steps_respect perms_period_kept exec_perms_period _ _ _ Hsteps).
    reflexivity. }
  split; [exact Hi|].
  intros Hrun Hdue w' Hfire.
  unfold fireRefreshPerms, bindM at 1, get in Hfire. rewrite Hrun in Hfire.
  destruct (Z.leb_spec (pt_due (refreshPermsTimer (conn w))) (now w)) as [_|Hbad]; [|lia].
  cbn [andb] in Hfire. apply bindM_Done in Hfire. destruct Hfire as (u & v & Hh & Hm).
  pose proof (onRefreshTimers_timers (pt_id (refreshPermsTimer (conn w))) w) as Hk.
  rewrite Hh in Hk. destruct Hk as (Hnow & _ & Hp). simpl in Hnow, Hp.
  unfold modify in Hm. injection Hm as <-. simpl. rewrite Hp, Hnow, Hi, Hrun. auto.
Qed.

(** X25.  Each refresh of the allocation asks for the lifetime the endpoint
    has stored, that is, the one the server granted last: when the
    allocation-refresh timer fires, the handler logs the expiry and hands the
    transaction runner one refresh request built with the stored lifetime;
    what follows in the trace are log lines only. *)
Theorem refresh_asks_stored_lifetime config w msg :
  reachable lib obs config w ->
  pt_running (refreshAllocTimer (conn w)) = true ->
  pt_due (refreshAllocTimer (conn w)) <= now w ->
  Build lib (refreshSetters (lifetime (conn w))) = inl msg ->
  exists evs,
    trace (world_after (fireRefreshAlloc lib obs w)) =
      trace w ++ EvLog LDebug "refresh timer expired"
              :: EvPerformTransaction msg (TURNServerAddr obs) false :: evs /\
    Forall (fun e => exists level line, e = EvLog level line) evs.
Proof.
  intros Hreach Hrun Hdue Hb.
  destruct (reachable_period lib obs config w Hreach) as [_ Hid].
  unfold fireRefreshAlloc, bindM at 1, get. rewrite Hrun.
  destruct (Z.leb_spec (pt_due (refreshAllocTimer (conn w))) (now w)) as [_|Hbad]; [|lia].
  simpl. rewrite Hid.
  unfold onRefreshTimers, refreshAllocation, performTransaction, bindM, logf, modify,
    modifyConn, getConn, ret, panic.
  simpl. rewrite Hb. simpl.
  destruct (PerformTransaction obs _ msg (TURNServerAddr obs) false) as [[[res|]] [e|]];
    simpl; try destruct (Lifetime_GetFrom lib res); simpl;
    rewrite <- ?app_assoc; simpl; eexists; (split; [reflexivity|]);
    repeat constructor; eauto.
Qed.

End Beyond.
(** * The server example *)

(** X18.  The logging wrapper on the way out: the count it returns is always
    the one of the embedded connection.  A failed write, and a datagram that
    is no STUN message, pass untouched and unprinted.  A STUN message that
    does not decode turns the write, which has taken place, into an error,
    with the count of the bytes sent; one that decodes is printed on one
    line and the results pass. *)
Theorem stunLogger_WriteTo_passes codec s p a :
  let inner := TurnServer.pc_WriteTo s p a in
  let out := TurnServer.stunLogger_WriteTo codec s p a in
  (TurnServer.results out).1 = inner.1 /\
  (inner.2 <> None \/ TurnServer.IsMessage codec p = false ->
   TurnServer.results out = inner /\ TurnServer.printed out = []) /\
  (forall e, inner.2 = None -> TurnServer.IsMessage codec p = true ->
     TurnServer.Decode codec p = inr e ->
     TurnServer.results out = (inner.1, Some e) /\ TurnServer.printed out = []) /\
  (forall msg, inner.2 = None -> TurnServer.IsMessage codec p = true ->
     TurnServer.Decode codec p = inl msg ->
     TurnServer.results out = inner /\ length (TurnServer.printed out) = 1%nat).
Proof.
  cbv zeta. unfold TurnServer.stunLogger_WriteTo.
  destruct (TurnServer.pc_WriteTo s p a) as [n [e|]]; simpl.
  - split; [reflexivity|]. split; [auto|]. split; intros; discriminate.
  - destruct (TurnServer.IsMessage codec p).
    + destruct (TurnServer.Decode codec p) as [msg|e]; simpl;
        (split; [reflexivity|]); (split; [intros [H|H]; [contradiction|discriminate]|]);
        split; intros x _ _ Hx; try discriminate; injection Hx as <-; auto.
    + simpl. split; [reflexivity|]. split; [auto|]. split; intros; discriminate.
Qed.

(** X19.  The logging wrapper on the way in: the count, the sender and the
    content of the buffer are always those of the embedded connection, so
    that the datagram has been taken from the socket whatever the wrapper
    answers.  The message is decoded from the whole buffer; when that fails
    the error of the decoder replaces the nil error of the read. *)
Theorem stunLogger_ReadFrom_passes codec s p :
  let inner := TurnServer.pc_ReadFrom s p in
  let out := TurnServer.stunLogger_ReadFrom codec s p in
  rr_n (TurnServer.results out) = rr_n inner /\
  rr_addr (TurnServer.results out) = rr_addr inner /\
  rr_buf (TurnServer.results out) = rr_buf inner /\
  (rr_err inner <> None \/ TurnServer.IsMessage codec (rr_buf inner) = false ->
   TurnServer.results out = inner /\ TurnServer.printed out = []) /\
  (forall e, rr_err inner = None -> TurnServer.IsMessage codec (rr_buf inner) = true ->
     TurnServer.Decode codec (rr_buf inner) = inr e ->
     rr_err (TurnServer.results out) = Some e /\ TurnServer.printed out = []) /\
  (forall msg, rr_err inner = None -> TurnServer.IsMessage codec (rr_buf inner) = true ->
     TurnServer.Decode codec (rr_buf inner) = inl msg ->
     TurnServer.results out = inner /\ length (TurnServer.printed out) = 1%nat).
Proof.
  cbv zeta. unfold TurnServer.stunLogger_ReadFrom.
  destruct (TurnServer.pc_ReadFrom s p) as [n from [e|] buf]; simpl.
  - repeat (split; [reflexivity|]). split; [auto|]. split; intros; discriminate.
  - destruct (TurnServer.IsMessage codec buf).
    + destruct (TurnServer.Decode codec buf) as [msg|e]; simpl;
        repeat (split; [reflexivity|]);
        (split; [intros [H|H]; [contradiction|discriminate]|]);
        split; intros x _ _ Hx; try discriminate; injection Hx as <-; auto.
    + simpl. repeat (split; [reflexivity|]). split; [auto|]. split; intros; discriminate.
Qed.

(** X20.  The port range of the relay: flags that pass the checks of [main]
    give the relay address generator the range that was asked for, a range
    that is not empty, as long as the upper port fits sixteen bits.  The
    checks do not see to that: there are flags that pass them and leave the
    generator with an upper port below the lower one. *)
Theorem port_range_fits :
  (forall f, TurnServer.checkFlags f = None -> TurnServer.maxPort f <= 65535 ->
     TurnServer.MinPort f = TurnServer.minPort f /\
     TurnServer.MaxPort f = TurnServer.maxPort f /\
     1 <= TurnServer.MinPort f <= TurnServer.MaxPort f) /\
  (exists f, TurnServer.checkFlags f = None /\ TurnServer.MaxPort f < TurnServer.MinPort f).
Proof.
  split.
  - intros f Hok Hmax. unfold TurnServer.checkFlags in Hok.
    destruct (Z.leb_spec (TurnServer.minPort f) 0) as [|Hmin]; [discriminate|].
    destruct (Z.leb_spec (TurnServer.maxPort f) 0) as [|Hpos]; [discriminate|].
    destruct (Z.ltb_spec (TurnServer.maxPort f) (TurnServer.minPort f)) as [|Hle];
      [discriminate|].
    unfold TurnServer.MinPort, TurnServer.MaxPort, TurnServer.uint16.
    rewrite !Z.mod_small by lia. lia.
  - exists {| TurnServer.publicIP := "192.0.2.1"; TurnServer.users := "user=pass";
              TurnServer.authSecret := ""; TurnServer.realm := "pion.ly";
              TurnServer.port := 3478; TurnServer.minPort := 50000;
              TurnServer.maxPort := 65536 |}.
    split; reflexivity.
Qed.

(** * The extra properties at work *)

Lemma step_exec lib obs op w :
  Sample.runs_ok lib obs [op] w = true ->
  step lib obs op w (world_after (exec lib obs op w)).
Proof.
  unfold step. simpl. destruct (exec lib obs op w); simpl;
    [reflexivity | discriminate | reflexivity].
Qed.

Lemma bound_world_reachable :
  reachable Sample.lib (Sample.friendly 600) (Sample.config 600) Sample.bound_world.
Proof.
  exists 1000, [OpWriteTo Sample.payload Sample.peerA].
  econstructor; [|constructor].
  apply (step_WriteTo _ _ _ _ _ (47, None)). vm_compute. reflexivity.
Qed.

Lemma inbound_delivered_in_order_witness :
  exists w',
    (HandleInbound_all Scenes.two_datagrams ;;;
     ReadFrom_all [CaseCloseCh; CaseReadTimer] (repeat Byte.x00 8))%go Sample.fresh_world
      = Done [ {| rr_n := 5; rr_addr := Some Sample.peerA; rr_err := None;
                  rr_buf := Sample.payload ++ repeat Byte.x00 3 |};
               {| rr_n := 1; rr_addr := Some Sample.peerB; rr_err := None;
                  rr_buf := Byte.x01 :: tail Sample.payload ++ repeat Byte.x00 3 |} ] w' /\
    readCh (conn w') = [].
Proof.
  destruct (inbound_delivered_in_order Scenes.two_datagrams [CaseCloseCh; CaseReadTimer]
              (repeat Byte.x00 8) Sample.fresh_world) as (w' & Hrun & Hq).
  - reflexivity.
  - reflexivity.
  - vm_compute. reflexivity.
  - apply Nat.leb_le. vm_compute. reflexivity.
  - repeat constructor; simpl; lia.
  - reflexivity.
  - exists w'. split; [exact Hrun | exact Hq].
Defined.

Lemma read_queue_bounded_witness :
  (length (readCh (conn Scenes.full_world)) <= maxReadQueueSize)%nat /\
  HandleInbound Sample.payload Sample.peerA Scenes.full_world
    = Done tt (emit Scenes.full_world (EvLog LWarn "receive buffer full")).
Proof.
  assert (Hreach : reachable Sample.lib (Sample.friendly 600) (Sample.config 600)
                     Scenes.full_world).
  { apply (fresh_world_reachable (Sample.friendly 600)
             (repeat (OpHandleInbound [] Sample.peerB) maxReadQueueSize)).
    vm_compute. reflexivity. }
  destruct (read_queue_bounded Sample.lib (Sample.friendly 600) (Sample.config 600)
              Scenes.full_world Hreach) as [Hb Hfull].
  split; [exact Hb|]. apply Hfull. vm_compute. reflexivity.
Defined.

Lemma ReadFrom_after_Close_returns_witness :
  exists r w'',
    ReadFrom CaseReadCh Sample.small_buffer
      (world_after (Close Sample.lib (Sample.friendly 600) Sample.fresh_world))
      = Done r w'' /\
    r = {| rr_n := 0; rr_addr := None;
           rr_err := Some (closedError
                             (conn (world_after (Close Sample.lib (Sample.friendly 600)
                                                   Sample.fresh_world))));
           rr_buf := Sample.small_buffer |}.
Proof.
  destruct (ReadFrom_after_Close_returns Sample.lib (Sample.friendly 600)
              Sample.fresh_world [] _ CaseReadCh Sample.small_buffer
              (steps_nil _ _ _)) as (r & w'' & Hrun & Hr).
  exists r, w''. split; [exact Hrun|].
  apply Hr; vm_compute; reflexivity.
Defined.

Lemma closed_is_final_witness :
  let w' := Sample.exec_all Sample.lib (Sample.friendly 600)
              [OpHandleInbound Sample.payload Sample.peerA] Scenes.told_world in
  ReadFrom CaseReadCh Sample.small_buffer w' =
    Done {| rr_n := 0; rr_addr := None;
            rr_err := Some (closedError (conn Scenes.told_world));
            rr_buf := Sample.small_buffer |} w'.
Proof.
  cbv zeta.
  apply (closed_is_final Sample.lib (Sample.friendly 600) Scenes.told_world
           [OpHandleInbound Sample.payload Sample.peerA]).
  - vm_compute. reflexivity.
  - apply steps_exec_all. vm_compute. reflexivity.
Defined.


Lemma no_refresh_after_Close_witness :
  fireRefreshAlloc Sample.lib (Sample.friendly 600) Scenes.closed_later_world
    = Done tt Scenes.closed_later_world /\
  fireRefreshPerms Sample.lib (Sample.friendly 600) Scenes.closed_later_world
    = Done tt Scenes.closed_later_world.
Proof.
  apply (no_refresh_after_Close Sample.lib (Sample.friendly 600) (Sample.config 600)).
  - apply (fresh_world_reachable (Sample.friendly 600) [OpClose; OpAdvance (600 * Second)]).
    vm_compute. reflexivity.
  - vm_compute. reflexivity.
Defined.

Lemma lifetime_changes_only_on_refresh_witness :
  lifetime (conn (world_after (exec Sample.lib (Sample.friendly 600) OpClose
                                 Sample.fresh_world)))
    = lifetime (conn Sample.fresh_world).
Proof.
  apply (lifetime_changes_only_on_refresh Sample.lib (Sample.friendly 600)
           (Sample.config 600) OpClose).
  - exists 1000, []. constructor.
  - discriminate.
  - apply step_exec. vm_compute. reflexivity.
Defined.



Lemma WriteTo_never_blocks_witness :
  (forall v, WriteTo Sample.lib (Sample.friendly 600) Sample.payload Sample.peerA
               Sample.fresh_world <> Blocked v) /\
  (forall v, WriteTo Sample.lib (Sample.friendly 600) Sample.payload Sample.peerB
               Sample.bound_world <> Blocked v).
Proof.
  assert (Hreach : reachable Sample.lib (Sample.friendly 600) (Sample.config 600)
                     Sample.fresh_world) by (exists 1000, []; constructor).
  destruct (WriteTo_never_blocks Sample.lib (Sample.friendly 600) (Sample.config 600)
              Sample.fresh_world Sample.payload Sample.peerA Hreach) as [Hfirst Hnext].
  split; [exact Hfirst|].
  assert (Hret : returns (WriteTo Sample.lib (Sample.friendly 600) Sample.payload
                            Sample.peerA Sample.fresh_world) (47, None))
    by (vm_compute; reflexivity).
  exact (Hnext (47, None) Sample.bound_world (returns_world_after _ _ Hret)
           Sample.payload Sample.peerB).
Defined.


Lemma createPermissions_succeeds_iff_witness :
  returns (createPermissions Sample.lib Scenes.misanswering [Sample.peerA]
             Sample.fresh_world) None.
Proof.
  apply (proj2 (createPermissions_succeeds_iff Sample.lib Scenes.misanswering
                  [Sample.peerA] Sample.fresh_world)).
  exists Scenes.permission_request,
    {| Type_ := NewType MethodChannelBind ClassSuccessResponse; Raw := [] |}.
  split; [vm_compute; reflexivity|]. split; [vm_compute; reflexivity|]. discriminate.
Defined.

Lemma refreshPermissions_one_request_witness :
  let w' := world_after (refreshPermissions Sample.lib (Sample.friendly 600)
                           Sample.bound_world) in
  trackers_same Sample.bound_world w' /\
  In (SetPeerAddress (addr2PeerAddress Sample.peerA))
     (createPermissionSetters (Sample.friendly 600) (conn Sample.bound_world)
        (pm_addrs (permMap_ (conn Sample.bound_world)))) /\
  exists evs,
    trace w' = trace Sample.bound_world
               ++ EvPerformTransaction Scenes.permission_request Sample.server false :: evs.
Proof.
  pose proof (refreshPermissions_one_request Sample.lib (Sample.friendly 600)
                Sample.bound_world) as H.
  cbv zeta in H. destruct H as (Hsame & _ & Hin & Hone).
  cbv zeta. split; [exact Hsame|]. split.
  - apply (Hin Sample.peerA 0%nat). vm_compute. reflexivity.
  - destruct (Hone Scenes.permission_request) as (evs & Htr & _).
    + vm_compute. discriminate.
    + vm_compute. reflexivity.
    + exists evs. exact Htr.
Defined.

Lemma first_write_exchanges_witness :
  let w' := world_after (WriteTo Sample.lib (Sample.friendly 600) Sample.payload
                           Sample.peerA Sample.fresh_world) in
  countRequests MethodCreatePermission (trace w')
    = S (countRequests MethodCreatePermission (trace Sample.fresh_world)) /\
  (countRequests MethodChannelBind (trace w')
    <= S (countRequests MethodChannelBind (trace Sample.fresh_world)))%nat.
Proof.
  apply (first_write_exchanges Sample.lib (Sample.friendly 600) (Sample.config 600)
           Sample.fresh_world Sample.payload [Byte.xc0; Byte.xa8; Byte.x00; Byte.x02] 4000
           Scenes.permission_request).
  - exists 1000, []. constructor.
  - vm_compute. reflexivity.
  - vm_compute. reflexivity.
Defined.

Lemma FindAddrByChannelNumber_agrees_witness :
  exists r,
    FindAddrByChannelNumber minChannelNumber Sample.bound_world = Done r Sample.bound_world /\
    (forall a, r = Some a ->
       exists x, bindingOf Sample.bound_world a = Some x /\
                 number x = minChannelNumber /\ addr x = a) /\
    (r = None <-> chanMap (bindingMgr (conn Sample.bound_world)) !! minChannelNumber = None).
Proof.
  exact (FindAddrByChannelNumber_agrees Sample.lib (Sample.friendly 600) (Sample.config 600)
           Sample.bound_world minChannelNumber bound_world_reachable).
Defined.

Lemma stunLogger_WriteTo_passes_witness :
  let out := TurnServer.stunLogger_WriteTo Scenes.strict_codec Scenes.socket
               (repeat Byte.x00 20) Sample.peerA in
  TurnServer.results out = (20, Some (Errorf "unexpected EOF")) /\
  TurnServer.printed out = [].
Proof.
  pose proof (stunLogger_WriteTo_passes Scenes.strict_codec Scenes.socket
                (repeat Byte.x00 20) Sample.peerA) as H.
  cbv zeta in H. destruct H as (_ & _ & Hbad & _).
  cbv zeta. apply (Hbad (Errorf "unexpected EOF")); reflexivity.
Defined.

Lemma stunLogger_ReadFrom_passes_witness :
  let out := TurnServer.stunLogger_ReadFrom Scenes.strict_codec Scenes.socket
               (repeat Byte.x00 64) in
  rr_err (TurnServer.results out) = Some (Errorf "unexpected EOF") /\
  TurnServer.printed out = [].
Proof.
  pose proof (stunLogger_ReadFrom_passes Scenes.strict_codec Scenes.socket
                (repeat Byte.x00 64)) as H.
  cbv zeta in H. destruct H as (_ & _ & _ & _ & Hbad & _).
  cbv zeta. apply (Hbad (Errorf "unexpected EOF")); reflexivity.
Defined.

Lemma port_range_fits_witness :
  TurnServer.MinPort Scenes.flags = 50000 /\
  TurnServer.MaxPort Scenes.flags = 55000 /\
  1 <= TurnServer.MinPort Scenes.flags <= TurnServer.MaxPort Scenes.flags.
Proof.
  apply (proj1 port_range_fits Scenes.flags); [reflexivity | vm_compute; discriminate].
Defined.

Lemma first_write_by_indication_witness :
  exists msg v,
    Build Sample.lib (sendIndicationSetters Sample.payload Sample.peerA) = inl msg /\
    Sample.bound_world = emit v (EvWriteTo (Raw msg) Sample.server) /\
    b_st Sample.bound_binding = bindingStateReady.
Proof.
  assert (Hreach : reachable Sample.lib (Sample.friendly 600) (Sample.config 600)
                     Sample.fresh_world) by (exists 1000, []; constructor).
  assert (Hnone : bindingOf Sample.fresh_world Sample.peerA = None) by reflexivity.
  assert (Hret : returns (WriteTo Sample.lib (Sample.friendly 600) Sample.payload
                            Sample.peerA Sample.fresh_world) (47, None))
    by (vm_compute; reflexivity).
  destruct (first_write_by_indication Sample.lib (Sample.friendly 600) (Sample.config 600)
              Sample.fresh_world Sample.payload Sample.peerA (47, None) Sample.bound_world
              Hreach Hnone (returns_world_after _ _ Hret))
    as [(msg & v & Hb & Hw & _)|(e & He & _)].
  - exists msg, v. split; [exact Hb|]. split; [exact Hw | reflexivity].
  - discriminate He.
Defined.

Lemma close_races_with_queue_witness :
  returns (ReadFrom CaseReadCh (repeat Byte.x00 8)
             (world_after (Close Sample.lib (Sample.friendly 600) Sample.queued_world)))
    (delivery (repeat Byte.x00 8) Sample.datagram) /\
  exists w',
    ReadFrom CaseCloseCh (repeat Byte.x00 8)
      (world_after (Close Sample.lib (Sample.friendly 600) Sample.queued_world))
      = Done {| rr_n := 0; rr_addr := None;
                rr_err := Some (closedError
                                  (conn (world_after (Close Sample.lib (Sample.friendly 600)
                                                        Sample.queued_world))));
                rr_buf := repeat Byte.x00 8 |} w' /\
    readCh (conn w') = [Sample.datagram].
Proof.
  destruct (close_races_with_queue Sample.lib (Sample.friendly 600)
              (world_after (Close Sample.lib (Sample.friendly 600) Sample.queued_world))
              Sample.datagram [] (repeat Byte.x00 8)) as (Hread & w' & Hclose & Hq & _).
  - vm_compute. reflexivity.
  - vm_compute. reflexivity.
  - vm_compute. reflexivity.
  - simpl. lia.
  - split; [exact Hread|]. exists w'. split; [exact Hclose | exact Hq].
Defined.

Lemma refresh_failure_only_logged_witness :
  exists w',
    fireRefreshAlloc Sample.lib Scenes.deaf Scenes.due_world = Done tt w' /\
    lifetime (conn w') = lifetime (conn Scenes.due_world) /\
    closeCh (conn w') = closeCh (conn Scenes.due_world) /\
    pt_running (refreshAllocTimer (conn w')) = true.
Proof.
  destruct (refresh_failure_only_logged Sample.lib Scenes.deaf (Sample.config 600)
              Scenes.due_world Sample.refresh_request {| Msg := None |}
              (Errorf "all retransmissions failed"))
    as (w' & Hrun & Hl & Hc & Hr & _).
  - apply (fresh_world_reachable Scenes.deaf [OpAdvance (300 * Second)]).
    vm_compute. reflexivity.
  - vm_compute. reflexivity.
  - vm_compute. discriminate.
  - vm_compute. reflexivity.
  - vm_compute. reflexivity.
  - exists w'. split; [exact Hrun|]. split; [exact Hl|]. split; [exact Hc | exact Hr].
Defined.

Lemma permission_refresh_schedule_witness :
  let w := Sample.exec_all Sample.lib (Sample.friendly 600) [OpAdvance (120 * Second)]
             Sample.bound_world in
  pt_interval (refreshPermsTimer (conn w)) = 120 * Second /\
  pt_due (refreshPermsTimer
            (conn (world_after (fireRefreshPerms Sample.lib (Sample.friendly 600) w))))
    = now w + 120 * Second.
Proof.
  cbv zeta.
  assert (Hreach : reachable Sample.lib (Sample.friendly 600) (Sample.config 600)
                     (Sample.exec_all Sample.lib (Sample.friendly 600)
                        [OpAdvance (120 * Second)] Sample.bound_world)).
  { apply (reachable_steps Sample.lib (Sample.friendly 600) (Sample.config 600)
             Sample.bound_world [OpAdvance (120 * Second)] _ bound_world_reachable).
    apply steps_exec_all. vm_compute. reflexivity. }
  destruct (permission_refresh_schedule Sample.lib (Sample.friendly 600) (Sample.config 600)
              _ Hreach) as [Hi Hfire].
  split; [exact Hi|].
  assert (Hrun : pt_running (refreshPermsTimer
                   (conn (Sample.exec_all Sample.lib (Sample.friendly 600)
                            [OpAdvance (120 * Second)] Sample.bound_world))) = true)
    by (vm_compute; reflexivity).
  assert (Hdue : pt_due (refreshPermsTimer
                   (conn (Sample.exec_all Sample.lib (Sample.friendly 600)
                            [OpAdvance (120 * Second)] Sample.bound_world)))
                 <= now (Sample.exec_all Sample.lib (Sample.friendly 600)
                           [OpAdvance (120 * Second)] Sample.bound_world))
    by (vm_compute; discriminate).
  assert (Hret : returns (fireRefreshPerms Sample.lib (Sample.friendly 600)
                            (Sample.exec_all Sample.lib (Sample.friendly 600)
                               [OpAdvance (120 * Second)] Sample.bound_world)) tt)
    by (vm_compute; reflexivity).
  exact (proj2 (Hfire Hrun Hdue _ (returns_world_after _ _ Hret))).
Defined.

Lemma refresh_asks_stored_lifetime_witness :
  exists evs,
    trace (world_after (fireRefreshAlloc Sample.lib (Sample.friendly 300) Sample.due_world))
      = trace Sample.due_world ++ EvLog LDebug "refresh timer expired"
          :: EvPerformTransaction Sample.refresh_request Sample.server false :: evs.
Proof.
  destruct (refresh_asks_stored_lifetime Sample.lib (Sample.friendly 300) (Sample.config 600)
              Sample.due_world Sample.refresh_request) as (evs & Htr & _).
  - apply (fresh_world_reachable (Sample.friendly 300) [OpAdvance (300 * Second)]).
    vm_compute. reflexivity.
  - vm_compute. reflexivity.
  - vm_compute. discriminate.
  - vm_compute. reflexivity.
  - exists evs. exact Htr.
Defined.
